(** * Celtic knots: the thread tracer of cknot.cpp, and the splines it builds

    A shallow embedding of [CKnot::CreateThread] (cknot.cpp), of the graph it
    walks ([Graph], [Junction], [Node]) and of the part of spline.hpp that the
    produced curves rely on ([Spline], [Hermite], [LocalSpline] with the
    [NearestNeighbor] step); then of the Hermite basis and of the cardinal
    functions of spline.hpp, and of [RemoveStrokes] (saver.cpp), which
    prepares the meshes that the animation traces.

    Conventions of the embedding.
    - A [double] is an exact rational ([Qc]): the tracer only adds, halves,
      scales and compares coordinates.  The functions of <cmath> that are not
      rational ([atan2], [atan], [cos], [sin], [sqrt]) are the fields of the
      class [Libm]; every theorem holds for every instance.  The theorems on
      the evaluation of splines are stated where the arithmetic of doubles is
      exact too (comparisons, knots from 0 to 1, values at 0), or relative to
      the value that the code has computed; those on polynomials say so.
    - An [int] index is an unbounded integer in [Imod] and in what calls it,
      where the divisor is a count of knots; [Function_Imod] is the function
      on [int]s, with what C++ leaves undefined.
    - A [Junction*] is the position of the junction it points to: the
      constructor of [Graph] allocates one junction per position, and the code
      compares such pointers for equality only.
    - A [std::set<Node>] is the list of its elements in increasing order; a
      [std::vector] or [std::list] is a list.
    - An uninitialised variable holds an arbitrary value, given by the class
      [Indeterminate].
    - A failed [assert] (and a read that C++ leaves undefined) aborts: it is
      the result [Abort].  Loops run on fuel; running out is [OutOfFuel].
    - The calls of [rand()] return the values of a function of their rank. *)

From Stdlib Require Import List Bool Arith ZArith QArith Qcanon Qround Qabs Qcabs.
From Stdlib Require Import Lia Lqa Permutation Sorted.
Import ListNotations.
Close Scope Qc_scope.
Close Scope Q_scope.
Open Scope list_scope.

Set Implicit Arguments.

(** ** Results of code that may abort *)

Inductive result (A : Type) : Type :=
| Ok (a : A)
| Abort
| OutOfFuel.

Arguments Ok {A} a.
Arguments Abort {A}.
Arguments OutOfFuel {A}.

Definition bind {A B : Type} (r : result A) (k : A -> result B) : result B :=
  match r with
  | Ok a => k a
  | Abort => Abort
  | OutOfFuel => OutOfFuel
  end.

Definition assert (b : bool) : result unit :=
  if b then Ok tt else Abort.

Notation "x <- r ;; k" := (bind r (fun x => k))
  (at level 61, r at next level, right associativity).
Notation "'ensure' b ;; k" := (bind (assert b) (fun _ => k))
  (at level 61, b at next level, right associativity).

(** ** Doubles *)

Definition double : Type := Qc.

Definition dbl_eqb (a b : double) : bool :=
  match (a ?= b)%Qc with Eq => true | _ => false end.

Definition dbl_ltb (a b : double) : bool :=
  match (a ?= b)%Qc with Lt => true | _ => false end.

Definition dbl_leb (a b : double) : bool :=
  match (a ?= b)%Qc with Gt => false | _ => true end.

Definition dbl_of_Z (z : Z) : double := Q2Qc (inject_Z z).

Definition dbl_of_nat (n : nat) : double := dbl_of_Z (Z.of_nat n).

Definition dbl (n : Z) (d : positive) : double := Q2Qc (n # d).

(** [std::floor] and [std::fabs]. *)
Definition floor (d : double) : double := dbl_of_Z (Qfloor d).
Definition fabs (d : double) : double := Qcabs d.

(** The functions of <cmath> the program calls whose values are not rational. *)
Class Libm : Type := {
  atan2 : double -> double -> double;
  atan : double -> double;
  cos : double -> double;
  sin : double -> double;
  sqrt : double -> double
}.

(** ** cknot.hpp: vec2 and Stroke *)

Record vec2 : Type := Vec2 { x : double; y : double }.

(** [vec2()] *)
Definition vec2_zero : vec2 := Vec2 0%Qc 0%Qc.

Definition vec2_add (l r : vec2) : vec2 := Vec2 (x l + x r)%Qc (y l + y r)%Qc.
Definition vec2_sub (l r : vec2) : vec2 := Vec2 (x l - x r)%Qc (y l - y r)%Qc.
Definition vec2_scale (l : vec2) (r : double) : vec2 := Vec2 (x l * r)%Qc (y l * r)%Qc.
Definition vec2_neg (l : vec2) : vec2 := Vec2 (x l * dbl (-1) 1)%Qc (y l * dbl (-1) 1)%Qc.

Definition vec2_eqb (l r : vec2) : bool := dbl_eqb (x l) (x r) && dbl_eqb (y l) (y r).

Definition vec2_ltb (l r : vec2) : bool :=
  if dbl_eqb (x l) (x r) then dbl_ltb (y l) (y r) else dbl_ltb (x l) (x r).

Inductive StrokeType : Type := Cross | Bounce | Glance.

Definition StrokeType_eqb (a b : StrokeType) : bool :=
  match a, b with
  | Cross, Cross | Bounce, Bounce | Glance, Glance => true
  | _, _ => false
  end.

Record Stroke : Type := MkStroke { a : vec2; b : vec2; stype : StrokeType }.

Definition StrokeList : Type := list Stroke.

Definition Stroke_GetMid (s : Stroke) : vec2 :=
  let mid := vec2_sub (b s) (a s) in
  let mid := Vec2 (x mid / dbl 2 1)%Qc (y mid / dbl 2 1)%Qc in
  vec2_add (a s) mid.

(** ** cknot.cpp: the direction algebra *)

Inductive Dir : Type := fLeft | fRight | bLeft | bRight.

(** The value of the enumerator, which [dir < rhs.dir] compares. *)
Definition Dir_value (d : Dir) : Z :=
  match d with fLeft => 0 | fRight => 1 | bLeft => 2 | bRight => 3 end.

Definition Dir_eqb (c d : Dir) : bool := (Dir_value c =? Dir_value d)%Z.
Definition Dir_ltb (c d : Dir) : bool := (Dir_value c <? Dir_value d)%Z.

Definition BounceDir (d : Dir) : Dir :=
  match d with
  | fLeft => bLeft
  | fRight => bRight
  | bRight => fRight
  | bLeft => fLeft
  end.

Definition CrossDir (d : Dir) : Dir :=
  match d with
  | fLeft => bRight
  | fRight => bLeft
  | bRight => fLeft
  | bLeft => fRight
  end.

Definition GlanceDir (d : Dir) : Dir :=
  match d with
  | fLeft => fRight
  | fRight => fLeft
  | bRight => bLeft
  | bLeft => bRight
  end.
Section WithLibm.
Context {libm : Libm}.

Definition vec2_GetAngle (v : vec2) : double := atan2 (y v) (x v).

Definition vec2_GetLength (v : vec2) : double :=
  let x2 := (x v * x v)%Qc in
  let y2 := (y v * y v)%Qc in
  sqrt (x2 + y2)%Qc.

Definition Stroke_GetAngle (s : Stroke) : double :=
  vec2_GetAngle (vec2_sub (b s) (a s)).

Definition Stroke_GetLength (s : Stroke) : double :=
  vec2_GetLength (vec2_sub (b s) (a s)).

End WithLibm.



(** ** cknot.cpp: nodes and sets of nodes *)

(** A [Junction*]. *)
Definition JunctionPtr : Type := vec2.

Definition ptr_eqb (p q : JunctionPtr) : bool := vec2_eqb p q.

(** A node in the middle of a stroke. *)
Record Node : Type := MkNode {
  mid : vec2;
  dir : Dir;
  type : StrokeType;
  normal : vec2;
  left : JunctionPtr;
  right : JunctionPtr
}.

(** [Node(mid, dir)]: the type is [Cross], the normal is [vec2()]; the
    constructor leaves the two pointers uninitialised, [l] and [r] are the
    values they happen to hold. *)
Definition Node_ctor (m : vec2) (d : Dir) (l r : JunctionPtr) : Node :=
  MkNode m d Cross vec2_zero l r.

Definition set_dir (n : Node) (d : Dir) : Node :=
  MkNode (mid n) d (type n) (normal n) (left n) (right n).

(** [Node::operator<] *)
Definition Node_lt (l r : Node) : bool :=
  if vec2_eqb (mid l) (mid r) then Dir_ltb (dir l) (dir r)
  else vec2_ltb (mid l) (mid r).

(** Two keys are equivalent for [std::set] when neither is less. *)
Definition Node_equiv (l r : Node) : bool :=
  negb (Node_lt l r) && negb (Node_lt r l).

Definition NodeSet : Type := list Node.

(** [s.insert(n)]: an equivalent element already in the set stays. *)
Fixpoint set_insert (n : Node) (s : NodeSet) : NodeSet :=
  match s with
  | [] => [n]
  | m :: s' =>
      if Node_lt n m then n :: s
      else if Node_lt m n then m :: set_insert n s'
      else s
  end.

(** [s.find(n)], [None] for [s.end()]. *)
Definition set_find (n : Node) (s : NodeSet) : option Node :=
  find (Node_equiv n) s.

(** [s.count(n)] as a truth value. *)
Definition set_count (n : Node) (s : NodeSet) : bool :=
  match set_find n s with Some _ => true | None => false end.

(** [s.erase(n)] *)
Definition set_erase (n : Node) (s : NodeSet) : NodeSet :=
  filter (fun m => negb (Node_equiv n m)) s.

(** [*s.begin()]; undefined on the empty set. *)
Definition set_begin (s : NodeSet) : result Node :=
  match s with
  | [] => Abort
  | n :: _ => Ok n
  end.

Definition set_size (s : NodeSet) : nat := length s.

(** ** cknot.cpp: junctions *)

Record Junction : Type := MkJunction {
  position : vec2;
  mids : list vec2
}.

(** [std::find(mids.begin(), mids.end(), v)] as an index, [None] for the end. *)
Fixpoint find_mid (v : vec2) (l : list vec2) : option nat :=
  match l with
  | [] => None
  | w :: l' => if vec2_eqb w v then Some 0%nat else option_map S (find_mid v l')
  end.

(** [Junction::FindNext]; the iterator is the index [it]. *)
Definition FindNext (j : Junction) (v : vec2) (clockwise : bool) : vec2 :=
  let ret := v in
  match find_mid v (mids j) with
  | None => ret
  | Some it =>
      if clockwise then
        let it := S it in
        let it := if (it =? length (mids j))%nat then 0%nat else it in
        nth it (mids j) ret
      else
        let it := if (it =? 0)%nat then length (mids j) else it in
        let it := (it - 1)%nat in
        nth it (mids j) ret
  end.

(** [std::map<vec2, Junction*>] together with the junctions it points to. *)
Definition JunctionMap : Type := list (vec2 * Junction).

(** [*p] for a pointer stored in a node: the junction at that position. *)
Fixpoint deref (m : JunctionMap) (p : JunctionPtr) : Junction :=
  match m with
  | [] => MkJunction p []
  | (k, j) :: m' => if vec2_eqb k p then j else deref m' p
  end.

(** The four lines that fetch or allocate the junction at [p], set its
    position and push [m] on its list. *)
Fixpoint junction_push (p : vec2) (m : vec2) (js : JunctionMap) : JunctionMap :=
  match js with
  | [] => [(p, MkJunction p [m])]
  | (k, j) :: js' =>
      if vec2_eqb k p then (k, MkJunction p (mids j ++ [m])) :: js'
      else (k, j) :: junction_push p m js'
  end.

Section GraphBuilder.
Context {libm : Libm}.

(** [VecAngleComp(point)(lhs, rhs)] *)
Definition VecAngleComp (point lhs rhs : vec2) : bool :=
  dbl_ltb (Stroke_GetAngle (MkStroke point lhs Cross))
          (Stroke_GetAngle (MkStroke point rhs Cross)).

(** [std::list::sort(comp)] is stable: an element goes after the elements
    that were before it and are not greater. *)
Fixpoint sort_insert (comp : vec2 -> vec2 -> bool) (v : vec2) (l : list vec2) : list vec2 :=
  match l with
  | [] => [v]
  | w :: l' => if comp w v then w :: sort_insert comp v l' else v :: l
  end.

Fixpoint list_sort (comp : vec2 -> vec2 -> bool) (l : list vec2) : list vec2 :=
  match l with
  | [] => []
  | v :: l' => sort_insert comp v (list_sort comp l')
  end.

Definition sort_junctions (js : JunctionMap) : JunctionMap :=
  map (fun kj => (fst kj,
                  MkJunction (position (snd kj))
                             (list_sort (VecAngleComp (position (snd kj))) (mids (snd kj)))))
      js.

(** ** cknot.cpp: the graph *)

Record Graph : Type := MkGraph {
  unused : NodeSet;
  junctions : JunctionMap
}.

(** The body of the loop of [Graph::Graph] for the stroke [it]. *)
Definition Graph_add (g : Graph) (it : Stroke) : Graph :=
  let mid := Stroke_GetMid it in
  let normal := vec2_sub (b it) (a it) in
  let normal := Vec2 (- y normal)%Qc (x normal) in
  let ja := a it in
  let js := junction_push (a it) mid (junctions g) in
  let jb := b it in
  let js := junction_push (b it) mid js in
  let n := MkNode mid fLeft (stype it) normal ja jb in
  let un := set_insert n (unused g) in
  let n := set_dir n fRight in
  let un := set_insert n un in
  let n := set_dir n bLeft in
  let un := set_insert n un in
  let n := set_dir n bRight in
  let un := set_insert n un in
  MkGraph un (sort_junctions js).

Definition Graph_ctor (strokes : StrokeList) : Graph :=
  fold_left Graph_add strokes (MkGraph [] []).

End GraphBuilder.

(** ** spline.hpp *)

(** [Function::Imod]; [%] truncates towards zero. *)
Definition Imod (i j : Z) : Z :=
  if (Z.rem i j <? 0)%Z then (Z.rem i j + (if (j <? 0)%Z then - j else j))%Z
  else Z.rem i j.

(** [Function::Mod] *)
Definition Mod (i start end_ : double) : result double :=
  let range := (end_ - start)%Qc in
  let d := fabs ((i - start) / range)%Qc in
  let d := (d - floor d)%Qc in
  let d := (d * range)%Qc in
  let d := if dbl_leb start i then (d + start)%Qc else (end_ - d)%Qc in
  ensure (dbl_leb start d);;
  ensure (dbl_ltb d end_);;
  Ok d.

(** [Function::NearestNeighbor::operator()] *)
Definition NearestNeighbor {ST : Type} (y0 y1 : ST) (t : double) : ST :=
  if dbl_ltb t (dbl 1 2) then y0 else y1.

(** The data members of [Spline<ST, FT>] but [mLastIndex], which the
    constructor leaves uninitialised and which the evaluation threads as an
    argument.  [mN] is a bit-field of 30 bits. *)
Record Spline (ST : Type) : Type := MkSpline {
  mN : Z;
  mLoop : bool;
  mCopy : bool;
  mXs : list double;
  mYs : list ST
}.

(** The loop of the constructor that asserts [mXs[i] > last]. *)
Fixpoint ascending (last : double) (l : list double) : bool :=
  match l with
  | [] => true
  | v :: l' => dbl_ltb last v && ascending v l'
  end.

(** [Spline::Spline]; the arrays hold at least the [n] elements read. *)
Definition Spline_ctor {ST : Type} (xs : list double) (ys : list ST) (n : nat)
    (loop copy : bool) : result (Spline ST) :=
  let mN := (Z.of_nat n mod 2 ^ 30)%Z in
  ensure (1 <? mN)%Z;;
  ensure ((n <=? length xs)%nat && (n <=? length ys)%nat);;
  let mXs := firstn n xs in
  let mYs := firstn n ys in
  ensure (match firstn (Z.to_nat mN) mXs with
          | [] => true
          | last :: l => ascending last l
          end);;
  Ok (MkSpline mN loop copy mXs mYs).

Definition array_read {A : Type} (l : list A) (index : Z) : result A :=
  if (index <? 0)%Z then Abort
  else match nth_error l (Z.to_nat index) with
       | Some v => Ok v
       | None => Abort
       end.

(** [Spline::GetX] *)
Definition GetX {ST : Type} (s : Spline ST) (index : Z) : result double :=
  let index := Imod index (mN s) in
  ensure (0 <=? index)%Z;;
  ensure (index <? mN s)%Z;;
  array_read (mXs s) index.

(** [Spline::GetY] *)
Definition GetY {ST : Type} (s : Spline ST) (index : Z) : result ST :=
  let index := Imod index (mN s) in
  ensure (0 <=? index)%Z;;
  ensure (index <? mN s)%Z;;
  array_read (mYs s) index.

(** [Spline::LoopInRange] *)
Definition LoopInRange {ST : Type} (s : Spline ST) (x : double) : result double :=
  x0 <- array_read (mXs s) 0;;
  xn <- array_read (mXs s) (mN s - 1);;
  Mod x x0 xn.

(** The [while (true)] of [Spline::GetIndex]. *)
Fixpoint GetIndex_loop {ST : Type} (fuel : nat) (s : Spline ST) (x : double) (i : Z)
    : result Z :=
  match fuel with
  | O => OutOfFuel
  | S fuel =>
      let i := Imod i (mN s) in
      current <- GetX s i;;
      next <- GetX s (i + 1);;
      if dbl_leb current x then
        if dbl_ltb x next then Ok i
        else if (i =? mN s - 2)%Z && negb (mLoop s) then Ok i
        else GetIndex_loop fuel s x (i + 1)
      else
        if (i =? 0)%Z && negb (mLoop s) then Ok i
        else GetIndex_loop fuel s x (i - 1)
  end.

(** [Spline::GetIndex], from the cached index [mLastIndex]; the result is
    also the new value of the cache. *)
Definition GetIndex {ST : Type} (s : Spline ST) (mLastIndex : Z) (x : double) : result Z :=
  let i := mLastIndex in
  x <- (if mLoop s then LoopInRange s x else Ok x);;
  GetIndex_loop (S (Z.to_nat (mN s))) s x i.

(** [Spline::GetSubRange] *)
Definition GetSubRange {ST : Type} (s : Spline ST) (index : Z) (x : double) : result double :=
  d <- (if mLoop s then LoopInRange s x else Ok x);;
  sr <- GetX s index;;
  er <- GetX s (index + 1);;
  let r := (er - sr)%Qc in
  let d := (d - sr)%Qc in
  let d := (d / r)%Qc in
  Ok d.

(** [Spline::Hermite<ST, FT>]: a spline with a tangent per knot. *)
Record Hermite (ST : Type) : Type := MkHermite {
  hermite_base : Spline ST;
  mMs : list ST
}.

(** [Hermite::Hermite] *)
Definition Hermite_ctor {ST : Type} (xs : list double) (ys ms : list ST) (n : nat)
    (loop copy : bool) : result (Hermite ST) :=
  base <- Spline_ctor xs ys n loop copy;;
  ensure (n <=? length ms)%nat;;
  Ok (MkHermite base (firstn n ms)).

(** [Spline::Step], that is [LocalSpline<Function::NearestNeighbor>]. *)
Definition Step : Type := Spline double.

Definition Step_ctor (xs ys : list double) (n : nat) (loop copy : bool) : result Step :=
  Spline_ctor xs ys n loop copy.

(** [LocalSpline<NearestNeighbor>::Y]: the value and the new cached index. *)
Definition Step_Y (s : Step) (mLastIndex : Z) (x : double) : result (double * Z) :=
  i <- GetIndex s mLastIndex x;;
  t <- GetSubRange s i x;;
  y0 <- GetY s i;;
  y1 <- GetY s (i + 1);;
  Ok (NearestNeighbor y0 y1 t, i).

(** ** cknot.cpp: Art *)

Definition Thread : Type := Hermite vec2.

Record Art : Type := MkArt {
  mThreads : list Thread;
  mZs : list Step
}.

Definition GetThreadCount (art : Art) : nat := length (mThreads art).

Definition vector_at {A : Type} (v : list A) (index : nat) : result A :=
  match nth_error v index with
  | Some e => Ok e
  | None => Abort
  end.

Definition GetThread (art : Art) (index : nat) : result Thread :=
  ensure (index <? GetThreadCount art)%nat;;
  vector_at (mThreads art) index.

Definition GetZ (art : Art) (index : nat) : result Step :=
  ensure (index <? GetThreadCount art)%nat;;
  vector_at (mZs art) index.

(** ** cknot.cpp: CreateThread *)

(** A port: the key of a node in a set, its midpoint and its direction. *)
Definition Port : Type := (vec2 * Dir)%type.

Definition port (n : Node) : Port := (mid n, dir n).

(** The variables of the inner loop.  [visits] is a ghost variable: the
    ports that [g.unused.erase(cur)] took out of the unused set while this
    thread was traced, in the order of the calls. *)
Record Trace : Type := MkTrace {
  t_unused : NodeSet;
  t_unusedUp : NodeSet;
  t_cur : Node;
  t_up : bool;
  t_thread : list vec2;
  t_angles : list vec2;
  t_zs : list double;
  t_visits : list Port
}.

(** Lines 370-384: an unused node that is crossed from below is remembered,
    with its opposite, as one to be entered from above. *)
Definition mark_above (un uu : NodeSet) (cur : Node) (up : bool) : result NodeSet :=
  if negb up && StrokeType_eqb (type cur) Cross then
    let above := cur in
    let above := set_dir above (GlanceDir (dir above)) in
    if set_count above un then
      let uu := set_insert above uu in
      let above := set_dir above (CrossDir (dir above)) in
      ensure (set_count above un);;
      Ok (set_insert above uu)
    else Ok uu
  else Ok uu.

(** Line 393: the junction the node is entered from. *)
Definition entry_junction (cur : Node) : JunctionPtr :=
  if Dir_eqb (dir cur) fLeft || Dir_eqb (dir cur) bLeft then left cur else right cur.

(** Lines 396-402: the switch to the exit direction. *)
Definition exit_dir (cur : Node) : Dir :=
  match type cur with
  | Bounce => BounceDir (dir cur)
  | Cross => CrossDir (dir cur)
  | Glance => GlanceDir (dir cur)
  end.

(** Lines 456-457: the junction the thread leaves through. *)
Definition exit_junction (cur : Node) (j : JunctionPtr) : JunctionPtr :=
  if negb (StrokeType_eqb (type cur) Bounce) then
    if ptr_eqb j (right cur) then left cur else right cur
  else j.

(** Line 459 *)
Definition is_clockwise (d : Dir) : bool := Dir_eqb d fLeft || Dir_eqb d bRight.

(** What the uninitialised pointers of the node built at line 464 hold; it
    may depend on all that the loop has done so far. *)
Class Indeterminate : Type := {
  uninit_left : Trace -> JunctionPtr;
  uninit_right : Trace -> JunctionPtr
}.

Section Tracer.
Context {libm : Libm} {mem : Indeterminate}.

(** Lines 409-454: the point and the tangent pushed for the node [cur], in
    its exit direction, and the new value of [up]. *)
Definition sample (js : JunctionMap) (cur : Node) (up : bool) : bool * vec2 * vec2 :=
  let rot := atan (dbl 1 1) in
  let isFront := Dir_eqb (dir cur) fLeft || Dir_eqb (dir cur) fRight in
  let isLeft := Dir_eqb (dir cur) fLeft || Dir_eqb (dir cur) bLeft in
  match type cur with
  | Cross =>
      let up := negb up in
      let nrm := normal cur in
      let t := vec2_GetAngle nrm in
      let t := match dir cur with
               | fLeft => (t + rot * dbl 1 1)%Qc
               | bLeft => (t + rot * dbl 3 1)%Qc
               | bRight => (t - rot * dbl 3 1)%Qc
               | fRight => (t - rot)%Qc
               end in
      let nrm := vec2_scale (Vec2 (cos t) (sin t)) (vec2_GetLength (normal cur)) in
      let nrm := vec2_scale nrm (dbl 13 10) in
      (up, mid cur, nrm)
  | Glance =>
      let offset := vec2_scale (normal cur) (if isFront then dbl 1 4 else dbl (-1) 4) in
      let nrm := vec2_scale (vec2_sub (position (deref js (left cur)))
                                      (position (deref js (right cur))))
                            (if isLeft then dbl 3 10 else dbl (-3) 10) in
      (up, vec2_add (mid cur) offset, nrm)
  | Bounce =>
      let offset := vec2_scale (vec2_sub (position (deref js (left cur)))
                                         (position (deref js (right cur))))
                               (if isLeft then dbl 1 4 else dbl (-1) 4) in
      let nrm := vec2_scale (normal cur) (if isFront then dbl 3 10 else dbl (-3) 10) in
      (up, vec2_add (mid cur) offset, nrm)
  end.

(** One turn of the [while (true)] loop, lines 368-491.  The boolean is
    false when the turn ends in [break]. *)
Definition inner_body (js : JunctionMap) (s : Trace) : result (bool * Trace) :=
  let cur := t_cur s in
  let up := t_up s in
  let zs := t_zs s ++ [if up then dbl 1 1 else dbl 0 1] in
  uu <- mark_above (t_unused s) (t_unusedUp s) cur up;;
  let uu := set_erase cur uu in
  ensure (set_count cur (t_unused s));;
  let un := set_erase cur (t_unused s) in
  let visits := t_visits s ++ [port cur] in
  let j := entry_junction cur in
  let cur := set_dir cur (exit_dir cur) in
  let uu := set_erase cur uu in
  ensure (set_count cur un);;
  let un := set_erase cur un in
  let visits := visits ++ [port cur] in
  let '(up, point, tangent) := sample js cur up in
  let thread := t_thread s ++ [point] in
  let angles := t_angles s ++ [tangent] in
  let j := exit_junction cur j in
  let clockwise := is_clockwise (dir cur) in
  let next := FindNext (deref js j) (mid cur) clockwise in
  let d := if clockwise then fRight else bRight in
  let n := Node_ctor next d (uninit_left s) (uninit_right s) in
  match set_find n un with
  | None =>
      let n := set_dir n (CrossDir d) in
      match set_find n un with
      | None => Ok (false, MkTrace un uu cur up thread angles zs visits)
      | Some it => Ok (true, MkTrace un uu it up thread angles zs visits)
      end
  | Some it =>
      let cur := it in
      if negb (ptr_eqb (right cur) j) then
        let cur := set_dir cur (CrossDir (dir cur)) in
        if negb (set_count cur un) then
          Ok (false, MkTrace un uu cur up thread angles zs visits)
        else Ok (true, MkTrace un uu cur up thread angles zs visits)
      else Ok (true, MkTrace un uu cur up thread angles zs visits)
  end.

Fixpoint inner_loop (fuel : nat) (js : JunctionMap) (s : Trace) : result Trace :=
  match fuel with
  | O => OutOfFuel
  | S fuel =>
      r <- inner_body js s;;
      if fst r then inner_loop fuel js (snd r) else Ok (snd r)
  end.

(** Lines 358-364: the node a thread starts from, and the initial [up]. *)
Definition thread_start (un uu : NodeSet) : result (Node * bool) :=
  let up := false in
  cur <- (if (0 <? set_size uu)%nat then set_begin uu else set_begin un);;
  let up := if (0 <? set_size uu)%nat then true else up in
  Ok (cur, up).

(** [v.front()]; undefined on an empty vector. *)
Definition front {A : Type} (v : list A) : result A :=
  match v with
  | [] => Abort
  | e :: _ => Ok e
  end.

(** Line 498: [double(i) / double(frames)]. *)
Definition knot (frames i : nat) : double := (dbl_of_nat i / dbl_of_nat frames)%Qc.

(** Lines 495-499: the knots. *)
Definition knots (frames : nat) : list double :=
  map (knot frames) (seq 0 frames) ++ [dbl 1 1].

(** Lines 495-506: the two curves made of a traced thread. *)
Definition package (s : Trace) : result (Thread * Step) :=
  let frames := length (t_thread s) in
  let xs := knots frames in
  f <- front (t_thread s);;
  let thread := t_thread s ++ [f] in
  f <- front (t_angles s);;
  let angles := t_angles s ++ [f] in
  f <- front (t_zs s);;
  let zs := t_zs s ++ [f] in
  th <- Hermite_ctor xs thread angles (frames + 1) true true;;
  z <- Step_ctor xs zs (frames + 1) true true;;
  Ok (th, z).

(** The variables of the outer loop; [o_log] is the ghost list of the
    visits of each thread produced so far. *)
Record Outer : Type := MkOuter {
  o_unused : NodeSet;
  o_unusedUp : NodeSet;
  o_ret : list Thread;
  o_retZs : list Step;
  o_log : list (list Port)
}.

(** One turn of the outer loop, lines 349-508. *)
Definition first_trace (o : Outer) (st : Node * bool) : Trace :=
  MkTrace (o_unused o) (o_unusedUp o) (fst st) (snd st) [] [] [] [].

Definition outer_body (js : JunctionMap) (o : Outer) : result Outer :=
  st <- thread_start (o_unused o) (o_unusedUp o);;
  s <- inner_loop (S (set_size (o_unused o))) js (first_trace o st);;
  tz <- package s;;
  Ok (MkOuter (t_unused s) (t_unusedUp s)
              (o_ret o ++ [fst tz]) (o_retZs o ++ [snd tz])
              (o_log o ++ [t_visits s])).

(** The condition of the outer loop, line 347. *)
Definition outer_cond (o : Outer) : bool :=
  (0 <? set_size (o_unused o))%nat || (0 <? set_size (o_unusedUp o))%nat.

Fixpoint outer_loop (fuel : nat) (js : JunctionMap) (o : Outer) : result Outer :=
  if outer_cond o then
    match fuel with
    | O => OutOfFuel
    | S fuel => o' <- outer_body js o;; outer_loop fuel js o'
    end
  else Ok o.

(** [CreateThread] up to its last line, with the ghost log. *)
Definition first_outer (g : Graph) : Outer := MkOuter (unused g) [] [] [] [].

Definition CreateThread_run (strokes : StrokeList) : result Outer :=
  let g := Graph_ctor strokes in
  outer_loop (set_size (unused g)) (junctions g) (first_outer g).

Definition CreateThread (strokes : StrokeList) : result Art :=
  o <- CreateThread_run strokes;;
  Ok (MkArt (o_ret o) (o_retZs o)).

(** The states in which the program stands at the head of the outer loop,
    and at the head of the inner loop, when it runs on [strokes]. *)
Inductive at_outer_head (strokes : StrokeList) : Outer -> Prop :=
| outer_head_first : at_outer_head strokes (first_outer (Graph_ctor strokes))
| outer_head_next (o o' : Outer) :
    at_outer_head strokes o ->
    outer_cond o = true ->
    outer_body (junctions (Graph_ctor strokes)) o = Ok o' ->
    at_outer_head strokes o'.

Inductive at_inner_head (strokes : StrokeList) : Trace -> Prop :=
| inner_head_first (o : Outer) (st : Node * bool) :
    at_outer_head strokes o ->
    outer_cond o = true ->
    thread_start (o_unused o) (o_unusedUp o) = Ok st ->
    at_inner_head strokes (first_trace o st)
| inner_head_next (s s' : Trace) :
    at_inner_head strokes s ->
    inner_body (junctions (Graph_ctor strokes)) s = Ok (true, s') ->
    at_inner_head strokes s'.

End Tracer.

(** ** Predicates of the statements *)

(** Every node of [uu] has an equivalent node in [un]. *)
Definition set_subset (uu un : NodeSet) : Prop :=
  forall n : Node, set_count n uu = true -> set_count n un = true.

(** The representation invariant of [std::set<Node>]. *)
Definition set_ok (s : NodeSet) : Prop :=
  StronglySorted (fun l r => Node_lt l r = true) s.

(** [n] is the least element of [s]. *)
Definition set_least (n : Node) (s : NodeSet) : Prop :=
  In n s /\ forall m : Node, In m s -> m = n \/ Node_lt n m = true.

(** The nodes of one midpoint have one type. *)
Definition coherent (s : NodeSet) : Prop :=
  forall n m : Node, In n s -> In m s -> mid n = mid m -> type n = type m.

(** With a node, a set holds the node of its exit direction. *)
Definition paired (s : NodeSet) : Prop :=
  forall n : Node, In n s -> set_count (set_dir n (exit_dir n)) s = true.

(** [n] has the port and the type of a node of [s]. *)
Definition known (s : NodeSet) (n : Node) : Prop :=
  exists m : Node, In m s /\ port m = port n /\ type m = type n.

(** What the two loops keep true of the unused set [un] and of the
    crossed-from-below set [uu]. *)
Definition sets_inv (un uu : NodeSet) : Prop :=
  set_ok un /\ set_ok uu /\ coherent un /\ paired un /\
  forall u : Node, In u uu -> known un u.

Definition trace_inv (s : Trace) : Prop :=
  sets_inv (t_unused s) (t_unusedUp s) /\ known (t_unused s) (t_cur s).

(** From [s] to [s'] the thread grew by [k] samples and took [2 * k] ports
    out of the unused set. *)
Definition extends (k : nat) (s s' : Trace) : Prop :=
  exists (pts tans : list vec2) (zs : list double) (vs : list Port),
    t_thread s' = t_thread s ++ pts /\ t_angles s' = t_angles s ++ tans /\
    t_zs s' = t_zs s ++ zs /\ t_visits s' = t_visits s ++ vs /\
    length pts = k /\ length tans = k /\ length zs = k /\ length vs = (2 * k)%nat /\
    Permutation (map port (t_unused s)) (vs ++ map port (t_unused s')).

Inductive Forall3 {A B C : Type} (R : A -> B -> C -> Prop)
    : list A -> list B -> list C -> Prop :=
| Forall3_nil : Forall3 R [] [] []
| Forall3_cons (a : A) (b : B) (c : C) (la : list A) (lb : list B) (lc : list C) :
    R a b c -> Forall3 R la lb lc -> Forall3 R (a :: la) (b :: lb) (c :: lc).

(** The curves [th] and [z] are those that lines 495-506 make of a thread
    of at least one sample, traced while the ports [vs] were taken. *)
Definition produced (th : Thread) (z : Step) (vs : list Port) : Prop :=
  exists (p : vec2) (pts : list vec2) (tg : vec2) (tans : list vec2)
         (u : double) (zs : list double),
    let frames := S (length pts) in
    length tans = length pts /\ length zs = length pts /\
    length vs = (2 * frames)%nat /\
    mYs (hermite_base th) = (p :: pts) ++ [p] /\
    mMs th = (tg :: tans) ++ [tg] /\
    mYs z = (u :: zs) ++ [u] /\
    mXs (hermite_base th) = knots frames /\ mXs z = knots frames /\
    mN (hermite_base th) = (Z.of_nat (frames + 1) mod 2 ^ 30)%Z /\
    mN z = (Z.of_nat (frames + 1) mod 2 ^ 30)%Z /\
    (1 < mN z)%Z /\
    mLoop (hermite_base th) = true /\ mLoop z = true.

(** What the outer loop keeps true; [init] is the list of the ports of
    the graph. *)
Definition outer_inv (init : list Port) (o : Outer) : Prop :=
  sets_inv (o_unused o) (o_unusedUp o) /\
  Permutation (concat (o_log o) ++ map port (o_unused o)) init /\
  Forall3 produced (o_ret o) (o_retZs o) (o_log o).

(** The node that lines 300-314 insert for the stroke [it] and the
    direction [d]. *)
Definition stroke_node (it : Stroke) (d : Dir) : Node :=
  let nrm := vec2_sub (b it) (a it) in
  MkNode (Stroke_GetMid it) d (stype it) (Vec2 (- y nrm)%Qc (x nrm)) (a it) (b it).

(** What the constructor of [Graph] keeps true of the unused set, [seen]
    being the midpoints of the strokes read so far. *)
Definition graph_inv (seen : list vec2) (un : NodeSet) : Prop :=
  set_ok un /\ coherent un /\
  (forall n : Node, In n un -> In (mid n) seen) /\
  (forall (m : vec2) (d : Dir), In m seen -> exists n : Node, In n un /\ port n = (m, d)).

(** The list [l] is in ascending order of angle around [point]: no element
    has a smaller angle than the one before it. *)
Definition angle_sorted {libm : Libm} (point : vec2) (l : list vec2) : Prop :=
  Sorted (fun v w => VecAngleComp point w v = false) l.

(** The midpoint of [n] is on the lists of the junctions at the two ends of
    its stroke. *)
Definition anchored (js : JunctionMap) (n : Node) : Prop :=
  In (mid n) (mids (deref js (left n))) /\ In (mid n) (mids (deref js (right n))).

(** The contract of the mesh supplier: the two ends of a stroke differ. *)
Definition valid_mesh (strokes : StrokeList) : Prop :=
  Forall (fun s : Stroke => a s <> b s) strokes.

(** A list without the repetitions of its elements. *)
Fixpoint distinct (l : list vec2) : list vec2 :=
  match l with
  | [] => []
  | v :: l' => if existsb (vec2_eqb v) l' then distinct l' else v :: distinct l'
  end.

(** The midpoints of a mesh, each once. *)
Definition midpoints (strokes : StrokeList) : list vec2 :=
  distinct (map Stroke_GetMid strokes).

(** The number of samples of a thread before the closing one. *)
Definition sample_count (th : Thread) : nat :=
  Nat.pred (length (mYs (hermite_base th))).

(** The mesh is small enough for the knots of any thread to be counted in
    the 30 bits of [mN]. *)
Definition fits (strokes : StrokeList) : Prop :=
  (4 * Z.of_nat (length strokes) < 2 ^ 30)%Z.

Definition all_dirs : list Dir := [fLeft; fRight; bLeft; bRight].

(** The four ports of each midpoint of a list. *)
Definition ports_of (ms : list vec2) : list Port :=
  flat_map (fun m => map (pair m) all_dirs) ms.

(** ** Meshes and a machine to run the model on *)

(** An instance of [Libm] with rational values.  [atan2] is the diamond
    angle, which orders directions as the angle does; the other functions
    are coarse stand-ins. *)
Definition diamond (y x : double) : double :=
  if dbl_leb (dbl 0 1) y then
    if dbl_leb (dbl 0 1) x then
      (if dbl_eqb (x + y)%Qc (dbl 0 1) then dbl 0 1 else y / (x + y))%Qc
    else (dbl 1 1 + (- x) / (- x + y))%Qc
  else
    if dbl_ltb x (dbl 0 1) then (dbl (-1) 1 - (- x) / (- x - y))%Qc
    else (- ((- y) / (x - y)))%Qc.

Definition rational_libm : Libm := {|
  atan2 := diamond;
  atan := fun t => (t * dbl 157 200)%Qc;
  cos := fun t => (dbl 1 1 - t * t / dbl 2 1)%Qc;
  sin := fun t => t;
  sqrt := fun t => t
|}.

Definition zeroed_memory : Indeterminate := {|
  uninit_left := fun _ => vec2_zero;
  uninit_right := fun _ => vec2_zero
|}.

Definition stale_memory : Indeterminate := {|
  uninit_left := fun s => mid (t_cur s);
  uninit_right := fun s => right (t_cur s)
|}.

Definition pt (px py : Z) : vec2 := Vec2 (dbl px 1) (dbl py 1).

(** One stroke on its own. *)
Definition mesh_one : StrokeList := [MkStroke (pt 0 0) (pt 2 0) Cross].

(** A stroke whose ends coincide. *)
Definition mesh_point : StrokeList := [MkStroke (pt 0 0) (pt 0 0) Cross].

(** Two strokes that cross at their common midpoint. *)
Definition mesh_x : StrokeList :=
  [MkStroke (pt 0 0) (pt 2 2) Cross; MkStroke (pt 0 2) (pt 2 0) Cross].

(** The same stroke twice. *)
Definition mesh_twice : StrokeList :=
  [MkStroke (pt 0 0) (pt 2 0) Cross; MkStroke (pt 0 0) (pt 2 0) Cross].

(** The run of the model on [mesh_one]. *)
Definition run_one : Outer :=
  match @CreateThread_run rational_libm zeroed_memory mesh_one with
  | Ok o => o
  | _ => MkOuter [] [] [] [] []
  end.

Definition art_one : Art := MkArt (o_ret run_one) (o_retZs run_one).

(** The variables at the first turn of the inner loop on [mesh_one], and
    the outcome of that turn. *)
Definition trace_one : Trace :=
  let g := @Graph_ctor rational_libm mesh_one in
  first_trace (first_outer g)
    (match @thread_start (unused g) [] with
     | Ok st => st
     | _ => (Node_ctor vec2_zero fLeft vec2_zero vec2_zero, false)
     end).

Definition turn_one : bool * Trace :=
  match @inner_body rational_libm zeroed_memory
          (junctions (@Graph_ctor rational_libm mesh_one)) trace_one with
  | Ok r => r
  | _ => (false, trace_one)
  end.

(** A square with strokes of the three types. *)
Definition mesh_square : StrokeList :=
  [MkStroke (pt 0 0) (pt 2 0) Cross; MkStroke (pt 0 0) (pt 0 2) Glance;
   MkStroke (pt 2 0) (pt 2 2) Bounce; MkStroke (pt 0 2) (pt 2 2) Cross].

(** The variables at the first turn of the inner loop on [mesh_square], and
    the outcome of that turn. *)
Definition trace_square : Trace :=
  let g := @Graph_ctor rational_libm mesh_square in
  first_trace (first_outer g)
    (match @thread_start (unused g) [] with
     | Ok st => st
     | _ => (Node_ctor vec2_zero fLeft vec2_zero vec2_zero, false)
     end).

Definition turn_square : bool * Trace :=
  match @inner_body rational_libm zeroed_memory
          (junctions (@Graph_ctor rational_libm mesh_square)) trace_square with
  | Ok r => r
  | _ => (false, trace_square)
  end.

(** ** More of cknot.cpp *)

(** Lines 409-410, on a direction. *)
Definition isFront (d : Dir) : bool := Dir_eqb d fLeft || Dir_eqb d fRight.
Definition isLeft (d : Dir) : bool := Dir_eqb d fLeft || Dir_eqb d bLeft.

(** The midpoints that the constructor of [Graph] pushes on the list of the
    junction at [p], in the order of the pushes: a stroke pushes its midpoint
    for its end [a], then for its end [b]. *)
Definition incident (p : vec2) (strokes : StrokeList) : list vec2 :=
  flat_map (fun it =>
              (if vec2_eqb (a it) p then [Stroke_GetMid it] else [])
              ++ (if vec2_eqb (b it) p then [Stroke_GetMid it] else []))
           strokes.

(** The ends of the strokes of a mesh. *)
Definition endpoints (strokes : StrokeList) : list vec2 :=
  flat_map (fun it => [a it; b it]) strokes.

(** The first stroke of a mesh whose midpoint is [m]. *)
Definition first_stroke_at (m : vec2) (strokes : StrokeList) : option Stroke :=
  find (fun it => vec2_eqb (Stroke_GetMid it) m) strokes.

(** A list of ports made of passes: an entry port then an exit port of the
    same midpoint, in another direction. *)
Fixpoint passes (vs : list Port) : Prop :=
  match vs with
  | [] => True
  | e :: x :: vs' => fst e = fst x /\ snd e <> snd x /\ passes vs'
  | _ => False
  end.

(** The entry ports of a list of passes. *)
Fixpoint entries (vs : list Port) : list Port :=
  match vs with
  | e :: _ :: vs' => e :: entries vs'
  | _ => []
  end.

(** An over/under flag: [0.0] or [1.0]. *)
Definition is_flag (d : double) : Prop := d = dbl 0 1 \/ d = dbl 1 1.

(** ** More of spline.hpp *)

(** What the templates ask of a sample type [ST]: sums, differences, the
    opposite and the product by a number.  [double] and [vec2] have them. *)
Class Sample (ST : Type) : Type := {
  s_add : ST -> ST -> ST;
  s_sub : ST -> ST -> ST;
  s_neg : ST -> ST;
  s_scale : ST -> double -> ST
}.

#[export] Instance Sample_double : Sample double := {|
  s_add := Qcplus;
  s_sub := Qcminus;
  s_neg := fun d => (- d)%Qc;
  s_scale := Qcmult
|}.

#[export] Instance Sample_vec2 : Sample vec2 := {|
  s_add := vec2_add;
  s_sub := vec2_sub;
  s_neg := vec2_neg;
  s_scale := vec2_scale
|}.

(** [Function::h1] to [Function::h4], the Hermite basis. *)
Definition h1 (t : double) : double :=
  let t2 := (t * t)%Qc in
  let t3 := (t2 * t)%Qc in
  (dbl 2 1 * t3 - dbl 3 1 * t2 + dbl 1 1)%Qc.

Definition h2 (t : double) : double :=
  let t2 := (t * t)%Qc in
  let t3 := (t2 * t)%Qc in
  (dbl (-2) 1 * t3 + dbl 3 1 * t2)%Qc.

Definition h3 (t : double) : double :=
  let t2 := (t * t)%Qc in
  let t3 := (t2 * t)%Qc in
  (t3 - dbl 2 1 * t2 + t)%Qc.

Definition h4 (t : double) : double :=
  let t2 := (t * t)%Qc in
  let t3 := (t2 * t)%Qc in
  (t3 - t2)%Qc.

(** [Function::Hermite] *)
Definition Function_Hermite {ST : Type} {S : Sample ST} (m0 y0 y1 m1 : ST) (t : double) : ST :=
  s_add (s_add (s_add (s_scale m0 (h3 t)) (s_scale y0 (h1 t))) (s_scale y1 (h2 t)))
        (s_scale m1 (h4 t)).

(** [Function::Cardinal]; its tangents have the type [FT], so the samples are
    numbers. *)
Definition Function_Cardinal (y0 y1 y2 y3 c t : double) : double :=
  let m0 := (c * (y2 - y0))%Qc in
  let m1 := (c * (y3 - y1))%Qc in
  Function_Hermite m0 y1 y2 m1 t.

(** [Function::CatmullRom] *)
Definition Function_CatmullRom {ST : Type} {S : Sample ST} (y0 y1 y2 y3 : ST) (t : double) : ST :=
  let t2 := (t * t)%Qc in
  let t3 := (t2 * t)%Qc in
  s_scale
    (s_add
       (s_add
          (s_add (s_scale y1 (dbl 2 1))
                 (s_scale (s_add (s_neg y0) y2) t))
          (s_scale (s_sub (s_add (s_sub (s_scale y0 (dbl 2 1)) (s_scale y1 (dbl 5 1)))
                                 (s_scale y2 (dbl 4 1)))
                          y3)
                   t2))
       (s_scale (s_add (s_sub (s_add (s_neg y0) (s_scale y1 (dbl 3 1)))
                              (s_scale y2 (dbl 3 1)))
                       y3)
                t3))
    (dbl 1 2).

(** The namespace [Spline::Antiderivatives]. *)
Module Antiderivatives.

Definition h1 (t : double) : double :=
  let t2 := (t * t)%Qc in
  let t3 := (t2 * t)%Qc in
  let t4 := (t3 * t)%Qc in
  (t4 / dbl 2 1 - t3 + t)%Qc.

Definition h2 (t : double) : double :=
  let t2 := (t * t)%Qc in
  let t3 := (t2 * t)%Qc in
  let t4 := (t3 * t)%Qc in
  (t3 - t4 / dbl 2 1)%Qc.

Definition h3 (t : double) : double :=
  let t2 := (t * t)%Qc in
  let t3 := (t2 * t)%Qc in
  let t4 := (t3 * t)%Qc in
  (t4 / dbl 4 1 - dbl 2 1 * t3 / dbl 3 1 + t2 / dbl 2 1)%Qc.

Definition h4 (t : double) : double :=
  let t2 := (t * t)%Qc in
  let t3 := (t2 * t)%Qc in
  let t4 := (t3 * t)%Qc in
  (t4 / dbl 4 1 - t3 / dbl 3 1)%Qc.

End Antiderivatives.

(** The namespace [Spline::Derivatives]. *)
Module Derivatives.

Definition h1 (t : double) : double :=
  let t2 := (t * t)%Qc in
  (dbl 6 1 * t2 - dbl 6 1 * t)%Qc.

Definition h2 (t : double) : double :=
  let t2 := (t * t)%Qc in
  (dbl 6 1 * t - dbl 6 1 * t2)%Qc.

Definition h3 (t : double) : double :=
  let t2 := (t * t)%Qc in
  (dbl 3 1 * t2 - dbl 4 1 * t + dbl 1 1)%Qc.

Definition h4 (t : double) : double :=
  let t2 := (t * t)%Qc in
  (dbl 3 1 * t2 - dbl 2 1 * t)%Qc.

Definition Hermite {ST : Type} {S : Sample ST} (m0 y0 y1 m1 : ST) (t : double) : ST :=
  s_add (s_add (s_add (s_scale m0 (h3 t)) (s_scale y0 (h1 t))) (s_scale y1 (h2 t)))
        (s_scale m1 (h4 t)).

End Derivatives.

(** The arithmetic of [int], of 32 bits: the remainder is undefined for a
    null divisor and when the quotient is not an [int]; the opposite and the
    sum are undefined when they are not an [int]. *)
Definition INT_MIN : Z := (- 2 ^ 31)%Z.
Definition INT_MAX : Z := (2 ^ 31 - 1)%Z.

Definition is_int (z : Z) : bool := (INT_MIN <=? z)%Z && (z <=? INT_MAX)%Z.

Definition int_rem (i j : Z) : result Z :=
  if (j =? 0)%Z || ((i =? INT_MIN)%Z && (j =? -1)%Z) then Abort else Ok (Z.rem i j).

Definition int_neg (j : Z) : result Z :=
  if is_int (- j) then Ok (- j)%Z else Abort.

Definition int_add (i j : Z) : result Z :=
  if is_int (i + j) then Ok (i + j)%Z else Abort.

(** [Function::Imod], on [int], with what C++ leaves undefined. *)
Definition Function_Imod (i j : Z) : result Z :=
  r <- int_rem i j;;
  if (r <? 0)%Z then
    r <- int_rem i j;;
    a <- (if (j <? 0)%Z then int_neg j else Ok j);;
    int_add r a
  else int_rem i j.

(** [Spline::GetKnotCount] *)
Definition GetKnotCount {ST : Type} (s : Spline ST) : Z := mN s.

(** [LocalSpline<T>::Y] for the interpolation function [T]: the value and
    the new cached index. *)
Definition LocalSpline_Y {ST : Type} (T : ST -> ST -> double -> ST)
    (s : Spline ST) (mLastIndex : Z) (x : double) : result (ST * Z) :=
  i <- GetIndex s mLastIndex x;;
  t <- GetSubRange s i x;;
  y0 <- GetY s i;;
  y1 <- GetY s (i + 1);;
  Ok (T y0 y1 t, i).

(** [Hermite::GetM] *)
Definition GetM {ST : Type} (h : Hermite ST) (index : Z) : result ST :=
  let index := Imod index (mN (hermite_base h)) in
  ensure (0 <=? index)%Z;;
  ensure (index <? mN (hermite_base h))%Z;;
  array_read (mMs h) index.

(** [Hermite::Y]: the value and the new cached index. *)
Definition Hermite_Y {ST : Type} {S : Sample ST} (h : Hermite ST) (mLastIndex : Z)
    (x : double) : result (ST * Z) :=
  i <- GetIndex (hermite_base h) mLastIndex x;;
  t <- GetSubRange (hermite_base h) i x;;
  y1 <- GetY (hermite_base h) i;;
  y2 <- GetY (hermite_base h) (i + 1);;
  m1 <- GetM h i;;
  m2 <- GetM h (i + 1);;
  Ok (Function_Hermite m1 y1 y2 m2 t, i).

(** The knots of a spline increase strictly. *)
Definition knots_ascend (xs : list double) : Prop :=
  forall (i j : nat) (p q : double),
    (i < j)%nat -> nth_error xs i = Some p -> nth_error xs j = Some q -> (p < q)%Qc.

(** A spline as its constructor leaves it: at least two knots, as many
    knots as values and as [mN] says, in ascending order. *)
Definition spline_ok {ST : Type} (s : Spline ST) : Prop :=
  (1 < mN s)%Z /\ mN s = Z.of_nat (length (mXs s)) /\
  length (mYs s) = length (mXs s) /\ knots_ascend (mXs s).

(** The stable sort of a list that ends in [v], from the stable sort [l] of
    the elements before [v]: [v] goes after the elements that are not
    greater. *)
Fixpoint sort_snoc (comp : vec2 -> vec2 -> bool) (v : vec2) (l : list vec2) : list vec2 :=
  match l with
  | [] => [v]
  | w :: l' => if comp v w then v :: l else w :: sort_snoc comp v l'
  end.

(** No two flags in a row are equal. *)
Definition alternate (zs : list double) : Prop :=
  forall (i : nat) (f g : double),
    nth_error zs i = Some f -> nth_error zs (S i) = Some g -> f <> g.

(** [up ? 1.0 : 0.0] *)
Definition flag (up : bool) : double := if up then dbl 1 1 else dbl 0 1.

(** The sum of the sample counts of the threads of an [Art]. *)
Definition total_samples (art : Art) : nat :=
  list_sum (map sample_count (mThreads art)).

(** Where lines 409-454 put the sample of a stroke: on the midpoint of a
    [Cross] stroke; a quarter of the normal away from the midpoint of a
    [Glance] stroke, on either side; a quarter of the stroke away from the
    midpoint of a [Bounce] stroke, towards either end. *)
Definition sample_at (it : Stroke) (p : vec2) : Prop :=
  let m := Stroke_GetMid it in
  let along := vec2_sub (b it) (a it) in
  match stype it with
  | Cross => p = m
  | Glance =>
      exists front : bool,
        p = vec2_add m (vec2_scale (Vec2 (- y along)%Qc (x along))
                                   (if front then dbl 1 4 else dbl (-1) 4))
  | Bounce =>
      exists left : bool,
        p = vec2_add m (vec2_scale (vec2_sub (a it) (b it))
                                   (if left then dbl 1 4 else dbl (-1) 4))
  end.

(** Polynomials in one variable, as the lists of their coefficients from
    the constant one on, with their values and their formal derivatives. *)
Definition poly : Type := list double.

Fixpoint eval (p : poly) (t : double) : double :=
  match p with
  | [] => 0%Qc
  | c :: p' => (c + t * eval p' t)%Qc
  end.

Fixpoint scale_from (k : nat) (p : poly) : poly :=
  match p with
  | [] => []
  | c :: p' => (dbl_of_nat k * c)%Qc :: scale_from (S k) p'
  end.

Definition derivative (p : poly) : poly :=
  match p with
  | [] => []
  | _ :: p' => scale_from 1 p'
  end.

(** The knot of rank [k] of a spline, and the interval of a spline in
    which [GetIndex] is to find [x]: [x] is between the two knots of the
    interval of rank [b], or before the first interval, or after the last. *)
Definition knot_at {ST : Type} (s : Spline ST) (k : nat) : double :=
  nth k (mXs s) 0%Qc.

Definition bracket {ST : Type} (s : Spline ST) (b : nat) (x : double) : Prop :=
  (b + 2 <= length (mXs s))%nat /\
  (b = 0%nat \/ (knot_at s b <= x)%Qc) /\
  ((b + 2)%nat = length (mXs s) \/ (x < knot_at s (b + 1))%Qc).

(** ** saver.cpp: RemoveStrokes *)

(** A [std::map] takes two keys for the same key when neither is less than
    the other. *)
Definition vec2_equiv (l r : vec2) : bool :=
  negb (vec2_ltb l r) && negb (vec2_ltb r l).

(** [std::map<CKnot::vec2, size_t>], by its entries. *)
Definition CountMap : Type := list (vec2 * nat).

(** [sCount.count(k)] *)
Fixpoint map_count (m : CountMap) (k : vec2) : bool :=
  match m with
  | [] => false
  | (k', _) :: m' => vec2_equiv k' k || map_count m' k
  end.

(** The value of [sCount[k]]; a key that is not in the map comes in with the
    value 0. *)
Fixpoint map_at (m : CountMap) (k : vec2) : nat :=
  match m with
  | [] => 0%nat
  | (k', n) :: m' => if vec2_equiv k' k then n else map_at m' k
  end.

(** [sCount[k] = n] *)
Fixpoint map_assign (m : CountMap) (k : vec2) (n : nat) : CountMap :=
  match m with
  | [] => [(k, n)]
  | (k', n') :: m' =>
      if vec2_equiv k' k then (k', n) :: m' else (k', n') :: map_assign m' k n
  end.

(** Lines 195-198, and 200-203. *)
Definition count_end (sCount : CountMap) (p : vec2) : CountMap :=
  if map_count sCount p then map_assign sCount p (S (map_at sCount p))
  else map_assign sCount p 1%nat.

(** Lines 192-204. *)
Definition count_ends (sl : StrokeList) : CountMap :=
  fold_left (fun sCount it => count_end (count_end sCount (a it)) (b it)) sl [].

(** Lines 181-187; [rand k] is what the call of [rand()] of rank [k] returns,
    and [k] the rank of the next call. *)
Fixpoint delete_some (delThres : Z) (rand : nat -> Z) (k : nat) (sl : StrokeList)
    : StrokeList :=
  match sl with
  | [] => []
  | it :: sl' =>
      if (rand k <? delThres)%Z then delete_some delThres rand (S k) sl'
      else it :: delete_some delThres rand (S k) sl'
  end.

(** Lines 205-214. *)
Fixpoint purge (sCount : CountMap) (sl : StrokeList) : StrokeList :=
  match sl with
  | [] => []
  | it :: sl' =>
      if (map_at sCount (a it) =? 1)%nat || (map_at sCount (b it) =? 1)%nat
      then purge sCount sl'
      else it :: purge sCount sl'
  end.

(** [RemoveStrokes] *)
Definition RemoveStrokes (RAND_MAX : Z) (rand : nat -> Z) (in_ : StrokeList) : StrokeList :=
  let sl := in_ in
  let delThres := (RAND_MAX ÷ (3 + Z.rem (rand 0%nat) 20))%Z in
  let sl := delete_some delThres rand 1 sl in
  let sCount := count_ends sl in
  purge sCount sl.

(** The list [l] is made of elements of [l'], in the order they have there. *)
Inductive subsequence {A : Type} : list A -> list A -> Prop :=
| subsequence_nil : subsequence [] []
| subsequence_skip (v : A) (l l' : list A) : subsequence l l' -> subsequence l (v :: l')
| subsequence_keep (v : A) (l l' : list A) :
    subsequence l l' -> subsequence (v :: l) (v :: l').

(** The knots of the spline go from 0 to 1, as those of the curves that
    [CreateThread] builds; and the splines on which [LoopInRange] does not
    change a parameter that is in the range already, whatever the rounding:
    those that do not loop, which do not call it, and those whose knots go
    from 0 to 1, where its divisions and products are by 1. *)
Definition unit_range {ST : Type} (s : Spline ST) : Prop :=
  knot_at s 0 = dbl 0 1 /\ knot_at s (length (mXs s) - 1) = dbl 1 1.

Definition wraps_exactly {ST : Type} (s : Spline ST) : Prop :=
  mLoop s = false \/ unit_range s.

(** * Properties *)

Unset Implicit Arguments.

(** ** Comparisons *)

Lemma dbl_eqb_eq (p q : double) : dbl_eqb p q = true <-> p = q.
Proof.
  unfold dbl_eqb. rewrite Qceq_alt.
  destruct (p ?= q)%Qc; split; intro H; congruence.
Qed.

Lemma dbl_eqb_refl (p : double) : dbl_eqb p p = true.
Proof. now apply dbl_eqb_eq. Qed.

Lemma dbl_ltb_lt (p q : double) : dbl_ltb p q = true <-> (p < q)%Qc.
Proof.
  unfold dbl_ltb. rewrite Qclt_alt.
  destruct (p ?= q)%Qc; split; intro H; congruence.
Qed.

Lemma dbl_leb_le (p q : double) : dbl_leb p q = true <-> (p <= q)%Qc.
Proof.
  unfold dbl_leb. rewrite Qcle_alt.
  destruct (p ?= q)%Qc; split; intro H; congruence.
Qed.

Lemma dbl_ltb_irrefl (p : double) : dbl_ltb p p = false.
Proof.
  destruct (dbl_ltb p p) eqn:E; [|reflexivity].
  apply dbl_ltb_lt in E. now apply Qclt_not_eq in E.
Qed.

Lemma dbl_ltb_trans (p q r : double) :
  dbl_ltb p q = true -> dbl_ltb q r = true -> dbl_ltb p r = true.
Proof. rewrite !dbl_ltb_lt. apply Qclt_trans. Qed.

Lemma dbl_total (p q : double) :
  dbl_ltb p q = false -> dbl_ltb q p = false -> p = q.
Proof.
  intros H1 H2. destruct (Qc_dec p q) as [[H | H] | H]; [| |exact H].
  - apply dbl_ltb_lt in H. congruence.
  - apply dbl_ltb_lt in H. congruence.
Qed.

Lemma vec2_eqb_eq (v w : vec2) : vec2_eqb v w = true <-> v = w.
Proof.
  unfold vec2_eqb. rewrite andb_true_iff, !dbl_eqb_eq.
  destruct v, w; simpl. split.
  - intros [-> ->]. reflexivity.
  - intro H. injection H. auto.
Qed.

Lemma vec2_eqb_refl (v : vec2) : vec2_eqb v v = true.
Proof. now apply vec2_eqb_eq. Qed.

Lemma vec2_eqb_neq (v w : vec2) : vec2_eqb v w = false <-> v <> w.
Proof.
  rewrite <- vec2_eqb_eq. destruct (vec2_eqb v w); split; congruence.
Qed.

Lemma vec2_eq_dec (v w : vec2) : {v = w} + {v <> w}.
Proof.
  destruct (vec2_eqb v w) eqn:E.
  - left. now apply vec2_eqb_eq.
  - right. now apply vec2_eqb_neq.
Defined.

Lemma vec2_ltb_irrefl (v : vec2) : vec2_ltb v v = false.
Proof. unfold vec2_ltb. rewrite dbl_eqb_refl. apply dbl_ltb_irrefl. Qed.

Lemma vec2_ltb_trans (u v w : vec2) :
  vec2_ltb u v = true -> vec2_ltb v w = true -> vec2_ltb u w = true.
Proof.
  unfold vec2_ltb.
  destruct (dbl_eqb (x u) (x v)) eqn:E1; destruct (dbl_eqb (x v) (x w)) eqn:E2;
    try apply dbl_eqb_eq in E1; try apply dbl_eqb_eq in E2; intros H1 H2.
  - rewrite E1, E2, dbl_eqb_refl. eapply dbl_ltb_trans; eauto.
  - rewrite E1, E2. exact H2.
  - rewrite <- E2, E1. exact H1.
  - destruct (dbl_eqb (x u) (x w)) eqn:E3.
    + apply dbl_eqb_eq in E3. rewrite E3 in H1.
      pose proof (dbl_ltb_trans _ _ _ H1 H2) as H. now rewrite dbl_ltb_irrefl in H.
    + eapply dbl_ltb_trans; eauto.
Qed.

Lemma vec2_total (v w : vec2) :
  vec2_ltb v w = false -> vec2_ltb w v = false -> v = w.
Proof.
  unfold vec2_ltb. destruct v as [vx vy], w as [wx wy]; simpl.
  destruct (dbl_eqb vx wx) eqn:E.
  - apply dbl_eqb_eq in E. subst wx. rewrite dbl_eqb_refl.
    intros H1 H2. now rewrite (dbl_total _ _ H1 H2).
  - destruct (dbl_eqb wx vx) eqn:E'.
    + apply dbl_eqb_eq in E'. subst wx. now rewrite dbl_eqb_refl in E.
    + intros H1 H2. rewrite (dbl_total _ _ H1 H2) in E. now rewrite dbl_eqb_refl in E.
Qed.

Lemma Dir_eqb_eq (c d : Dir) : Dir_eqb c d = true <-> c = d.
Proof. destruct c, d; split; intro H; try reflexivity; discriminate. Qed.

Lemma Node_lt_irrefl (n : Node) : Node_lt n n = false.
Proof. unfold Node_lt. rewrite vec2_eqb_refl. now destruct (dir n). Qed.

Lemma Node_lt_trans (l m r : Node) :
  Node_lt l m = true -> Node_lt m r = true -> Node_lt l r = true.
Proof.
  unfold Node_lt.
  destruct (vec2_eqb (mid l) (mid m)) eqn:E1; destruct (vec2_eqb (mid m) (mid r)) eqn:E2;
    try apply vec2_eqb_eq in E1; try apply vec2_eqb_eq in E2; intros H1 H2.
  - rewrite E1, E2, vec2_eqb_refl. unfold Dir_ltb in *. lia.
  - rewrite E1, E2. exact H2.
  - rewrite <- E2, E1. exact H1.
  - destruct (vec2_eqb (mid l) (mid r)) eqn:E3.
    + apply vec2_eqb_eq in E3. rewrite E3 in H1.
      pose proof (vec2_ltb_trans _ _ _ H1 H2) as H. now rewrite vec2_ltb_irrefl in H.
    + eapply vec2_ltb_trans; eauto.
Qed.

Lemma Node_equiv_port (l r : Node) : Node_equiv l r = true <-> port l = port r.
Proof.
  unfold Node_equiv, Node_lt, port. split.
  - rewrite andb_true_iff, !negb_true_iff.
    destruct (vec2_eqb (mid l) (mid r)) eqn:E.
    + apply vec2_eqb_eq in E. rewrite E, vec2_eqb_refl. intros [H1 H2].
      f_equal. revert H1 H2. unfold Dir_ltb. now destruct (dir l), (dir r).
    + destruct (vec2_eqb (mid r) (mid l)) eqn:E'.
      * apply vec2_eqb_eq in E'. rewrite E' in E. now rewrite vec2_eqb_refl in E.
      * intros [H1 H2]. rewrite (vec2_total _ _ H1 H2) in E.
        now rewrite vec2_eqb_refl in E.
  - intro H. injection H as Hm Hd. rewrite Hm, Hd, vec2_eqb_refl.
    now destruct (dir r).
Qed.

Lemma Node_equiv_false (l r : Node) : Node_equiv l r = false <-> port l <> port r.
Proof.
  rewrite <- Node_equiv_port. destruct (Node_equiv l r); split; congruence.
Qed.

Lemma Node_lt_port (l r : Node) : Node_lt l r = true -> port l <> port r.
Proof.
  intros H E. apply Node_equiv_port in E. unfold Node_equiv in E.
  rewrite H in E. discriminate.
Qed.

Lemma Node_lt_by_port (l l' r r' : Node) :
  port l = port l' -> port r = port r' -> Node_lt l r = Node_lt l' r'.
Proof.
  unfold port, Node_lt. intros H1 H2. injection H1 as -> ->. injection H2 as -> ->.
  reflexivity.
Qed.

Lemma Node_equiv_by_port (l l' r r' : Node) :
  port l = port l' -> port r = port r' -> Node_equiv l r = Node_equiv l' r'.
Proof.
  intros H1 H2. unfold Node_equiv.
  now rewrite (Node_lt_by_port _ _ _ _ H1 H2), (Node_lt_by_port _ _ _ _ H2 H1).
Qed.

Lemma port_set_dir (n : Node) (d : Dir) : port (set_dir n d) = (mid n, d).
Proof. reflexivity. Qed.

(** ** Sets of nodes *)

Lemma set_find_some (n m : Node) (s : NodeSet) :
  set_find n s = Some m -> In m s /\ port m = port n.
Proof.
  unfold set_find. intro H. apply find_some in H. destruct H as [H1 H2].
  split; [exact H1|]. symmetry. now apply Node_equiv_port.
Qed.

Lemma set_find_none (n : Node) (s : NodeSet) :
  set_find n s = None -> forall m, In m s -> port m <> port n.
Proof.
  unfold set_find. intros H m Hm E.
  pose proof (find_none _ _ H m Hm) as H'.
  apply Node_equiv_false in H'. congruence.
Qed.

Lemma set_count_spec (n : Node) (s : NodeSet) :
  set_count n s = true <-> exists m, In m s /\ port m = port n.
Proof.
  unfold set_count. destruct (set_find n s) as [m|] eqn:E; split; intro H.
  - exists m. now apply set_find_some.
  - reflexivity.
  - discriminate.
  - destruct H as [m [Hm Hp]]. exfalso. exact (set_find_none n s E m Hm Hp).
Qed.

Lemma set_count_false (n : Node) (s : NodeSet) :
  set_count n s = false <-> forall m, In m s -> port m <> port n.
Proof.
  split.
  - intros H m Hm Hp.
    assert (set_count n s = true) by (apply set_count_spec; eauto). congruence.
  - intro H. destruct (set_count n s) eqn:E; [|reflexivity].
    apply set_count_spec in E. destruct E as [m [Hm Hp]]. now destruct (H m Hm).
Qed.

Lemma set_count_In (n : Node) (s : NodeSet) : In n s -> set_count n s = true.
Proof. intro H. apply set_count_spec. eauto. Qed.

Lemma set_count_by_port (n n' : Node) (s : NodeSet) :
  port n = port n' -> set_count n s = set_count n' s.
Proof.
  intro H. destruct (set_count n' s) eqn:E.
  - apply set_count_spec in E. apply set_count_spec.
    destruct E as [m [Hm Hp]]. exists m. split; congruence.
  - rewrite set_count_false in E. apply set_count_false.
    intros m Hm Hp. apply (E m Hm). congruence.
Qed.

Lemma In_set_erase (n m : Node) (s : NodeSet) :
  In m (set_erase n s) <-> In m s /\ port m <> port n.
Proof.
  unfold set_erase. rewrite filter_In, negb_true_iff, Node_equiv_false.
  split; intros [H1 H2]; split; auto.
Qed.

Lemma set_count_erase (k n : Node) (s : NodeSet) :
  set_count k (set_erase n s) = set_count k s && negb (Node_equiv n k).
Proof.
  destruct (set_count k (set_erase n s)) eqn:E; symmetry.
  - apply set_count_spec in E. destruct E as [m [Hm Hp]].
    apply In_set_erase in Hm. destruct Hm as [Hm Hn].
    apply andb_true_iff. split.
    + apply set_count_spec. eauto.
    + apply negb_true_iff, Node_equiv_false. congruence.
  - apply andb_false_iff.
    destruct (set_count k s) eqn:Ek; [right|now left].
    apply negb_false_iff, Node_equiv_port.
    apply set_count_spec in Ek. destruct Ek as [m [Hm Hp]].
    rewrite set_count_false in E.
    destruct (Node_equiv n k) eqn:En; [now apply Node_equiv_port|].
    apply Node_equiv_false in En. exfalso. apply (E m); [|exact Hp].
    apply In_set_erase. split; [exact Hm|congruence].
Qed.

Lemma In_set_insert (n m : Node) (s : NodeSet) :
  In m (set_insert n s) -> m = n \/ In m s.
Proof.
  induction s as [|h t IH]; simpl.
  - intros [H | []]. now left.
  - destruct (Node_lt n h).
    + intros [H | H]; [now left | now right].
    + destruct (Node_lt h n).
      * intros [H | H]; [right; now left|].
        destruct (IH H) as [H' | H']; [now left | right; now right].
      * intro H. now right.
Qed.

Lemma set_insert_keeps (n m : Node) (s : NodeSet) :
  In m s -> In m (set_insert n s).
Proof.
  induction s as [|h t IH]; simpl; [intros []|].
  intros H. destruct (Node_lt n h); [now right|].
  destruct (Node_lt h n); [|exact H].
  destruct H as [H | H]; [now left | right; auto].
Qed.

Lemma set_count_insert_same (n : Node) (s : NodeSet) :
  set_count n (set_insert n s) = true.
Proof.
  apply set_count_spec. induction s as [|h t IH]; simpl.
  - exists n. split; [now left | reflexivity].
  - destruct (Node_lt n h) eqn:E1.
    + exists n. split; [now left | reflexivity].
    + destruct (Node_lt h n) eqn:E2.
      * destruct IH as [m [Hm Hp]]. exists m. split; [now right | exact Hp].
      * exists h. split; [now left|]. symmetry. apply Node_equiv_port.
        unfold Node_equiv. now rewrite E1, E2.
Qed.

Lemma set_count_insert (k n : Node) (s : NodeSet) :
  set_count k (set_insert n s) = set_count k s || Node_equiv n k.
Proof.
  destruct (Node_equiv n k) eqn:E.
  - rewrite orb_true_r. apply Node_equiv_port in E.
    rewrite <- (set_count_by_port n k _ E). apply set_count_insert_same.
  - rewrite orb_false_r. apply Node_equiv_false in E.
    destruct (set_count k s) eqn:Ek.
    + apply set_count_spec in Ek. destruct Ek as [m [Hm Hp]].
      apply set_count_spec. exists m. split; [now apply set_insert_keeps | exact Hp].
    + rewrite set_count_false in Ek. apply set_count_false. intros m Hm Hp.
      destruct (In_set_insert _ _ _ Hm) as [-> | H]; [congruence|].
      exact (Ek m H Hp).
Qed.

Lemma set_ok_nil : set_ok [].
Proof. constructor. Qed.

Lemma set_ok_erase (n : Node) (s : NodeSet) : set_ok s -> set_ok (set_erase n s).
Proof.
  unfold set_ok, set_erase. induction 1 as [|h t Ht IH Hh]; simpl.
  - constructor.
  - destruct (negb (Node_equiv n h)); [|exact IH].
    constructor; [exact IH|].
    rewrite Forall_forall in *. intros m Hm. apply filter_In in Hm. now apply Hh.
Qed.

Lemma set_ok_insert (n : Node) (s : NodeSet) : set_ok s -> set_ok (set_insert n s).
Proof.
  unfold set_ok. induction 1 as [|h t Ht IH Hh]; simpl.
  - constructor; constructor.
  - destruct (Node_lt n h) eqn:E1.
    + constructor; [now constructor|].
      constructor; [exact E1|].
      rewrite Forall_forall in *. intros m Hm. eapply Node_lt_trans; eauto.
    + destruct (Node_lt h n) eqn:E2; [|now constructor].
      constructor; [exact IH|].
      rewrite Forall_forall in *. intros m Hm.
      destruct (In_set_insert _ _ _ Hm) as [-> | H]; auto.
Qed.

Lemma set_ok_unique (s : NodeSet) (m m' : Node) :
  set_ok s -> In m s -> In m' s -> port m = port m' -> m = m'.
Proof.
  unfold set_ok. induction 1 as [|h t Ht IH Hh]; simpl; [intros []|].
  rewrite Forall_forall in Hh.
  intros [H1 | H1] [H2 | H2] Hp; subst; auto.
  - exfalso. exact (Node_lt_port _ _ (Hh _ H2) Hp).
  - exfalso. apply (Node_lt_port _ _ (Hh _ H1)). now symmetry.
Qed.

Lemma set_ok_NoDup (s : NodeSet) : set_ok s -> NoDup (map port s).
Proof.
  unfold set_ok. induction 1 as [|h t Ht IH Hh]; simpl; constructor; [|exact IH].
  rewrite Forall_forall in Hh. intro H. apply in_map_iff in H.
  destruct H as [m [Hp Hm]]. apply (Node_lt_port _ _ (Hh _ Hm)). now symmetry.
Qed.

Lemma set_ok_insert_new (n m : Node) (s : NodeSet) :
  set_ok s -> In m (set_insert n s) -> In m s \/ (m = n /\ set_count n s = false).
Proof.
  unfold set_ok. induction 1 as [|h t Ht IH Hh]; simpl.
  - intros [<- | []]. right. split; reflexivity.
  - rewrite Forall_forall in Hh. destruct (Node_lt n h) eqn:E1.
    + intros [<- | H]; [|now left]. right. split; [reflexivity|].
      apply set_count_false. intros k [<- | Hk].
      * intro Hp. apply (Node_lt_port _ _ E1). now symmetry.
      * intro Hp. apply (Node_lt_port n k); [|now symmetry].
        eapply Node_lt_trans; eauto.
    + destruct (Node_lt h n) eqn:E2; [|intro H; now left].
      intros [<- | H]; [left; now left|].
      destruct (IH H) as [H' | [-> Hc]]; [left; now right|].
      right. split; [reflexivity|].
      rewrite set_count_false in *. intros k [<- | Hk]; [|now apply Hc].
      now apply Node_lt_port.
Qed.

Lemma set_erase_absent (n : Node) (s : NodeSet) :
  set_count n s = false -> set_erase n s = s.
Proof.
  rewrite set_count_false. unfold set_erase. induction s as [|h t IH]; simpl; intro H.
  - reflexivity.
  - assert (E : Node_equiv n h = false).
    { apply Node_equiv_false. intro Hp. apply (H h); [now left | now symmetry]. }
    rewrite E. simpl. f_equal. apply IH. intros m Hm. apply H. now right.
Qed.

Lemma set_erase_perm (n : Node) (s : NodeSet) :
  set_ok s -> set_count n s = true ->
  Permutation (map port s) (port n :: map port (set_erase n s)).
Proof.
  unfold set_ok. induction 1 as [|h t Ht IH Hh]; intro Hc.
  - discriminate.
  - change (set_erase n (h :: t))
      with (if negb (Node_equiv n h) then h :: set_erase n t else set_erase n t).
    destruct (Node_equiv n h) eqn:E; simpl.
    + apply Node_equiv_port in E. rewrite E.
      rewrite set_erase_absent; [reflexivity|].
      apply set_count_false. intros m Hm Hp.
      rewrite Forall_forall in Hh. apply (Node_lt_port _ _ (Hh _ Hm)). congruence.
    + assert (Hc' : set_count n t = true).
      { apply set_count_spec in Hc. destruct Hc as [m [[<- | Hm] Hp]].
        - apply Node_equiv_false in E. congruence.
        - apply set_count_spec. eauto. }
      rewrite (IH Hc') at 1. apply perm_swap.
Qed.

Lemma set_erase_length (n : Node) (s : NodeSet) :
  set_ok s -> set_count n s = true -> length s = S (length (set_erase n s)).
Proof.
  intros Hs Hc. pose proof (Permutation_length (set_erase_perm n s Hs Hc)) as H.
  simpl in H. now rewrite !length_map in H.
Qed.

Lemma set_insert_length (n : Node) (s : NodeSet) :
  (length (set_insert n s) <= S (length s))%nat.
Proof.
  induction s as [|h t IH]; simpl; [lia|].
  destruct (Node_lt n h); simpl; [lia|]. destruct (Node_lt h n); simpl; lia.
Qed.

(** ** The direction algebra *)

(** C3: each of [BounceDir], [CrossDir] and [GlanceDir] is an involution on
    the four directions, and none of them leaves a direction unchanged. *)
Theorem direction_algebra_involution (d : Dir) :
  BounceDir (BounceDir d) = d /\ CrossDir (CrossDir d) = d /\
  GlanceDir (GlanceDir d) = d /\
  BounceDir d <> d /\ CrossDir d <> d /\ GlanceDir d <> d.
Proof. destruct d; repeat split; discriminate. Qed.

Lemma Dir_involutions (d : Dir) :
  BounceDir (BounceDir d) = d /\ CrossDir (CrossDir d) = d /\ GlanceDir (GlanceDir d) = d.
Proof. now destruct d. Qed.

Lemma Dir_moves (d : Dir) : BounceDir d <> d /\ CrossDir d <> d /\ GlanceDir d <> d.
Proof. destruct d; repeat split; discriminate. Qed.

Lemma Glance_then_Cross (d : Dir) : CrossDir (GlanceDir d) = BounceDir d.
Proof. now destruct d. Qed.

Lemma exit_dir_changes (n : Node) : exit_dir n <> dir n.
Proof.
  unfold exit_dir. destruct (Dir_moves (dir n)) as (B & C & G).
  now destruct (type n).
Qed.

Lemma exit_dir_swap (m c : Node) :
  type m = type c -> exit_dir m = dir c -> dir m = exit_dir c.
Proof.
  unfold exit_dir. intros -> H. rewrite <- H.
  destruct (Dir_involutions (dir m)) as (B & C & G).
  destruct (type c); congruence.
Qed.

Lemma exit_dir_inj (m c : Node) :
  type m = type c -> exit_dir m = exit_dir c -> dir m = dir c.
Proof.
  unfold exit_dir. intros -> H.
  destruct (Dir_involutions (dir m)) as (B & C & G).
  destruct (Dir_involutions (dir c)) as (B' & C' & G').
  destruct (type c); congruence.
Qed.

Lemma exit_dir_set_dir (n : Node) (d : Dir) :
  exit_dir (set_dir n d) =
  match type n with Bounce => BounceDir d | Cross => CrossDir d | Glance => GlanceDir d end.
Proof. reflexivity. Qed.

(** ** One turn of the inner loop *)

Lemma known_count (s : NodeSet) (n : Node) : known s n -> set_count n s = true.
Proof. intros [m [Hm [Hp _]]]. apply set_count_spec. eauto. Qed.

Lemma known_In (s : NodeSet) (n : Node) : In n s -> known s n.
Proof. intro H. exists n. auto. Qed.

Lemma known_type (s : NodeSet) (n m : Node) :
  coherent s -> known s n -> In m s -> mid m = mid n -> type m = type n.
Proof.
  intros Hc [k [Hk [Hp Ht]]] Hm E. rewrite <- Ht. apply Hc; auto.
  injection Hp as Hp _. congruence.
Qed.

Lemma count_known (s : NodeSet) (n c : Node) :
  coherent s -> known s c -> mid n = mid c -> type n = type c ->
  set_count n s = true -> known s n.
Proof.
  intros Hc Hk Em Et H. apply set_count_spec in H. destruct H as [m [Hm Hp]].
  exists m. repeat split; auto. rewrite Et. apply (known_type s c m Hc Hk Hm).
  injection Hp as Hp _. congruence.
Qed.

Section TracerFacts.
Context {libm : Libm} {mem : Indeterminate}.

Lemma mark_above_ok (un uu : NodeSet) (cur : Node) (up : bool) :
  sets_inv un uu -> known un cur ->
  exists uu1, mark_above un uu cur up = Ok uu1 /\ set_ok uu1 /\
              forall u, In u uu1 -> known un u.
Proof.
  intros (Hun & Huu & Hc & Hp & Hu) Hk. unfold mark_above.
  destruct (negb up && StrokeType_eqb (type cur) Cross) eqn:E; [|eauto].
  apply andb_true_iff in E. destruct E as [_ E].
  assert (Ht : type cur = Cross) by (now destruct (type cur)).
  destruct (set_count (set_dir cur (GlanceDir (dir cur))) un) eqn:E1; [|eauto].
  assert (K1 : known un (set_dir cur (GlanceDir (dir cur)))).
  { apply (count_known un _ cur); auto. }
  assert (E2 : set_count (set_dir (set_dir cur (GlanceDir (dir cur)))
                 (CrossDir (dir (set_dir cur (GlanceDir (dir cur)))))) un = true).
  { destruct K1 as [m [Hm [Hpm Htm]]]. pose proof (Hp m Hm) as H.
    erewrite set_count_by_port; [exact H|].
    rewrite !port_set_dir. simpl. injection Hpm as Hmid Hdir.
    unfold exit_dir. simpl in Htm. rewrite Htm, Ht, Hmid, Hdir. reflexivity. }
  rewrite E2. simpl. eexists. split; [reflexivity|]. split.
  - now apply set_ok_insert, set_ok_insert.
  - intros u H. destruct (In_set_insert _ _ _ H) as [-> | H1].
    + apply (count_known un _ cur); auto.
    + destruct (In_set_insert _ _ _ H1) as [-> | H2]; auto.
Qed.

Lemma erase_pair_inv (un uu : NodeSet) (c : Node) :
  set_ok un -> set_ok uu -> coherent un -> paired un ->
  (forall u, In u uu -> known un u) -> known un c ->
  let c' := set_dir c (exit_dir c) in
  set_count c un = true /\
  set_count c' (set_erase c un) = true /\
  sets_inv (set_erase c' (set_erase c un)) (set_erase c' (set_erase c uu)) /\
  Permutation (map port un)
    (port c :: port c' :: map port (set_erase c' (set_erase c un))).
Proof.
  intros Hun Huu Hc Hp Hu Hk c'.
  assert (C1 : set_count c un = true) by now apply known_count.
  assert (Hne : port c <> port c').
  { unfold c'. rewrite port_set_dir. unfold port. intro H. injection H as H.
    symmetry in H. now apply exit_dir_changes in H. }
  assert (C2 : set_count c' (set_erase c un) = true).
  { rewrite set_count_erase. apply andb_true_iff. split.
    - destruct Hk as [m [Hm [Hpm Htm]]]. pose proof (Hp m Hm) as H.
      erewrite set_count_by_port; [exact H|]. unfold c'.
      rewrite !port_set_dir. injection Hpm as Hmid Hdir.
      unfold exit_dir. now rewrite Htm, Hmid, Hdir.
    - now apply negb_true_iff, Node_equiv_false. }
  split; [exact C1|]. split; [exact C2|]. split.
  - split; [now apply set_ok_erase, set_ok_erase|].
    split; [now apply set_ok_erase, set_ok_erase|].
    split.
    { intros n m Hn Hm. apply In_set_erase in Hn, Hm.
      destruct Hn as [Hn _], Hm as [Hm _]. apply In_set_erase in Hn, Hm.
      apply Hc; tauto. }
    split.
    { intros m Hm. apply In_set_erase in Hm. destruct Hm as [Hm N2].
      apply In_set_erase in Hm. destruct Hm as [Hm N1].
      rewrite !set_count_erase, (Hp m Hm). simpl.
      assert (G : forall k, (k = c \/ k = c') ->
                  port k <> port (set_dir m (exit_dir m))).
      { intros k Hk' E. rewrite port_set_dir in E.
        assert (Em : mid m = mid c).
        { destruct Hk' as [-> | ->]; unfold port in E; simpl in E; congruence. }
        pose proof (known_type un c m Hc Hk Hm Em) as Et.
        destruct Hk' as [-> | ->].
        - apply N2. unfold c'. rewrite port_set_dir. unfold port.
          f_equal; [exact Em|]. apply exit_dir_swap; [exact Et|].
          unfold port in E. congruence.
        - apply N1. unfold port. f_equal; [exact Em|].
          apply exit_dir_inj; [exact Et|].
          unfold c' in E. rewrite port_set_dir in E. congruence. }
      apply andb_true_iff. split; apply negb_true_iff, Node_equiv_false; apply G; auto. }
    intros u H. apply In_set_erase in H. destruct H as [H N2].
    apply In_set_erase in H. destruct H as [H N1].
    destruct (Hu u H) as [m [Hm [Hpm Htm]]]. exists m. repeat split; auto.
    apply In_set_erase. split; [|congruence]. apply In_set_erase. split; [auto|congruence].
  - rewrite (set_erase_perm c un Hun C1) at 1. apply perm_skip.
    apply set_erase_perm; [now apply set_ok_erase | exact C2].
Qed.

Lemma extends_one (s s' : Trace) (p tg : vec2) (z : double) (e e' : Port) :
  t_thread s' = t_thread s ++ [p] -> t_angles s' = t_angles s ++ [tg] ->
  t_zs s' = t_zs s ++ [z] -> t_visits s' = (t_visits s ++ [e]) ++ [e'] ->
  Permutation (map port (t_unused s)) (e :: e' :: map port (t_unused s')) ->
  extends 1 s s'.
Proof.
  intros H1 H2 H3 H4 H5. exists [p], [tg], [z], [e; e'].
  rewrite <- app_assoc in H4. repeat split; auto.
Qed.

Lemma inner_body_ok (js : JunctionMap) (s : Trace) :
  trace_inv s ->
  exists c s', inner_body js s = Ok (c, s') /\
    sets_inv (t_unused s') (t_unusedUp s') /\
    (c = true -> known (t_unused s') (t_cur s')) /\
    extends 1 s s'.
Proof.
  intros [Hinv Hk]. unfold inner_body.
  destruct (mark_above_ok _ _ _ (t_up s) Hinv Hk) as [uu1 [-> [Huu1 Hu1]]].
  destruct Hinv as (Hun & _ & Hc & Hp & _).
  destruct (erase_pair_inv _ uu1 _ Hun Huu1 Hc Hp Hu1 Hk) as (C1 & C2 & Hinv' & Hperm).
  cbn [bind assert]. rewrite C1. cbn [bind assert]. rewrite C2. cbn [bind assert].
  set (c' := set_dir (t_cur s) (exit_dir (t_cur s))) in *.
  set (un2 := set_erase c' (set_erase (t_cur s) (t_unused s))) in *.
  set (uu2 := set_erase c' (set_erase (t_cur s) uu1)) in *.
  destruct (sample js c' (t_up s)) as [[up' p] tg].
  set (j := exit_junction c' (entry_junction (t_cur s))).
  set (nx := FindNext (deref js j) (mid c') (is_clockwise (dir c'))).
  set (d := if is_clockwise (dir c') then fRight else bRight).
  set (n := Node_ctor nx d (uninit_left s) (uninit_right s)).
  assert (Hcoh : coherent un2) by (destruct Hinv' as (_ & _ & H & _); exact H).
  destruct (set_find n un2) as [it|] eqn:F1.
  - apply set_find_some in F1. destruct F1 as [Hit _].
    destruct (negb (ptr_eqb (right it) j)).
    + destruct (set_count (set_dir it (CrossDir (dir it))) un2) eqn:F2; simpl negb; cbv iota.
      * eexists _, _. split; [reflexivity|]. simpl. split; [exact Hinv'|]. split.
        -- intros _. apply (count_known un2 _ it); auto. now apply known_In.
        -- eapply extends_one; simpl; eauto.
      * eexists _, _. split; [reflexivity|]. simpl. split; [exact Hinv'|]. split.
        -- discriminate.
        -- eapply extends_one; simpl; eauto.
    + eexists _, _. split; [reflexivity|]. simpl. split; [exact Hinv'|]. split.
      * intros _. now apply known_In.
      * eapply extends_one; simpl; eauto.
  - destruct (set_find (set_dir n (CrossDir d)) un2) as [it|] eqn:F2.
    + apply set_find_some in F2. destruct F2 as [Hit _].
      eexists _, _. split; [reflexivity|]. simpl. split; [exact Hinv'|]. split.
      * intros _. now apply known_In.
      * eapply extends_one; simpl; eauto.
    + eexists _, _. split; [reflexivity|]. simpl. split; [exact Hinv'|]. split.
      * discriminate.
      * eapply extends_one; simpl; eauto.
Qed.

Lemma extends_trans (k1 k2 : nat) (s1 s2 s3 : Trace) :
  extends k1 s1 s2 -> extends k2 s2 s3 -> extends (k1 + k2) s1 s3.
Proof.
  intros (p1 & a1 & z1 & v1 & T1 & A1 & Z1 & V1 & Lp1 & La1 & Lz1 & Lv1 & P1)
         (p2 & a2 & z2 & v2 & T2 & A2 & Z2 & V2 & Lp2 & La2 & Lz2 & Lv2 & P2).
  exists (p1 ++ p2), (a1 ++ a2), (z1 ++ z2), (v1 ++ v2).
  rewrite T2, A2, Z2, V2, T1, A1, Z1, V1, <- !app_assoc, !length_app.
  repeat split; try lia.
  rewrite P1, P2. now rewrite app_assoc.
Qed.

Lemma extends_length (k : nat) (s s' : Trace) :
  extends k s s' -> length (t_unused s) = (2 * k + length (t_unused s'))%nat.
Proof.
  intros (p & a & z & v & _ & _ & _ & _ & _ & _ & _ & Lv & P).
  apply Permutation_length in P. rewrite length_app, !length_map in P. lia.
Qed.

Lemma inner_loop_ok (js : JunctionMap) (fuel : nat) (s : Trace) :
  trace_inv s -> (length (t_unused s) < 2 * fuel)%nat ->
  exists s' k, inner_loop fuel js s = Ok s' /\
    sets_inv (t_unused s') (t_unusedUp s') /\ extends (S k) s s'.
Proof.
  revert s. induction fuel as [|fuel IH]; intros s Hinv Hf; [lia|].
  destruct (inner_body_ok js s Hinv) as (c & s1 & E & Hs & Hk & Hx).
  simpl. rewrite E. cbn [bind fst snd]. destruct c.
  - pose proof (extends_length _ _ _ Hx) as HL.
    destruct (IH s1) as (s' & k & E' & Hs' & Hx'); [split; auto | lia |].
    exists s', (S k). split; [exact E'|]. split; [exact Hs'|].
    apply (extends_trans 1 (S k) s s1 s'); assumption.
  - exists s1, 0%nat. auto.
Qed.

End TracerFacts.

(** ** Results *)

Lemma bind_Ok {A B : Type} (r : result A) (k : A -> result B) (v : B) :
  bind r k = Ok v -> exists u, r = Ok u /\ k u = Ok v.
Proof. destruct r; simpl; intro H; try discriminate. eauto. Qed.

Lemma assert_Ok (c : bool) (u : unit) : assert c = Ok u -> c = true.
Proof. now destruct c. Qed.

Ltac invert_bind H :=
  let u := fresh "u" in
  let H1 := fresh "E" in
  apply bind_Ok in H; destruct H as [u [H1 H]];
  try (apply assert_Ok in H1).

(** ** The knots *)

Lemma dbl_of_nat_lt (i j : nat) : (i < j)%nat -> (dbl_of_nat i < dbl_of_nat j)%Qc.
Proof.
  intro H. unfold dbl_of_nat, dbl_of_Z, Qclt, Q2Qc, this.
  rewrite !Qred_correct. rewrite <- Zlt_Qlt. lia.
Qed.

Lemma dbl_inv_pos (q : double) : (0 < q)%Qc -> (0 < / q)%Qc.
Proof.
  unfold Qclt, Qcinv, Q2Qc. cbn [this]. rewrite !Qred_correct.
  apply Qinv_lt_0_compat.
Qed.

Lemma knot_lt (frames i j : nat) :
  (0 < frames)%nat -> (i < j)%nat -> (knot frames i < knot frames j)%Qc.
Proof.
  intros Hf H. unfold knot, Qcdiv. apply Qcmult_lt_compat_r.
  - apply dbl_inv_pos. change 0%Qc with (dbl_of_nat 0). now apply dbl_of_nat_lt.
  - now apply dbl_of_nat_lt.
Qed.

Lemma knot_zero (frames : nat) : knot frames 0 = dbl 0 1.
Proof. unfold knot, Qcdiv. change (dbl_of_nat 0) with 0%Qc. apply Qcmult_0_l. Qed.

Lemma knot_last (frames : nat) : (0 < frames)%nat -> knot frames frames = dbl 1 1.
Proof.
  intro H. unfold knot, Qcdiv. apply Qcmult_inv_r.
  apply not_eq_sym, Qclt_not_eq. change 0%Qc with (dbl_of_nat 0).
  now apply dbl_of_nat_lt.
Qed.

Lemma knots_length (frames : nat) : length (knots frames) = (frames + 1)%nat.
Proof. unfold knots. now rewrite length_app, length_map, length_seq. Qed.

Lemma knots_nth (frames i : nat) :
  (0 < frames)%nat -> (i <= frames)%nat ->
  nth_error (knots frames) i = Some (knot frames i).
Proof.
  intros Hf Hi. unfold knots. destruct (Nat.eq_dec i frames) as [-> | N].
  - rewrite nth_error_app2; rewrite length_map, length_seq; [|lia].
    rewrite Nat.sub_diag. simpl. now rewrite knot_last.
  - rewrite nth_error_app1; [|rewrite length_map, length_seq; lia].
    rewrite nth_error_map, nth_error_seq.
    destruct (Nat.ltb_spec i frames); [reflexivity | lia].
Qed.

Lemma knots_ascending_from (frames k i : nat) :
  (i + 1 + k = frames)%nat ->
  ascending (knot frames i)
            (map (knot frames) (seq (S i) k) ++ [dbl 1 1]) = true.
Proof.
  revert i. induction k as [|k IH]; intros i H; simpl.
  - rewrite andb_true_r. apply dbl_ltb_lt.
    rewrite <- (knot_last frames) by lia. apply knot_lt; lia.
  - apply andb_true_iff. split.
    + apply dbl_ltb_lt. apply (knot_lt frames i (S i)); lia.
    + apply (IH (S i)). lia.
Qed.

Lemma knots_ascending (frames : nat) :
  (0 < frames)%nat ->
  match knots frames with [] => true | last :: l => ascending last l end = true.
Proof.
  intro H. destruct frames as [|f]; [lia|]. unfold knots.
  change (seq 0 (S f)) with (0%nat :: seq 1 f). simpl map. simpl app.
  apply (knots_ascending_from (S f) f 0). lia.
Qed.

(** ** The constructors of the splines *)

Lemma Spline_ctor_spec {ST : Type} (xs : list double) (ys : list ST) (n : nat)
    (loop copy : bool) (sp : Spline ST) :
  n = length xs -> n = length ys ->
  Spline_ctor xs ys n loop copy = Ok sp ->
  sp = MkSpline (Z.of_nat n mod 2 ^ 30)%Z loop copy xs ys /\
  (1 < Z.of_nat n mod 2 ^ 30)%Z.
Proof.
  intros Hx Hy H. unfold Spline_ctor in H.
  invert_bind H. invert_bind H. invert_bind H.
  injection H as <-. split.
  - f_equal; [rewrite Hx | rewrite Hy]; apply firstn_all.
  - now apply Z.ltb_lt.
Qed.

Lemma Spline_ctor_ok {ST : Type} (xs : list double) (ys : list ST) (n : nat)
    (loop copy : bool) :
  n = length xs -> n = length ys -> (1 < Z.of_nat n < 2 ^ 30)%Z ->
  match xs with [] => true | last :: l => ascending last l end = true ->
  Spline_ctor xs ys n loop copy = Ok (MkSpline (Z.of_nat n) loop copy xs ys).
Proof.
  intros Hx Hy Hn Ha. unfold Spline_ctor.
  rewrite Z.mod_small by lia.
  replace (1 <? Z.of_nat n)%Z with true by (symmetry; apply Z.ltb_lt; lia).
  cbn [bind assert].
  replace ((n <=? length xs)%nat && (n <=? length ys)%nat) with true
    by (symmetry; apply andb_true_iff; split; apply Nat.leb_le; lia).
  cbn [bind assert].
  rewrite Nat2Z.id, firstn_firstn, Nat.min_id.
  assert (Ex : firstn n xs = xs) by (rewrite Hx; apply firstn_all).
  assert (Ey : firstn n ys = ys) by (rewrite Hy; apply firstn_all).
  rewrite Ex, Ey, Ha. reflexivity.
Qed.

Lemma package_spec (s : Trace) (p : vec2) (pts : list vec2) (tg : vec2)
    (tans : list vec2) (u : double) (zs : list double) (th : Thread) (z : Step) :
  t_thread s = p :: pts -> t_angles s = tg :: tans -> t_zs s = u :: zs ->
  length tans = length pts -> length zs = length pts ->
  length (t_visits s) = (2 * S (length pts))%nat ->
  package s = Ok (th, z) -> produced th z (t_visits s).
Proof.
  intros Ht Ha Hz La Lz Lv H. unfold package in H.
  rewrite Ht, Ha, Hz in H. cbn [front bind] in H.
  invert_bind H. invert_bind H. injection H as <- <-.
  unfold Hermite_ctor in E. invert_bind E. invert_bind E. injection E as <-.
  apply Spline_ctor_spec in E1;
    [|rewrite knots_length; reflexivity | rewrite length_app; simpl; lia].
  apply Spline_ctor_spec in E0;
    [|rewrite knots_length; reflexivity | rewrite length_app; simpl; lia].
  destruct E1 as [-> _]. destruct E0 as [-> Hn].
  exists p, pts, tg, tans, u, zs. cbn [hermite_base mMs mYs mXs mN mLoop length].
  repeat split; auto.
  simpl. f_equal. apply firstn_all2. rewrite length_app. simpl. lia.
Qed.

Lemma package_ok (s : Trace) (p : vec2) (pts : list vec2) (tg : vec2)
    (tans : list vec2) (u : double) (zs : list double) :
  t_thread s = p :: pts -> t_angles s = tg :: tans -> t_zs s = u :: zs ->
  length tans = length pts -> length zs = length pts ->
  (Z.of_nat (length pts) + 2 < 2 ^ 30)%Z ->
  exists th z, package s = Ok (th, z).
Proof.
  intros Ht Ha Hz La Lz Hn. unfold package.
  rewrite Ht, Ha, Hz. cbn [front bind]. unfold Hermite_ctor, Step_ctor.
  rewrite !Spline_ctor_ok;
    try (rewrite knots_length; reflexivity);
    try (rewrite length_app; simpl; lia);
    try (apply knots_ascending; simpl; lia);
    try (simpl length; lia).
  cbn [bind].
  replace (length (p :: pts) + 1 <=? length ((tg :: tans) ++ [tg]))%nat with true
    by (symmetry; apply Nat.leb_le; rewrite length_app; simpl; lia).
  cbn [bind assert]. eauto.
Qed.

(** ** The outer loop *)

Lemma Forall3_snoc {A B C : Type} (R : A -> B -> C -> Prop)
    (la : list A) (lb : list B) (lc : list C) (a : A) (b : B) (c : C) :
  Forall3 R la lb lc -> R a b c -> Forall3 R (la ++ [a]) (lb ++ [b]) (lc ++ [c]).
Proof.
  induction 1; intro HR; simpl; constructor; auto. constructor.
Qed.

Lemma Forall3_length {A B C : Type} (R : A -> B -> C -> Prop)
    (la : list A) (lb : list B) (lc : list C) :
  Forall3 R la lb lc -> length la = length lb /\ length lb = length lc.
Proof. induction 1; simpl; [auto | lia]. Qed.

Lemma Forall3_nth {A B C : Type} (R : A -> B -> C -> Prop)
    (la : list A) (lb : list B) (lc : list C) (i : nat) (a : A) (b : B) :
  Forall3 R la lb lc -> nth_error la i = Some a -> nth_error lb i = Some b ->
  exists c, nth_error lc i = Some c /\ R a b c.
Proof.
  intro H. revert i. induction H as [|a' b' c' la lb lc HR H IH]; intros [|i] Ha Hb;
    simpl in *; try discriminate.
  - injection Ha as <-. injection Hb as <-. eauto.
  - eauto.
Qed.

Lemma Forall3_In {A B C : Type} (R : A -> B -> C -> Prop)
    (la : list A) (lb : list B) (lc : list C) (c : C) :
  Forall3 R la lb lc -> In c lc -> exists a b, R a b c.
Proof.
  induction 1 as [|a' b' c' la lb lc HR H IH]; simpl; [intros []|].
  intros [<- | Hc]; eauto.
Qed.

Section OuterFacts.
Context {libm : Libm} {mem : Indeterminate}.

Lemma outer_cond_unused (o : Outer) :
  sets_inv (o_unused o) (o_unusedUp o) ->
  outer_cond o = (0 <? set_size (o_unused o))%nat.
Proof.
  intros (_ & _ & _ & _ & Hu). unfold outer_cond, set_size.
  destruct (o_unused o) as [|n un]; [|reflexivity]. simpl.
  destruct (o_unusedUp o) as [|u uu]; [reflexivity|].
  destruct (Hu u (or_introl eq_refl)) as [m [[] _]].
Qed.

Lemma thread_start_ok (un uu : NodeSet) :
  sets_inv un uu -> (0 < length un)%nat ->
  exists st, thread_start un uu = Ok st /\ known un (fst st).
Proof.
  intros (_ & _ & _ & _ & Hu) Hn. unfold thread_start, set_size, set_begin.
  destruct uu as [|u uu]; simpl.
  - destruct un as [|n un]; [simpl in Hn; lia|]. simpl.
    eexists. split; [reflexivity|]. simpl. apply known_In. now left.
  - eexists. split; [reflexivity|]. simpl. apply Hu. now left.
Qed.

Lemma outer_body_step (js : JunctionMap) (init : list Port) (o : Outer) :
  outer_inv init o -> outer_cond o = true ->
  (forall o', outer_body js o = Ok o' ->
     outer_inv init o' /\ (length (o_unused o') < length (o_unused o))%nat) /\
  ((Z.of_nat (length (o_unused o)) < 2 ^ 30)%Z -> exists o', outer_body js o = Ok o').
Proof.
  intros (Hs & Hp & Hf) Hc.
  rewrite (outer_cond_unused o Hs) in Hc. apply Nat.ltb_lt in Hc. unfold set_size in Hc.
  destruct (thread_start_ok _ _ Hs Hc) as [st [Est Hk]].
  destruct (inner_loop_ok js (S (set_size (o_unused o))) (first_trace o st))
    as (s & k & E & Hs' & Hx).
  { split; assumption. }
  { unfold set_size. simpl. lia. }
  pose proof (extends_length _ _ _ Hx) as HL.
  destruct Hx as (pts & tans & zs & vs & T & A & Z & V & Lp & La & Lz & Lv & P).
  simpl in T, A, Z, V, P, HL.
  destruct pts as [|p pts]; [discriminate|].
  destruct tans as [|tg tans]; [discriminate|].
  destruct zs as [|u zs]; [discriminate|].
  simpl in Lp, La, Lz.
  unfold outer_body. rewrite Est. cbn [bind]. rewrite E. cbn [bind]. split.
  - intros o' H. invert_bind H. injection H as <-. simpl. split; [|lia].
    split; [exact Hs'|]. split; cbn [o_log o_unused o_ret o_retZs].
    + rewrite concat_app, <- app_assoc. simpl. rewrite app_nil_r, V, <- P. exact Hp.
    + destruct u0 as [th z]. apply Forall3_snoc; [exact Hf|]. simpl.
      apply (package_spec s p pts tg tans u zs); auto; try lia. rewrite V. lia.
  - intro Hn. destruct (package_ok s p pts tg tans u zs) as (th & z & ->); auto; try lia.
    cbn [bind]. eauto.
Qed.

Lemma outer_loop_spec (js : JunctionMap) (init : list Port) (fuel : nat) (o o' : Outer) :
  outer_inv init o -> outer_loop fuel js o = Ok o' ->
  outer_inv init o' /\ o_unused o' = [].
Proof.
  revert o. induction fuel as [|fuel IH]; intros o Hinv H; simpl in H;
    destruct (outer_cond o) eqn:Hc; try discriminate.
  - injection H as <-. split; [exact Hinv|].
    destruct Hinv as (Hs & _). rewrite (outer_cond_unused o Hs) in Hc.
    unfold set_size in Hc. now destruct (o_unused o).
  - invert_bind H. destruct (outer_body_step js init o Hinv Hc) as [Hstep _].
    apply (IH u); [|exact H]. now apply Hstep.
  - injection H as <-. split; [exact Hinv|].
    destruct Hinv as (Hs & _). rewrite (outer_cond_unused o Hs) in Hc.
    unfold set_size in Hc. now destruct (o_unused o).
Qed.

Lemma outer_loop_ok (js : JunctionMap) (init : list Port) (fuel : nat) (o : Outer) :
  outer_inv init o -> (length (o_unused o) <= fuel)%nat ->
  (Z.of_nat (length (o_unused o)) < 2 ^ 30)%Z ->
  exists o', outer_loop fuel js o = Ok o'.
Proof.
  revert o. induction fuel as [|fuel IH]; intros o Hinv Hf Hn; simpl;
    destruct (outer_cond o) eqn:Hc; eauto.
  - destruct Hinv as (Hs & _). rewrite (outer_cond_unused o Hs) in Hc.
    apply Nat.ltb_lt in Hc. unfold set_size in Hc. lia.
  - destruct (outer_body_step js init o Hinv Hc) as [Hstep Hok].
    destruct (Hok Hn) as [o1 E]. rewrite E. cbn [bind].
    destruct (Hstep o1 E) as [Hinv1 Hlt]. apply IH; [exact Hinv1 | lia | lia].
Qed.

End OuterFacts.

(** ** The constructor of the graph *)

Section GraphFacts.
Context {libm : Libm}.

Lemma Graph_add_unused (g : Graph) (it : Stroke) :
  unused (Graph_add g it) =
  set_insert (stroke_node it bRight)
    (set_insert (stroke_node it bLeft)
       (set_insert (stroke_node it fRight)
          (set_insert (stroke_node it fLeft) (unused g)))).
Proof. reflexivity. Qed.

Lemma set_insert_present (k n : Node) (s : NodeSet) :
  set_ok s -> set_count k s = true -> In n (set_insert k s) -> In n s.
Proof.
  intros Hs Hc H. destruct (set_ok_insert_new k n s Hs H) as [H' | [_ H']];
    [exact H' | congruence].
Qed.

Lemma set_count_insert_mono (k n : Node) (s : NodeSet) :
  set_count k s = true -> set_count k (set_insert n s) = true.
Proof. intro H. now rewrite set_count_insert, H. Qed.

Lemma graph_inv_count (seen : list vec2) (un : NodeSet) (n : Node) :
  graph_inv seen un -> In (mid n) seen -> set_count n un = true.
Proof.
  intros (_ & _ & _ & H) Hm. destruct (H (mid n) (dir n) Hm) as [m [Hin Hp]].
  apply set_count_spec. eauto.
Qed.

Lemma Graph_add_inv (seen : list vec2) (g : Graph) (it : Stroke) :
  graph_inv seen (unused g) ->
  graph_inv (seen ++ [Stroke_GetMid it]) (unused (Graph_add g it)).
Proof.
  intros Hg. rewrite Graph_add_unused.
  set (s0 := unused g) in *.
  set (s1 := set_insert (stroke_node it fLeft) s0).
  set (s2 := set_insert (stroke_node it fRight) s1).
  set (s3 := set_insert (stroke_node it bLeft) s2).
  set (s4 := set_insert (stroke_node it bRight) s3).
  pose proof Hg as (Hok & Hcoh & Hsub & Hall).
  assert (O1 : set_ok s1) by now apply set_ok_insert.
  assert (O2 : set_ok s2) by now apply set_ok_insert.
  assert (O3 : set_ok s3) by now apply set_ok_insert.
  assert (O4 : set_ok s4) by now apply set_ok_insert.
  assert (Hnew : forall n, In n s4 ->
            In n s0 \/ exists d, n = stroke_node it d).
  { intros n H.
    destruct (In_set_insert _ _ _ H) as [-> | H3]; [right; eauto|].
    destruct (In_set_insert _ _ _ H3) as [-> | H2]; [right; eauto|].
    destruct (In_set_insert _ _ _ H2) as [-> | H1]; [right; eauto|].
    destruct (In_set_insert _ _ _ H1) as [-> | H0]; [right; eauto | now left]. }
  assert (Hold : forall n, In n s0 -> In n s4).
  { intros n H. now repeat apply set_insert_keeps. }
  assert (Hcnt : forall d, set_count (stroke_node it d) s4 = true).
  { intros d. unfold s4, s3, s2, s1. rewrite !set_count_insert.
    destruct d.
    - replace (Node_equiv (stroke_node it fLeft) (stroke_node it fLeft)) with true
        by (symmetry; now apply Node_equiv_port).
      now rewrite !orb_true_r.
    - replace (Node_equiv (stroke_node it fRight) (stroke_node it fRight)) with true
        by (symmetry; now apply Node_equiv_port).
      now rewrite !orb_true_r.
    - replace (Node_equiv (stroke_node it bLeft) (stroke_node it bLeft)) with true
        by (symmetry; now apply Node_equiv_port).
      now rewrite !orb_true_r.
    - replace (Node_equiv (stroke_node it bRight) (stroke_node it bRight)) with true
        by (symmetry; now apply Node_equiv_port).
      now rewrite !orb_true_r. }
  split; [exact O4|]. split; [|split].
  - destruct (in_dec vec2_eq_dec (Stroke_GetMid it) seen) as [Hin | Hnin].
    + assert (Hsame : forall n, In n s4 -> In n s0).
      { intros n H.
        assert (C0 : forall d, set_count (stroke_node it d) s0 = true)
          by (intro d; now apply (graph_inv_count seen)).
        apply (set_insert_present (stroke_node it fLeft) n s0 Hok (C0 _)).
        apply (set_insert_present (stroke_node it fRight) n s1 O1);
          [now apply set_count_insert_mono|].
        apply (set_insert_present (stroke_node it bLeft) n s2 O2);
          [now repeat apply set_count_insert_mono|].
        apply (set_insert_present (stroke_node it bRight) n s3 O3);
          [now repeat apply set_count_insert_mono | exact H]. }
      intros n m Hn Hm. apply Hcoh; auto.
    + intros n m Hn Hm E.
      destruct (Hnew n Hn) as [Hn0 | [dn ->]]; destruct (Hnew m Hm) as [Hm0 | [dm ->]].
      * now apply Hcoh.
      * exfalso. apply Hnin. change (mid (stroke_node it dm)) with (Stroke_GetMid it) in E.
        rewrite <- E. now apply Hsub.
      * exfalso. apply Hnin. change (mid (stroke_node it dn)) with (Stroke_GetMid it) in E.
        rewrite E. now apply Hsub.
      * reflexivity.
  - intros n Hn. apply in_or_app.
    destruct (Hnew n Hn) as [Hn0 | [d ->]]; [left; now apply Hsub | right; now left].
  - intros m d Hm. apply in_app_or in Hm. destruct Hm as [Hm | [<- | []]].
    + destruct (Hall m d Hm) as [n [Hn Hp]]. exists n. split; [now apply Hold | exact Hp].
    + pose proof (Hcnt d) as H. apply set_count_spec in H.
      destruct H as [n [Hn Hp]]. exists n. split; [exact Hn | exact Hp].
Qed.

Lemma Graph_fold_inv (strokes : StrokeList) (seen : list vec2) (g : Graph) :
  graph_inv seen (unused g) ->
  graph_inv (seen ++ map Stroke_GetMid strokes) (unused (fold_left Graph_add strokes g)).
Proof.
  revert seen g. induction strokes as [|it strokes IH]; intros seen g H; simpl.
  - now rewrite app_nil_r.
  - replace (seen ++ Stroke_GetMid it :: map Stroke_GetMid strokes)
      with ((seen ++ [Stroke_GetMid it]) ++ map Stroke_GetMid strokes)
      by (now rewrite <- app_assoc).
    apply IH. now apply Graph_add_inv.
Qed.

Lemma Graph_ctor_inv (strokes : StrokeList) :
  graph_inv (map Stroke_GetMid strokes) (unused (Graph_ctor strokes)).
Proof.
  apply (Graph_fold_inv strokes [] (MkGraph [] [])). simpl.
  split; [apply set_ok_nil|]. split; [intros n m []|]. split; [intros n []|intros m d []].
Qed.

Lemma Graph_fold_length (strokes : StrokeList) (g : Graph) :
  (length (unused (fold_left Graph_add strokes g))
   <= length (unused g) + 4 * length strokes)%nat.
Proof.
  revert g. induction strokes as [|it strokes IH]; intro g; simpl; [lia|].
  etransitivity; [apply IH|]. rewrite Graph_add_unused.
  pose proof (set_insert_length (stroke_node it fLeft) (unused g)).
  pose proof (set_insert_length (stroke_node it fRight)
                (set_insert (stroke_node it fLeft) (unused g))).
  pose proof (set_insert_length (stroke_node it bLeft)
                (set_insert (stroke_node it fRight)
                   (set_insert (stroke_node it fLeft) (unused g)))).
  pose proof (set_insert_length (stroke_node it bRight)
                (set_insert (stroke_node it bLeft)
                   (set_insert (stroke_node it fRight)
                      (set_insert (stroke_node it fLeft) (unused g))))).
  lia.
Qed.

Lemma Graph_ctor_length (strokes : StrokeList) :
  (length (unused (Graph_ctor strokes)) <= 4 * length strokes)%nat.
Proof. apply (Graph_fold_length strokes (MkGraph [] [])). Qed.

Lemma graph_inv_sets (seen : list vec2) (un : NodeSet) :
  graph_inv seen un -> sets_inv un [].
Proof.
  intros (Hok & Hcoh & Hsub & Hall).
  split; [exact Hok|]. split; [apply set_ok_nil|]. split; [exact Hcoh|].
  split; [|intros u []].
  intros n Hn. apply set_count_spec.
  destruct (Hall (mid n) (exit_dir n) (Hsub n Hn)) as [m [Hm Hp]]. eauto.
Qed.

End GraphFacts.

(** ** The ports of a mesh *)

Lemma existsb_vec2 (v : vec2) (l : list vec2) : existsb (vec2_eqb v) l = true <-> In v l.
Proof.
  rewrite existsb_exists. split.
  - intros [w [Hw E]]. apply vec2_eqb_eq in E. now subst.
  - intro H. exists v. split; [exact H | apply vec2_eqb_refl].
Qed.

Lemma distinct_In (v : vec2) (l : list vec2) : In v (distinct l) <-> In v l.
Proof.
  induction l as [|w l IH]; simpl; [tauto|].
  destruct (existsb (vec2_eqb w) l) eqn:E; simpl; rewrite IH; [|tauto].
  apply existsb_vec2 in E. split; [tauto|]. intros [<- | H]; auto.
Qed.

Lemma distinct_NoDup (l : list vec2) : NoDup (distinct l).
Proof.
  induction l as [|w l IH]; simpl; [constructor|].
  destruct (existsb (vec2_eqb w) l) eqn:E; [exact IH|].
  constructor; [|exact IH]. rewrite distinct_In, <- existsb_vec2. congruence.
Qed.

Lemma distinct_fixed (l : list vec2) : NoDup l -> distinct l = l.
Proof.
  induction 1 as [|w l Hw Hl IH]; simpl; [reflexivity|].
  destruct (existsb (vec2_eqb w) l) eqn:E.
  - apply existsb_vec2 in E. contradiction.
  - now rewrite IH.
Qed.

Lemma ports_of_In (m : vec2) (d : Dir) (ms : list vec2) :
  In (m, d) (ports_of ms) <-> In m ms.
Proof.
  unfold ports_of. rewrite in_flat_map. split.
  - intros [w [Hw H]]. apply in_map_iff in H. destruct H as [d' [E _]]. congruence.
  - intro H. exists m. split; [exact H|]. apply in_map. destruct d; simpl; tauto.
Qed.

Lemma ports_of_length (ms : list vec2) : length (ports_of ms) = (4 * length ms)%nat.
Proof. induction ms as [|m ms IH]; simpl; [reflexivity|]. rewrite IH. lia. Qed.

Lemma ports_of_NoDup (ms : list vec2) : NoDup ms -> NoDup (ports_of ms).
Proof.
  induction 1 as [|m ms Hm Hms IH]; simpl; [constructor|].
  assert (N : forall d, ~ In (m, d) (ports_of ms)) by (intro d; now rewrite ports_of_In).
  repeat constructor; simpl; auto; intros H; decompose [or] H;
    try discriminate; try (eapply N; eassumption).
Qed.

Lemma graph_ports (strokes : StrokeList) (libm : Libm) :
  Permutation (map port (unused (Graph_ctor strokes))) (ports_of (midpoints strokes)).
Proof.
  pose proof (Graph_ctor_inv strokes) as (Hok & _ & Hsub & Hall).
  apply NoDup_Permutation.
  - now apply set_ok_NoDup.
  - apply ports_of_NoDup, distinct_NoDup.
  - intros [m d]. rewrite ports_of_In. unfold midpoints. rewrite distinct_In. split.
    + intro H. apply in_map_iff in H. destruct H as [n [Hp Hn]].
      injection Hp as <- _. now apply Hsub.
    + intro H. destruct (Hall m d H) as [n [Hn Hp]]. apply in_map_iff. eauto.
Qed.

(** ** The whole run *)

Section RunFacts.
Context {libm : Libm} {mem : Indeterminate}.

Lemma first_outer_inv (strokes : StrokeList) :
  outer_inv (map port (unused (Graph_ctor strokes))) (first_outer (Graph_ctor strokes)).
Proof.
  split; [|split].
  - apply (graph_inv_sets (map Stroke_GetMid strokes)), Graph_ctor_inv.
  - reflexivity.
  - constructor.
Qed.

Lemma fits_unused (strokes : StrokeList) :
  fits strokes -> (Z.of_nat (length (unused (Graph_ctor strokes))) < 2 ^ 30)%Z.
Proof. unfold fits. pose proof (Graph_ctor_length strokes). lia. Qed.

Lemma CreateThread_run_spec (strokes : StrokeList) (o : Outer) :
  CreateThread_run strokes = Ok o ->
  Permutation (concat (o_log o)) (ports_of (midpoints strokes)) /\
  Forall3 produced (o_ret o) (o_retZs o) (o_log o).
Proof.
  intro H. unfold CreateThread_run in H.
  destruct (outer_loop_spec _ _ _ _ _ (first_outer_inv strokes) H) as [(_ & Hp & Hf) Hu].
  split; [|exact Hf]. rewrite Hu, app_nil_r in Hp. rewrite Hp. apply graph_ports.
Qed.

Lemma CreateThread_run_ok (strokes : StrokeList) :
  fits strokes -> exists o, CreateThread_run strokes = Ok o.
Proof.
  intro H. unfold CreateThread_run.
  apply (outer_loop_ok _ (map port (unused (Graph_ctor strokes)))).
  - apply first_outer_inv.
  - reflexivity.
  - now apply fits_unused.
Qed.

End RunFacts.

(** ** Evaluation of a step curve *)

Lemma Imod_range (i j : Z) : (0 < j)%Z -> (0 <= Imod i j < j)%Z.
Proof.
  intro H. unfold Imod.
  destruct (Z.ltb_spec (Z.rem i j) 0); destruct (Z.ltb_spec j 0);
    Z.to_euclidean_division_equations; nia.
Qed.

Lemma Imod_small (i j : Z) : (0 <= i < j)%Z -> Imod i j = i.
Proof.
  intro H. unfold Imod. rewrite Z.rem_small by lia.
  destruct (Z.ltb_spec i 0); [lia | reflexivity].
Qed.

Lemma Imod_same (j : Z) : (0 < j)%Z -> Imod j j = 0%Z.
Proof. intro H. unfold Imod. rewrite Z.rem_same by lia. reflexivity. Qed.

Lemma Mod_zero : Mod (dbl 0 1) (dbl 0 1) (dbl 1 1) = Ok (dbl 0 1).
Proof.
  unfold Mod.
  assert (E : (if dbl_leb (dbl 0 1) (dbl 0 1)
               then (fabs ((dbl 0 1 - dbl 0 1) / (dbl 1 1 - dbl 0 1))
                     - floor (fabs ((dbl 0 1 - dbl 0 1) / (dbl 1 1 - dbl 0 1))))
                    * (dbl 1 1 - dbl 0 1) + dbl 0 1
               else dbl 1 1 - (fabs ((dbl 0 1 - dbl 0 1) / (dbl 1 1 - dbl 0 1))
                     - floor (fabs ((dbl 0 1 - dbl 0 1) / (dbl 1 1 - dbl 0 1))))
                    * (dbl 1 1 - dbl 0 1))%Qc = dbl 0 1).
  { apply Qc_is_canon. reflexivity. }
  rewrite E. reflexivity.
Qed.

Lemma Mod_one : Mod (dbl 1 1) (dbl 0 1) (dbl 1 1) = Ok (dbl 0 1).
Proof.
  unfold Mod.
  assert (E : (if dbl_leb (dbl 0 1) (dbl 1 1)
               then (fabs ((dbl 1 1 - dbl 0 1) / (dbl 1 1 - dbl 0 1))
                     - floor (fabs ((dbl 1 1 - dbl 0 1) / (dbl 1 1 - dbl 0 1))))
                    * (dbl 1 1 - dbl 0 1) + dbl 0 1
               else dbl 1 1 - (fabs ((dbl 1 1 - dbl 0 1) / (dbl 1 1 - dbl 0 1))
                     - floor (fabs ((dbl 1 1 - dbl 0 1) / (dbl 1 1 - dbl 0 1))))
                    * (dbl 1 1 - dbl 0 1))%Qc = dbl 0 1).
  { apply Qc_is_canon. reflexivity. }
  rewrite E. reflexivity.
Qed.

Section StepFacts.
Variables (z : Step) (frames : nat) (u : double) (zs : list double).
Hypothesis Hframes : frames = S (length zs).
Hypothesis HN : mN z = Z.of_nat (frames + 1).
Hypothesis Hloop : mLoop z = true.
Hypothesis Hxs : mXs z = knots frames.
Hypothesis Hys : mYs z = (u :: zs) ++ [u].

Lemma step_GetX (i : Z) (k : nat) :
  Imod i (mN z) = Z.of_nat k -> (k <= frames)%nat -> GetX z i = Ok (knot frames k).
Proof.
  intros E Hk. unfold GetX. rewrite E, HN.
  replace (0 <=? Z.of_nat k)%Z with true by (symmetry; apply Z.leb_le; lia).
  replace (Z.of_nat k <? Z.of_nat (frames + 1))%Z with true
    by (symmetry; apply Z.ltb_lt; lia).
  cbn [bind assert]. unfold array_read.
  destruct (Z.ltb_spec (Z.of_nat k) 0); [lia|].
  rewrite Nat2Z.id, Hxs, knots_nth by lia. reflexivity.
Qed.

Lemma step_GetY_first : GetY z 0 = Ok u.
Proof.
  unfold GetY. rewrite Imod_small by lia.
  replace (0 <? mN z)%Z with true by (symmetry; apply Z.ltb_lt; lia).
  cbn [bind assert]. unfold array_read. rewrite Hys. reflexivity.
Qed.

Lemma step_GetY_second : exists v, GetY z (0 + 1) = Ok v.
Proof.
  unfold GetY. rewrite Imod_small by lia.
  replace (0 + 1 <? mN z)%Z with true by (symmetry; apply Z.ltb_lt; lia).
  cbn [bind assert]. unfold array_read. rewrite Hys.
  destruct zs; simpl; eauto.
Qed.

Lemma step_LoopInRange (x : double) : LoopInRange z x = Mod x (dbl 0 1) (dbl 1 1).
Proof.
  unfold LoopInRange, array_read. rewrite Hxs, HN.
  change (0 <? 0)%Z with false. change (Z.to_nat 0) with 0%nat.
  destruct (Z.ltb_spec (Z.of_nat (frames + 1) - 1) 0); [lia|].
  replace (Z.to_nat (Z.of_nat (frames + 1) - 1)) with frames by lia.
  rewrite !knots_nth by lia. cbn [bind]. rewrite knot_zero, knot_last by lia.
  reflexivity.
Qed.

Lemma knot_positive (k : nat) : (0 < k)%nat -> dbl_leb (knot frames k) (dbl 0 1) = false.
Proof.
  intro H. destruct (dbl_leb (knot frames k) (dbl 0 1)) eqn:E; [|reflexivity].
  apply dbl_leb_le in E. rewrite <- (knot_zero frames) in E.
  exfalso. revert E. apply Qclt_not_le. apply knot_lt; lia.
Qed.

Lemma step_GetIndex_loop (k fuel : nat) (i : Z) :
  Imod i (mN z) = Z.of_nat k -> (k < fuel)%nat -> (k <= frames)%nat ->
  GetIndex_loop fuel z (dbl 0 1) i = Ok 0%Z.
Proof.
  revert fuel i. induction k as [|k IH]; intros fuel i E Hf Hk;
    (destruct fuel as [|fuel]; [lia|]); simpl; rewrite E.
  - rewrite (step_GetX _ 0) by (rewrite ?Imod_small; lia).
    rewrite (step_GetX _ 1) by (rewrite ?Imod_small; lia).
    cbn [bind]. rewrite knot_zero.
    replace (dbl_leb (dbl 0 1) (dbl 0 1)) with true by reflexivity.
    replace (dbl_ltb (dbl 0 1) (knot frames 1)) with true; [reflexivity|].
    symmetry. apply dbl_ltb_lt. rewrite <- (knot_zero frames). apply knot_lt; lia.
  - rewrite (step_GetX _ (S k)) by (rewrite ?Imod_small; lia).
    assert (Hnext : exists v, GetX z (Z.of_nat (S k) + 1) = Ok v).
    { destruct (Nat.eq_dec (S k) frames) as [Ef | Nf].
      - exists (knot frames 0). apply step_GetX; [|lia].
        replace (Z.of_nat (S k) + 1)%Z with (mN z) by lia. rewrite Imod_same; lia.
      - exists (knot frames (S (S k))). apply step_GetX; [|lia].
        rewrite Imod_small; lia. }
    destruct Hnext as [v ->]. cbn [bind]. rewrite knot_positive by lia.
    rewrite Hloop. replace (Z.of_nat (S k) =? 0)%Z with false
      by (symmetry; apply Z.eqb_neq; lia).
    simpl andb. cbv iota. apply IH; [|lia|lia].
    rewrite Imod_small; lia.
Qed.

Lemma step_Y_wraps (c : Z) (x : double) :
  Mod x (dbl 0 1) (dbl 1 1) = Ok (dbl 0 1) ->
  Step_Y z c x = Ok (u, 0%Z).
Proof.
  intro HM. unfold Step_Y, GetIndex, GetSubRange.
  rewrite Hloop, step_LoopInRange, HM. cbn [bind].
  assert (Hr : (0 <= Imod c (mN z) < mN z)%Z) by (apply Imod_range; lia).
  rewrite (step_GetIndex_loop (Z.to_nat (Imod c (mN z)))); try lia.
  cbn [bind].
  rewrite (step_GetX _ 0) by (rewrite ?Imod_small; lia).
  rewrite (step_GetX _ 1) by (rewrite ?Imod_small; lia).
  cbn [bind]. rewrite step_GetY_first. cbn [bind].
  destruct step_GetY_second as [v ->]. cbn [bind].
  replace ((dbl 0 1 - knot frames 0) / (knot frames 1 - knot frames 0))%Qc
    with (dbl 0 1).
  - reflexivity.
  - rewrite knot_zero. unfold Qcdiv, Qcminus.
    replace (dbl 0 1 + - dbl 0 1)%Qc with 0%Qc by (apply Qc_is_canon; reflexivity).
    now rewrite Qcmult_0_l.
Qed.

End StepFacts.

(** ** The threads of a run *)

Lemma CreateThread_inv (libm : Libm) (mem : Indeterminate) (strokes : StrokeList) (art : Art) :
  CreateThread strokes = Ok art ->
  exists o, CreateThread_run strokes = Ok o /\ art = MkArt (o_ret o) (o_retZs o).
Proof.
  unfold CreateThread. intro H. invert_bind H. injection H as <-. eauto.
Qed.

Lemma CreateThread_ok (libm : Libm) (mem : Indeterminate) (strokes : StrokeList) :
  fits strokes -> exists art, CreateThread strokes = Ok art.
Proof.
  intro H. destruct (CreateThread_run_ok strokes H) as [o E].
  unfold CreateThread. rewrite E. cbn [bind]. eauto.
Qed.

Lemma concat_length_In {A : Type} (l : list A) (ll : list (list A)) :
  In l ll -> (length l <= length (concat ll))%nat.
Proof.
  induction ll as [|h t IH]; simpl; [intros []|].
  rewrite length_app. intros [-> | H]; [lia|]. specialize (IH H). lia.
Qed.

Lemma valid_mesh_x : valid_mesh mesh_x.
Proof.
  repeat constructor; simpl; apply vec2_eqb_neq; reflexivity.
Qed.

(** C1, as stated, fails: two strokes that cross at their common midpoint
    are a valid mesh of two strokes, and its run takes four ports, not
    eight, out of the unused set. *)
Lemma shared_midpoint_ports :
  valid_mesh mesh_x /\
  exists o : Outer,
    @CreateThread_run rational_libm zeroed_memory mesh_x = Ok o /\
    length (concat (o_log o)) <> (4 * length mesh_x)%nat.
Proof.
  split; [exact valid_mesh_x|].
  eexists. split; [vm_compute; reflexivity|].
  vm_compute. discriminate.
Qed.

(** C1, amended: a run that returns has taken out of the unused set, once
    each, the four ports of every distinct midpoint of the mesh, and none
    else: the ports visited by its threads, all together, are a list without
    repetition of these ports.  Their number is four times the number of
    distinct midpoints, hence four times the number of strokes when no two
    strokes share a midpoint.  A run on a mesh that fits returns. *)
Theorem ports_consumed_once (libm : Libm) (mem : Indeterminate) (strokes : StrokeList) :
  (forall o : Outer, CreateThread_run strokes = Ok o ->
     Permutation (concat (o_log o)) (ports_of (midpoints strokes)) /\
     NoDup (concat (o_log o)) /\
     length (concat (o_log o)) = (4 * length (midpoints strokes))%nat /\
     (NoDup (map Stroke_GetMid strokes) ->
      length (concat (o_log o)) = (4 * length strokes)%nat)) /\
  (fits strokes -> exists o : Outer, CreateThread_run strokes = Ok o).
Proof.
  split; [|apply CreateThread_run_ok].
  intros o H. destruct (CreateThread_run_spec strokes o H) as [Hp _].
  split; [exact Hp|]. split; [|split].
  - apply (Permutation_NoDup (Permutation_sym Hp)).
    apply ports_of_NoDup, distinct_NoDup.
  - now rewrite (Permutation_length Hp), ports_of_length.
  - intro Hn. rewrite (Permutation_length Hp), ports_of_length.
    unfold midpoints. now rewrite (distinct_fixed _ Hn), length_map.
Qed.

Lemma fits_mesh_square : fits mesh_square.
Proof. unfold fits. simpl. lia. Qed.

Lemma distinct_same_NoDup (l : list vec2) : distinct l = l -> NoDup l.
Proof. intro H. rewrite <- H. apply distinct_NoDup. Qed.

Lemma midpoints_mesh_square : NoDup (map Stroke_GetMid mesh_square).
Proof. apply distinct_same_NoDup. vm_compute. reflexivity. Qed.

Lemma ports_consumed_once_witness :
  fits mesh_square /\ NoDup (map Stroke_GetMid mesh_square) /\
  exists o : Outer,
    @CreateThread_run rational_libm zeroed_memory mesh_square = Ok o /\
    length (concat (o_log o)) = 16%nat.
Proof.
  split; [exact fits_mesh_square|]. split; [exact midpoints_mesh_square|].
  destruct (ports_consumed_once rational_libm zeroed_memory mesh_square) as [Hall Hret].
  destruct (Hret fits_mesh_square) as [o Ho].
  exists o. split; [exact Ho|].
  destruct (Hall o Ho) as (_ & _ & _ & Hlen).
  exact (Hlen midpoints_mesh_square).
Defined.

Lemma run_one_Ok : @CreateThread_run rational_libm zeroed_memory mesh_one = Ok run_one.
Proof. vm_compute. reflexivity. Qed.

Lemma art_one_Ok : @CreateThread rational_libm zeroed_memory mesh_one = Ok art_one.
Proof. unfold CreateThread. rewrite run_one_Ok. reflexivity. Qed.

Lemma run_one_first :
  exists (th : Thread) (z : Step) (vs : list Port),
    nth_error (o_ret run_one) 0 = Some th /\
    nth_error (o_retZs run_one) 0 = Some z /\
    nth_error (o_log run_one) 0 = Some vs.
Proof. vm_compute. do 3 eexists. repeat split; reflexivity. Qed.

Lemma fits_mesh_one : fits mesh_one.
Proof. unfold fits. simpl. lia. Qed.

(** C2, as stated, fails: the thread of a stroke on its own has two samples
    before the closing one, and four ports were consumed to trace it. *)
Lemma samples_are_not_ports :
  exists (o : Outer) (th : Thread) (vs : list Port),
    @CreateThread_run rational_libm zeroed_memory mesh_one = Ok o /\
    nth_error (o_ret o) 0 = Some th /\ nth_error (o_log o) 0 = Some vs /\
    sample_count th = 2%nat /\ length vs = 4%nat /\ sample_count th <> length vs.
Proof.
  eexists _, _, _. split; [vm_compute; reflexivity|].
  split; [vm_compute; reflexivity|]. split; [vm_compute; reflexivity|].
  vm_compute. repeat split. discriminate.
Qed.

(** C2, amended: every thread of a run that returns holds a positive
    number of samples before the closing one, as many points as tangents
    and as over/under flags; twice as many ports were consumed while it was
    traced (each sample takes the entry port and the exit port out of the
    unused set); and each of its three arrays ends in a copy of its first
    element.  A run on a mesh that fits returns. *)
Theorem thread_sample_count (libm : Libm) (mem : Indeterminate) (strokes : StrokeList) :
  (forall (o : Outer) (i : nat) (th : Thread) (z : Step),
     CreateThread_run strokes = Ok o ->
     nth_error (o_ret o) i = Some th -> nth_error (o_retZs o) i = Some z ->
     exists (vs : list Port) (p : vec2) (pts : list vec2) (tg : vec2)
            (tans : list vec2) (u : double) (zs : list double),
       nth_error (o_log o) i = Some vs /\
       mYs (hermite_base th) = (p :: pts) ++ [p] /\
       mMs th = (tg :: tans) ++ [tg] /\
       mYs z = (u :: zs) ++ [u] /\
       sample_count th = length (p :: pts) /\
       sample_count th = length (tg :: tans) /\
       sample_count th = length (u :: zs) /\
       length vs = (2 * sample_count th)%nat /\
       (0 < sample_count th)%nat) /\
  (fits strokes -> exists o : Outer, CreateThread_run strokes = Ok o).
Proof.
  split; [|apply CreateThread_run_ok].
  intros o i th z H Hth Hz.
  destruct (CreateThread_run_spec strokes o H) as [_ Hf].
  destruct (Forall3_nth _ _ _ _ i th z Hf Hth Hz) as [vs [Hvs Hp]].
  destruct Hp as (p & pts & tg & tans & u & zs & La & Lz & Lv & Ey & Em & Ez & _).
  exists vs, p, pts, tg, tans, u, zs. unfold sample_count. rewrite Ey, length_app.
  simpl. simpl in Lv. repeat split; auto; lia.
Qed.

Lemma thread_sample_count_witness :
  exists (th : Thread) (vs : list Port),
    nth_error (o_ret run_one) 0 = Some th /\ nth_error (o_log run_one) 0 = Some vs /\
    length vs = (2 * sample_count th)%nat /\ (0 < sample_count th)%nat.
Proof.
  destruct run_one_first as (th & z & vs & Hth & Hz & Hvs).
  destruct (thread_sample_count rational_libm zeroed_memory mesh_one) as [Hall _].
  destruct (Hall run_one 0%nat th z run_one_Ok Hth Hz)
    as (vs' & p & pts & tg & tans & u & zs & Hvs' & _ & _ & _ & _ & _ & _ & Hl & Hpos).
  exists th, vs'. repeat split; assumption.
Defined.

(** C10: an [Art] returned by [CreateThread] holds as many step curves as
    threads; for every index below [GetThreadCount] both [GetThread] and
    [GetZ] return, and the thread and the step curve they return were built
    with the same number of knots.  [CreateThread] returns on a mesh that
    fits. *)
Theorem one_step_curve_per_thread (libm : Libm) (mem : Indeterminate) (strokes : StrokeList) :
  (forall art : Art, CreateThread strokes = Ok art ->
     length (mThreads art) = length (mZs art) /\
     forall index : nat, (index < GetThreadCount art)%nat ->
       exists (th : Thread) (z : Step),
         GetThread art index = Ok th /\ GetZ art index = Ok z /\
         mN (hermite_base th) = mN z /\
         length (mYs (hermite_base th)) = length (mYs z) /\
         mXs (hermite_base th) = mXs z) /\
  (fits strokes -> exists art : Art, CreateThread strokes = Ok art).
Proof.
  split; [|apply CreateThread_ok].
  intros art H. destruct (CreateThread_inv _ _ _ _ H) as [o [Ho ->]].
  destruct (CreateThread_run_spec strokes o Ho) as [_ Hf].
  destruct (Forall3_length _ _ _ _ Hf) as [L1 L2]. split; [exact L1|].
  unfold GetThreadCount, GetThread, GetZ, GetThreadCount, vector_at. simpl.
  intros index Hi.
  replace (index <? length (o_ret o))%nat with true by (symmetry; now apply Nat.ltb_lt).
  cbn [bind assert].
  destruct (nth_error (o_ret o) index) as [th|] eqn:Eth;
    [|apply nth_error_None in Eth; lia].
  destruct (nth_error (o_retZs o) index) as [z|] eqn:Ez;
    [|apply nth_error_None in Ez; lia].
  exists th, z. split; [reflexivity|]. split; [reflexivity|].
  destruct (Forall3_nth _ _ _ _ index th z Hf Eth Ez) as [vs [_ Hp]].
  destruct Hp as (p & pts & tg & tans & u & zs & La & Lz & _ & Ey & _ & Ezs & Ex & Ex' & En & En' & _).
  rewrite En, En', Ey, Ezs, Ex, Ex', !length_app. simpl. repeat split; lia.
Qed.

Lemma one_step_curve_per_thread_witness :
  length (mThreads art_one) = length (mZs art_one) /\
  exists (th : Thread) (z : Step),
    GetThread art_one 0 = Ok th /\ GetZ art_one 0 = Ok z /\ mN (hermite_base th) = mN z.
Proof.
  destruct (one_step_curve_per_thread rational_libm zeroed_memory mesh_one) as [Hall _].
  destruct (Hall art_one art_one_Ok) as [Hlen Hidx]. split; [exact Hlen|].
  destruct (Hidx 0%nat) as (th & z & Hth & Hz & Hn & _).
  - vm_compute. lia.
  - exists th, z. repeat split; assumption.
Defined.

Lemma distinct_length (l : list vec2) : (length (distinct l) <= length l)%nat.
Proof.
  induction l as [|v l IH]; simpl; [lia|].
  destruct (existsb (vec2_eqb v) l); simpl; lia.
Qed.

Lemma closed_list {A : Type} (e : A) (l : list A) (d : A) :
  hd d ((e :: l) ++ [e]) = last ((e :: l) ++ [e]) d.
Proof. now rewrite last_last. Qed.

Lemma GetZ_inv (art : Art) (index : nat) (z : Step) :
  GetZ art index = Ok z ->
  (index < length (mThreads art))%nat /\ nth_error (mZs art) index = Some z.
Proof.
  unfold GetZ, GetThreadCount, vector_at. intro H. invert_bind H.
  apply Nat.ltb_lt in E. split; [exact E|].
  destruct (nth_error (mZs art) index); congruence.
Qed.

Lemma GetThread_inv (art : Art) (index : nat) (th : Thread) :
  GetThread art index = Ok th -> nth_error (mThreads art) index = Some th.
Proof.
  unfold GetThread, vector_at. intro H. invert_bind H.
  destruct (nth_error (mThreads art) index); congruence.
Qed.

Lemma produced_fits (libm : Libm) (mem : Indeterminate) (strokes : StrokeList)
    (o : Outer) (th : Thread) (z : Step) (vs : list Port) :
  fits strokes -> CreateThread_run strokes = Ok o -> In vs (o_log o) ->
  (Z.of_nat (length vs) + 2 < 2 ^ 30)%Z.
Proof.
  unfold fits. intros Hfit H Hin.
  destruct (CreateThread_run_spec strokes o H) as [Hp _].
  pose proof (concat_length_In vs (o_log o) Hin) as L.
  rewrite (Permutation_length Hp), ports_of_length in L.
  pose proof (distinct_length (map Stroke_GetMid strokes)) as D.
  rewrite length_map in D. fold (midpoints strokes) in D.
  destruct (CreateThread_run_spec strokes o H) as [_ Hf].
  destruct (Forall3_In _ _ _ _ vs Hf Hin) as (th' & z' & Hprod).
  destruct Hprod as (p & pts & tg & tans & u & zs & _ & _ & Lv & _).
  simpl in Lv. lia.
Qed.

(** C8: every thread of an [Art] that [CreateThread] returns is closed: its
    array of points, its array of tangents and the array of the flags of its
    step curve each end in their first element.  On a mesh that fits,
    [CreateThread] returns, and the step curve of every thread takes at the
    parameter 0 the value it takes at the parameter 1, whatever index the
    curve has cached. *)
Theorem threads_are_closed (libm : Libm) (mem : Indeterminate) (strokes : StrokeList) :
  (forall (art : Art) (index : nat) (th : Thread) (z : Step),
     CreateThread strokes = Ok art ->
     GetThread art index = Ok th -> GetZ art index = Ok z ->
     (forall d, hd d (mYs (hermite_base th)) = last (mYs (hermite_base th)) d) /\
     (forall d, hd d (mMs th) = last (mMs th) d) /\
     (forall d, hd d (mYs z) = last (mYs z) d) /\
     (2 <= length (mYs (hermite_base th)))%nat /\
     (2 <= length (mMs th))%nat /\ (2 <= length (mYs z))%nat) /\
  (fits strokes ->
   exists art : Art, CreateThread strokes = Ok art /\
     forall (index : nat) (z : Step), GetZ art index = Ok z ->
     forall c0 c1 : Z, exists (v : double) (i0 i1 : Z),
       Step_Y z c0 (dbl 0 1) = Ok (v, i0) /\ Step_Y z c1 (dbl 1 1) = Ok (v, i1)).
Proof.
  split.
  - intros art index th z H Hth Hz.
    destruct (CreateThread_inv _ _ _ _ H) as [o [Ho ->]].
    apply GetThread_inv in Hth. apply GetZ_inv in Hz. destruct Hz as [_ Hz].
    simpl in Hth, Hz.
    destruct (CreateThread_run_spec strokes o Ho) as [_ Hf].
    destruct (Forall3_nth _ _ _ _ index th z Hf Hth Hz) as [vs [_ Hp]].
    destruct Hp as (p & pts & tg & tans & u & zs & _ & _ & _ & -> & -> & -> & _).
    repeat split; try (intro d; apply closed_list);
      rewrite length_app; simpl; lia.
  - intro Hfit. destruct (CreateThread_ok libm mem strokes Hfit) as [art H].
    exists art. split; [exact H|]. intros index z Hz c0 c1.
    destruct (CreateThread_inv _ _ _ _ H) as [o [Ho ->]].
    apply GetZ_inv in Hz. destruct Hz as [Hi Hz]. simpl in Hi, Hz.
    destruct (nth_error (o_ret o) index) as [th|] eqn:Hth;
      [|apply nth_error_None in Hth; lia].
    destruct (CreateThread_run_spec strokes o Ho) as [_ Hf].
    destruct (Forall3_nth _ _ _ _ index th z Hf Hth Hz) as [vs [Hvs Hp]].
    pose proof (produced_fits libm mem strokes o th z vs Hfit Ho (nth_error_In _ _ Hvs)) as Hb.
    destruct Hp as (p & pts & tg & tans & u & zs & La & Lz & Lv & _ & _ & Ez & _ & Ex & _ & En & _ & _ & Hl).
    simpl in Lv. rewrite Z.mod_small in En by lia.
    exists u, 0%Z, 0%Z. split.
    + apply (step_Y_wraps z (S (length pts)) u zs); try assumption; try lia; apply Mod_zero.
    + apply (step_Y_wraps z (S (length pts)) u zs); try assumption; try lia; apply Mod_one.
Qed.

Lemma threads_are_closed_witness :
  exists (th : Thread) (z : Step) (v : double) (i0 i1 : Z),
    GetThread art_one 0 = Ok th /\ GetZ art_one 0 = Ok z /\
    hd (dbl 0 1) (mYs z) = last (mYs z) (dbl 0 1) /\
    Step_Y z 5 (dbl 0 1) = Ok (v, i0) /\ Step_Y z (-7) (dbl 1 1) = Ok (v, i1).
Proof.
  destruct (threads_are_closed rational_libm zeroed_memory mesh_one) as [Harr Hstep].
  destruct (Hstep fits_mesh_one) as (art & Hart & Hz).
  assert (E : art = art_one) by (rewrite art_one_Ok in Hart; now injection Hart).
  subst art.
  assert (Hth1 : exists th, GetThread art_one 0 = Ok th) by (vm_compute; eauto).
  assert (Hz1 : exists z, GetZ art_one 0 = Ok z) by (vm_compute; eauto).
  destruct Hth1 as [th Hth]. destruct Hz1 as [z Hz1].
  destruct (Hz 0%nat z Hz1 5%Z (-7)%Z) as (v & i0 & i1 & H0 & H1).
  destruct (Harr art_one 0%nat th z art_one_Ok Hth Hz1) as (_ & _ & Hc & _).
  exists th, z, v, i0, i1. repeat split; auto.
Defined.

(** ** Determinism *)

Lemma set_find_by_port (n n' : Node) (s : NodeSet) :
  port n = port n' -> set_find n s = set_find n' s.
Proof.
  intro H. unfold set_find. induction s as [|m s IH]; simpl; [reflexivity|].
  now rewrite IH, (Node_equiv_by_port n n' m m H eq_refl).
Qed.

(** The node built at line 464 is only a search key: [operator<] reads its
    midpoint and its direction, never its pointers. *)
Lemma inner_body_mem (libm : Libm) (m1 m2 : Indeterminate) (js : JunctionMap) (s : Trace) :
  @inner_body libm m1 js s = @inner_body libm m2 js s.
Proof.
  unfold inner_body.
  repeat match goal with
         | |- bind ?r _ = bind ?r _ => destruct r; cbn [bind]; try reflexivity
         end.
Qed.

Lemma inner_loop_mem (libm : Libm) (m1 m2 : Indeterminate) (fuel : nat)
    (js : JunctionMap) (s : Trace) :
  @inner_loop libm m1 fuel js s = @inner_loop libm m2 fuel js s.
Proof.
  revert s. induction fuel as [|fuel IH]; intro s; simpl; [reflexivity|].
  rewrite (inner_body_mem libm m1 m2).
  destruct (inner_body js s) as [[c s']| |]; cbn [bind fst snd]; [|reflexivity..].
  destruct c; [apply IH | reflexivity].
Qed.

Lemma outer_loop_mem (libm : Libm) (m1 m2 : Indeterminate) (fuel : nat)
    (js : JunctionMap) (o : Outer) :
  @outer_loop libm m1 fuel js o = @outer_loop libm m2 fuel js o.
Proof.
  revert o. induction fuel as [|fuel IH]; intro o; simpl; [reflexivity|].
  destruct (outer_cond o); [|reflexivity].
  unfold outer_body.
  destruct (thread_start (o_unused o) (o_unusedUp o)) as [st| |]; cbn [bind];
    [|reflexivity..].
  rewrite (inner_loop_mem libm m1 m2).
  destruct (inner_loop _ js (first_trace o st)) as [s| |]; cbn [bind]; [|reflexivity..].
  destruct (package s) as [tz| |]; cbn [bind]; [|reflexivity..].
  apply IH.
Qed.

(** C5: the [Art] that [CreateThread] returns for a stroke list is the same
    in every run: it does not depend on what the uninitialised pointers of
    the search node hold, and on a mesh that fits the two runs both return,
    with the same number of threads and, thread by thread, the same knots,
    points, tangents and over/under flags. *)
Theorem CreateThread_deterministic (libm : Libm) (m1 m2 : Indeterminate)
    (strokes : StrokeList) :
  @CreateThread libm m1 strokes = @CreateThread libm m2 strokes /\
  (fits strokes ->
   exists art : Art,
     @CreateThread libm m1 strokes = Ok art /\ @CreateThread libm m2 strokes = Ok art).
Proof.
  assert (E : @CreateThread libm m1 strokes = @CreateThread libm m2 strokes).
  { unfold CreateThread, CreateThread_run. now rewrite (outer_loop_mem libm m1 m2). }
  split; [exact E|]. intro Hfit.
  destruct (CreateThread_ok libm m1 strokes Hfit) as [art H].
  exists art. split; [exact H | now rewrite <- E].
Qed.

Lemma CreateThread_deterministic_witness :
  @CreateThread rational_libm zeroed_memory mesh_square
  = @CreateThread rational_libm stale_memory mesh_square /\
  exists art : Art,
    @CreateThread rational_libm zeroed_memory mesh_square = Ok art /\
    @CreateThread rational_libm stale_memory mesh_square = Ok art.
Proof.
  destruct (CreateThread_deterministic rational_libm zeroed_memory stale_memory mesh_square)
    as [E H].
  split; [exact E | exact (H fits_mesh_square)].
Defined.

(** ** The states at the loop heads *)

Lemma at_outer_head_inv (libm : Libm) (mem : Indeterminate) (strokes : StrokeList) (o : Outer) :
  at_outer_head strokes o -> outer_inv (map port (unused (Graph_ctor strokes))) o.
Proof.
  induction 1 as [|o o' Ho IH Hc Hb].
  - apply first_outer_inv.
  - destruct (outer_body_step (junctions (Graph_ctor strokes)) _ o IH Hc) as [Hstep _].
    now apply Hstep.
Qed.

Lemma at_inner_head_inv (libm : Libm) (mem : Indeterminate) (strokes : StrokeList) (s : Trace) :
  at_inner_head strokes s -> trace_inv s.
Proof.
  induction 1 as [o st Ho Hc Hst | s s' Hs IH Hb].
  - pose proof (at_outer_head_inv libm mem strokes o Ho) as (Hinv & _).
    rewrite (outer_cond_unused o Hinv) in Hc. apply Nat.ltb_lt in Hc.
    destruct (thread_start_ok _ _ Hinv Hc) as [st' [E Hk]].
    rewrite E in Hst. injection Hst as <-. split; assumption.
  - destruct (inner_body_ok (junctions (Graph_ctor strokes)) s IH)
      as (c & s1 & E & Hinv & Hk & _).
    rewrite E in Hb. injection Hb as -> ->. split; auto.
Qed.

Lemma sets_inv_subset (un uu : NodeSet) : sets_inv un uu -> set_subset uu un.
Proof.
  intros (_ & _ & _ & _ & Hu) n H. apply set_count_spec in H.
  destruct H as [u [Hin Hp]]. rewrite <- (set_count_by_port u n un Hp).
  apply known_count. now apply Hu.
Qed.

Lemma set_least_head (n : Node) (s : NodeSet) : set_ok (n :: s) -> set_least n (n :: s).
Proof.
  intro H. inversion H as [|? ? _ Hall]; subst. rewrite Forall_forall in Hall.
  split; [now left|]. intros m [<- | Hm]; [now left | right; now apply Hall].
Qed.

(** C6: when the outer loop starts a thread, the node it starts from is
    the first of the crossed-from-below set if that set is not empty, and
    else the least node of the unused set; [up] starts true in the first case
    and false in the second. *)
Theorem thread_start_choice (libm : Libm) (mem : Indeterminate)
    (strokes : StrokeList) (o : Outer) :
  at_outer_head strokes o -> outer_cond o = true ->
  exists (cur : Node) (up : bool),
    thread_start (o_unused o) (o_unusedUp o) = Ok (cur, up) /\
    (o_unusedUp o <> [] -> set_least cur (o_unusedUp o) /\ up = true) /\
    (o_unusedUp o = [] -> set_least cur (o_unused o) /\ up = false).
Proof.
  intros Ho Hc.
  pose proof (at_outer_head_inv libm mem strokes o Ho) as (Hinv & _).
  rewrite (outer_cond_unused o Hinv) in Hc. apply Nat.ltb_lt in Hc.
  destruct Hinv as (Hun & Huu & _). unfold thread_start, set_size, set_begin in *.
  destruct (o_unusedUp o) as [|u uu]; simpl.
  - destruct (o_unused o) as [|n un]; [simpl in Hc; lia|]. simpl.
    exists n, false. split; [reflexivity|]. split; [congruence|].
    intros _. split; [now apply set_least_head | reflexivity].
  - exists u, true. split; [reflexivity|]. split; [|discriminate].
    intros _. split; [now apply set_least_head | reflexivity].
Qed.

Lemma thread_start_choice_witness :
  exists (cur : Node) (up : bool),
    thread_start (unused (@Graph_ctor rational_libm mesh_one)) [] = Ok (cur, up) /\
    set_least cur (unused (@Graph_ctor rational_libm mesh_one)) /\ up = false.
Proof.
  destruct (thread_start_choice rational_libm zeroed_memory mesh_one
              (first_outer (@Graph_ctor rational_libm mesh_one)))
    as (cur & up & E & _ & H).
  - constructor.
  - vm_compute. reflexivity.
  - exists cur, up. split; [exact E|]. apply H. reflexivity.
Defined.

Lemma mark_above_subset (un uu uu' : NodeSet) (cur : Node) (up : bool) :
  set_subset uu un -> mark_above un uu cur up = Ok uu' -> set_subset uu' un.
Proof.
  intros Hs H. unfold mark_above in H.
  destruct (negb up && StrokeType_eqb (type cur) Cross); [|now injection H as <-].
  destruct (set_count (set_dir cur (GlanceDir (dir cur))) un) eqn:E1;
    [|now injection H as <-].
  invert_bind H. injection H as <-. intros k Hk.
  rewrite !set_count_insert in Hk. apply orb_true_iff in Hk.
  destruct Hk as [Hk | Hk].
  - apply orb_true_iff in Hk. destruct Hk as [Hk | Hk]; [now apply Hs|].
    apply Node_equiv_port in Hk. now rewrite <- (set_count_by_port _ _ _ Hk).
  - apply Node_equiv_port in Hk. now rewrite <- (set_count_by_port _ _ _ Hk).
Qed.

Lemma set_erase_subset (un uu : NodeSet) (n : Node) :
  set_subset uu un -> set_subset (set_erase n uu) (set_erase n un).
Proof.
  intros Hs k. rewrite !set_count_erase, !andb_true_iff. intros [H1 H2].
  split; [now apply Hs | exact H2].
Qed.

(** C9: at the head of the outer loop and at the head of the inner loop,
    every node of the crossed-from-below set is in the unused set; so the
    condition of the outer loop holds exactly when the unused set is not
    empty, the node a thread starts from is in the unused set, and so is the
    current node at every turn of the inner loop.  It is kept because the
    tracer inserts into the crossed-from-below set only nodes that are in the
    unused set, and erases a node from both sets at once. *)
Theorem crossed_below_subset (libm : Libm) (mem : Indeterminate) (strokes : StrokeList) :
  (forall o : Outer, at_outer_head strokes o ->
     set_subset (o_unusedUp o) (o_unused o) /\
     (outer_cond o = true <-> o_unused o <> []) /\
     (outer_cond o = true ->
      exists (cur : Node) (up : bool),
        thread_start (o_unused o) (o_unusedUp o) = Ok (cur, up) /\
        set_count cur (o_unused o) = true)) /\
  (forall s : Trace, at_inner_head strokes s ->
     set_subset (t_unusedUp s) (t_unused s) /\
     set_count (t_cur s) (t_unused s) = true) /\
  (forall (un uu uu' : NodeSet) (cur : Node) (up : bool),
     set_subset uu un -> mark_above un uu cur up = Ok uu' -> set_subset uu' un) /\
  (forall (un uu : NodeSet) (n : Node),
     set_subset uu un -> set_subset (set_erase n uu) (set_erase n un)).
Proof.
  split; [|split; [|split]].
  - intros o Ho. pose proof (at_outer_head_inv libm mem strokes o Ho) as (Hinv & _).
    split; [now apply sets_inv_subset|]. rewrite (outer_cond_unused o Hinv).
    unfold set_size. split.
    + destruct (o_unused o) as [|n un]; simpl; split; intro H;
        try reflexivity; try discriminate. now destruct H.
    + intro Hc. apply Nat.ltb_lt in Hc.
      destruct (thread_start_ok _ _ Hinv Hc) as [[cur up] [E Hk]].
      exists cur, up. split; [exact E | now apply known_count].
  - intros s Hs. destruct (at_inner_head_inv libm mem strokes s Hs) as [Hinv Hk].
    split; [now apply sets_inv_subset | now apply known_count].
  - intros un uu uu' cur up. apply mark_above_subset.
  - intros un uu n. apply set_erase_subset.
Qed.

Lemma turn_one_Ok :
  @inner_body rational_libm zeroed_memory
    (junctions (@Graph_ctor rational_libm mesh_one)) trace_one
  = Ok (true, snd turn_one).
Proof. vm_compute. reflexivity. Qed.

Lemma turn_one_head :
  @at_inner_head rational_libm zeroed_memory mesh_one (snd turn_one).
Proof.
  apply (@inner_head_next rational_libm zeroed_memory mesh_one trace_one);
    [|exact turn_one_Ok].
  apply (@inner_head_first rational_libm zeroed_memory mesh_one
           (first_outer (@Graph_ctor rational_libm mesh_one))
           (match @thread_start (unused (@Graph_ctor rational_libm mesh_one)) [] with
            | Ok st => st
            | _ => (Node_ctor vec2_zero fLeft vec2_zero vec2_zero, false)
            end)).
  - constructor.
  - vm_compute. reflexivity.
  - vm_compute. reflexivity.
Qed.

Lemma crossed_below_subset_witness :
  length (t_unusedUp (snd turn_one)) = 2%nat /\
  set_subset (t_unusedUp (snd turn_one)) (t_unused (snd turn_one)) /\
  set_count (t_cur (snd turn_one)) (t_unused (snd turn_one)) = true /\
  (outer_cond (first_outer (@Graph_ctor rational_libm mesh_one)) = true <->
   unused (@Graph_ctor rational_libm mesh_one) <> []).
Proof.
  destruct (crossed_below_subset rational_libm zeroed_memory mesh_one) as (Hout & Hin & _).
  destruct (Hin (snd turn_one) turn_one_head) as [H1 H2].
  destruct (Hout (first_outer (@Graph_ctor rational_libm mesh_one))) as (_ & H3 & _);
    [constructor|].
  split; [vm_compute; reflexivity|]. split; [exact H1|]. split; [exact H2 | exact H3].
Defined.

(** ** The junctions and the step to the next midpoint *)

Lemma find_mid_nth (v : vec2) (l : list vec2) (i : nat) :
  find_mid v l = Some i ->
  nth_error l i = Some v /\ (i < length l)%nat /\
  forall k : nat, (k < i)%nat -> nth_error l k <> Some v.
Proof.
  revert i. induction l as [|w l IH]; simpl; intros i H; [discriminate|].
  destruct (vec2_eqb w v) eqn:E.
  - injection H as <-. apply vec2_eqb_eq in E. subst w.
    split; [reflexivity|]. split; [lia|]. intros k Hk. lia.
  - destruct (find_mid v l) as [j|]; [|discriminate]. injection H as <-.
    destruct (IH j eq_refl) as (H1 & H2 & H3). split; [exact H1|]. split; [lia|].
    intros [|k] Hk; simpl.
    + apply vec2_eqb_neq in E. congruence.
    + apply H3. lia.
Qed.

Lemma FindNext_cyclic (j : Junction) (v : vec2) (i : nat) :
  find_mid v (mids j) = Some i ->
  FindNext j v true = nth (S i mod length (mids j)) (mids j) v /\
  FindNext j v false = nth ((i + length (mids j) - 1) mod length (mids j)) (mids j) v.
Proof.
  intro H. destruct (find_mid_nth _ _ _ H) as (_ & Hi & _).
  unfold FindNext. rewrite H. split.
  - destruct (Nat.eqb_spec (S i) (length (mids j))) as [E | N].
    + now rewrite E, Nat.Div0.mod_same.
    + rewrite Nat.mod_small by lia. reflexivity.
  - destruct (Nat.eqb_spec i 0) as [-> | N].
    + simpl Nat.add. rewrite Nat.mod_small by lia. reflexivity.
    + replace (i + length (mids j) - 1)%nat with ((i - 1) + 1 * length (mids j))%nat by lia.
      rewrite Nat.Div0.mod_add, Nat.mod_small by lia. reflexivity.
Qed.

Section JunctionFacts.
Context {libm : Libm}.

Lemma VecAngleComp_asym (point v w : vec2) :
  VecAngleComp point v w = true -> VecAngleComp point w v = false.
Proof.
  unfold VecAngleComp. intro H.
  destruct (dbl_ltb (Stroke_GetAngle (MkStroke point w Cross))
                    (Stroke_GetAngle (MkStroke point v Cross))) eqn:E; [|reflexivity].
  pose proof (dbl_ltb_trans _ _ _ H E) as F. now rewrite dbl_ltb_irrefl in F.
Qed.

Lemma sort_insert_HdRel (point w v : vec2) (l : list vec2) :
  HdRel (fun v w => VecAngleComp point w v = false) w l ->
  VecAngleComp point v w = false ->
  HdRel (fun v w => VecAngleComp point w v = false) w
        (sort_insert (VecAngleComp point) v l).
Proof.
  intros H Hv. destruct l as [|u l]; simpl; [now constructor|].
  destruct (VecAngleComp point u v); constructor; [|exact Hv].
  now inversion H.
Qed.

Lemma sort_insert_sorted (point v : vec2) (l : list vec2) :
  angle_sorted point l -> angle_sorted point (sort_insert (VecAngleComp point) v l).
Proof.
  unfold angle_sorted. induction 1 as [|w l Hl IH Hw]; simpl.
  - constructor; constructor.
  - destruct (VecAngleComp point w v) eqn:E.
    + constructor; [exact IH|]. apply sort_insert_HdRel; [exact Hw|].
      now apply VecAngleComp_asym.
    + constructor; [now constructor|]. now constructor.
Qed.

Lemma list_sort_sorted (point : vec2) (l : list vec2) :
  angle_sorted point (list_sort (VecAngleComp point) l).
Proof.
  induction l as [|v l IH]; simpl; [constructor|]. now apply sort_insert_sorted.
Qed.

Lemma deref_sorted (js : JunctionMap) (p : JunctionPtr) :
  angle_sorted (position (deref (sort_junctions js) p))
               (mids (deref (sort_junctions js) p)).
Proof.
  induction js as [|[k j] js IH]; simpl; [constructor|].
  destruct (vec2_eqb k p); [apply list_sort_sorted | exact IH].
Qed.

Lemma Graph_junctions_sorted (strokes : StrokeList) (p : JunctionPtr) :
  angle_sorted (position (deref (junctions (Graph_ctor strokes)) p))
               (mids (deref (junctions (Graph_ctor strokes)) p)).
Proof.
  unfold Graph_ctor. destruct strokes as [|it strokes] using rev_ind.
  - simpl. constructor.
  - rewrite fold_left_app. simpl. apply deref_sorted.
Qed.

End JunctionFacts.

(** *** Midpoints stay on the lists of their junctions *)

Lemma find_mid_In (v : vec2) (l : list vec2) : In v l -> exists i, find_mid v l = Some i.
Proof.
  induction l as [|w l IH]; simpl; [intros []|]. intro H.
  destruct (vec2_eqb w v) eqn:E; [eauto|].
  destruct H as [-> | H]; [now rewrite vec2_eqb_refl in E|].
  destruct (IH H) as [i ->]. simpl. eauto.
Qed.

Lemma mids_push_same (p m : vec2) (js : JunctionMap) :
  In m (mids (deref (junction_push p m js) p)).
Proof.
  induction js as [|[k j] js IH]; simpl.
  - rewrite vec2_eqb_refl. now left.
  - destruct (vec2_eqb k p) eqn:E; simpl; rewrite E; [|exact IH].
    simpl. apply in_or_app. right. now left.
Qed.

Lemma mids_push_keep (p m q x : vec2) (js : JunctionMap) :
  In x (mids (deref js q)) -> In x (mids (deref (junction_push p m js) q)).
Proof.
  induction js as [|[k j] js IH]; simpl; [intros []|].
  destruct (vec2_eqb k p) eqn:E; simpl.
  - destruct (vec2_eqb k q); [|auto]. simpl. intro H. apply in_or_app. now left.
  - destruct (vec2_eqb k q); auto.
Qed.

Lemma sort_insert_In (comp : vec2 -> vec2 -> bool) (v x : vec2) (l : list vec2) :
  In x (sort_insert comp v l) <-> x = v \/ In x l.
Proof.
  induction l as [|w l IH]; simpl; [intuition|].
  destruct (comp w v); simpl; rewrite ?IH; intuition.
Qed.

Lemma list_sort_In (comp : vec2 -> vec2 -> bool) (x : vec2) (l : list vec2) :
  In x (list_sort comp l) <-> In x l.
Proof.
  induction l as [|w l IH]; simpl; [tauto|]. rewrite sort_insert_In, IH. intuition.
Qed.

Lemma mids_sort_keep (libm : Libm) (q x : vec2) (js : JunctionMap) :
  In x (mids (deref js q)) -> In x (mids (deref (sort_junctions js) q)).
Proof.
  induction js as [|[k j] js IH]; simpl; [intros []|].
  destruct (vec2_eqb k q); [|exact IH]. simpl. now rewrite list_sort_In.
Qed.

Lemma Graph_add_anchored (libm : Libm) (g : Graph) (it : Stroke) :
  Forall (anchored (junctions g)) (unused g) ->
  Forall (anchored (junctions (Graph_add g it))) (unused (Graph_add g it)).
Proof.
  intro H. rewrite Forall_forall in *. intros n Hn.
  rewrite Graph_add_unused in Hn.
  assert (Hkeep : forall q x, In x (mids (deref (junctions g) q)) ->
                    In x (mids (deref (junctions (Graph_add g it)) q))).
  { intros q x Hx. unfold Graph_add. cbn [junctions].
    now apply mids_sort_keep, mids_push_keep, mids_push_keep. }
  assert (Hnew : forall d, anchored (junctions (Graph_add g it)) (stroke_node it d)).
  { intro d. unfold anchored, Graph_add. cbn [junctions mid left right stroke_node]. split.
    - apply mids_sort_keep, mids_push_keep, mids_push_same.
    - apply mids_sort_keep, mids_push_same. }
  destruct (In_set_insert _ _ _ Hn) as [-> | H3]; [apply Hnew|].
  destruct (In_set_insert _ _ _ H3) as [-> | H2]; [apply Hnew|].
  destruct (In_set_insert _ _ _ H2) as [-> | H1]; [apply Hnew|].
  destruct (In_set_insert _ _ _ H1) as [-> | H0]; [apply Hnew|].
  destruct (H n H0) as [Hl Hr]. split; now apply Hkeep.
Qed.

Lemma Graph_ctor_anchored (libm : Libm) (strokes : StrokeList) :
  Forall (anchored (junctions (Graph_ctor strokes))) (unused (Graph_ctor strokes)).
Proof.
  unfold Graph_ctor. induction strokes as [|it strokes IH] using rev_ind.
  - constructor.
  - rewrite fold_left_app. simpl. now apply Graph_add_anchored.
Qed.

Lemma anchored_set_dir (js : JunctionMap) (n : Node) (d : Dir) :
  anchored js n -> anchored js (set_dir n d).
Proof. intro H. exact H. Qed.

Lemma Forall_set_erase (P : Node -> Prop) (n : Node) (s : NodeSet) :
  Forall P s -> Forall P (set_erase n s).
Proof.
  rewrite !Forall_forall. intros H m Hm. apply In_set_erase in Hm. now apply H.
Qed.

Lemma Forall_set_insert (P : Node -> Prop) (n : Node) (s : NodeSet) :
  P n -> Forall P s -> Forall P (set_insert n s).
Proof.
  rewrite !Forall_forall. intros Hn H m Hm.
  destruct (In_set_insert _ _ _ Hm) as [-> | Hm']; auto.
Qed.

Lemma mark_above_anchored (js : JunctionMap) (un uu uu' : NodeSet) (cur : Node) (up : bool) :
  anchored js cur -> Forall (anchored js) uu ->
  mark_above un uu cur up = Ok uu' -> Forall (anchored js) uu'.
Proof.
  intros Hc Hu H. unfold mark_above in H.
  destruct (negb up && StrokeType_eqb (type cur) Cross); [|now injection H as <-].
  destruct (set_count (set_dir cur (GlanceDir (dir cur))) un);
    [|now injection H as <-].
  invert_bind H. injection H as <-.
  apply Forall_set_insert; [exact Hc|]. apply Forall_set_insert; [exact Hc | exact Hu].
Qed.

Lemma inner_body_anchored (libm : Libm) (mem : Indeterminate) (js : JunctionMap)
    (s s' : Trace) (c : bool) :
  Forall (anchored js) (t_unused s) -> Forall (anchored js) (t_unusedUp s) ->
  anchored js (t_cur s) ->
  inner_body js s = Ok (c, s') ->
  Forall (anchored js) (t_unused s') /\ Forall (anchored js) (t_unusedUp s') /\
  (c = true -> anchored js (t_cur s')).
Proof.
  intros Hun Huu Hc H. unfold inner_body in H.
  invert_bind H. invert_bind H. invert_bind H.
  pose proof (mark_above_anchored js _ _ _ _ _ Hc Huu E) as Hu1.
  destruct (sample js _ (t_up s)) as [[up' p] tg].
  assert (Hun' : Forall (anchored js)
            (set_erase (set_dir (t_cur s) (exit_dir (t_cur s)))
               (set_erase (t_cur s) (t_unused s))))
    by now apply Forall_set_erase, Forall_set_erase.
  assert (Huu' : Forall (anchored js)
            (set_erase (set_dir (t_cur s) (exit_dir (t_cur s)))
               (set_erase (t_cur s) u)))
    by now apply Forall_set_erase, Forall_set_erase.
  assert (Hfind : forall n it, set_find n
            (set_erase (set_dir (t_cur s) (exit_dir (t_cur s)))
               (set_erase (t_cur s) (t_unused s))) = Some it -> anchored js it).
  { intros n it F. apply set_find_some in F. destruct F as [F _].
    rewrite Forall_forall in Hun'. now apply Hun'. }
  match type of H with
  | match set_find ?n ?un with _ => _ end = _ =>
      destruct (set_find n un) as [it|] eqn:F1
  end.
  - apply Hfind in F1.
    match type of H with
    | (if ?c then _ else _) = _ => destruct c
    end.
    + match type of H with
      | (if ?c then _ else _) = _ => destruct c
      end; injection H as <- <-; cbn [t_unused t_unusedUp t_cur];
        (split; [assumption|]); (split; [assumption|]);
        first [discriminate | intros _; exact F1].
    + injection H as <- <-. cbn [t_unused t_unusedUp t_cur]. auto.
  - match type of H with
    | match set_find ?n ?un with _ => _ end = _ =>
        destruct (set_find n un) as [it|] eqn:F2
    end.
    + apply Hfind in F2. injection H as <- <-. cbn [t_unused t_unusedUp t_cur]. auto.
    + injection H as <- <-. cbn [t_unused t_unusedUp t_cur].
      split; [assumption|]. split; [assumption | discriminate].
Qed.

Lemma inner_loop_anchored (libm : Libm) (mem : Indeterminate) (js : JunctionMap)
    (fuel : nat) (s s' : Trace) :
  Forall (anchored js) (t_unused s) -> Forall (anchored js) (t_unusedUp s) ->
  anchored js (t_cur s) ->
  inner_loop fuel js s = Ok s' ->
  Forall (anchored js) (t_unused s') /\ Forall (anchored js) (t_unusedUp s').
Proof.
  revert s. induction fuel as [|fuel IH]; intros s Hun Huu Hc H; simpl in H;
    [discriminate|].
  invert_bind H. destruct u as [c s1].
  destruct (inner_body_anchored libm mem js s s1 c Hun Huu Hc E) as (H1 & H2 & H3).
  simpl in H. destruct c.
  - apply (IH s1); auto.
  - injection H as <-. auto.
Qed.

Lemma thread_start_anchored (js : JunctionMap) (un uu : NodeSet) (st : Node * bool) :
  Forall (anchored js) un -> Forall (anchored js) uu ->
  thread_start un uu = Ok st -> anchored js (fst st).
Proof.
  intros Hun Huu H. unfold thread_start, set_size, set_begin in H.
  destruct uu as [|u uu]; simpl in H.
  - destruct un as [|n un]; simpl in H; [discriminate|]. injection H as <-.
    now inversion Hun.
  - injection H as <-. now inversion Huu.
Qed.

Lemma at_outer_head_anchored (libm : Libm) (mem : Indeterminate)
    (strokes : StrokeList) (o : Outer) :
  at_outer_head strokes o ->
  Forall (anchored (junctions (Graph_ctor strokes))) (o_unused o) /\
  Forall (anchored (junctions (Graph_ctor strokes))) (o_unusedUp o).
Proof.
  induction 1 as [|o o' Ho [IH1 IH2] Hc Hb].
  - split; [apply Graph_ctor_anchored | constructor].
  - unfold outer_body in Hb. invert_bind Hb. invert_bind Hb. invert_bind Hb.
    injection Hb as <-. simpl.
    apply (inner_loop_anchored libm mem _ _ (first_trace o u) u0 IH1 IH2
             (thread_start_anchored _ _ _ _ IH1 IH2 E) E0).
Qed.

Lemma at_inner_head_anchored (libm : Libm) (mem : Indeterminate)
    (strokes : StrokeList) (s : Trace) :
  at_inner_head strokes s ->
  Forall (anchored (junctions (Graph_ctor strokes))) (t_unused s) /\
  Forall (anchored (junctions (Graph_ctor strokes))) (t_unusedUp s) /\
  anchored (junctions (Graph_ctor strokes)) (t_cur s).
Proof.
  induction 1 as [o st Ho Hc Hst | s s' Hs (IH1 & IH2 & IH3) Hb].
  - destruct (at_outer_head_anchored libm mem strokes o Ho) as [H1 H2].
    cbn [first_trace t_unused t_unusedUp t_cur].
    split; [exact H1|]. split; [exact H2|].
    exact (thread_start_anchored _ _ _ _ H1 H2 Hst).
  - destruct (inner_body_anchored libm mem _ s s' true IH1 IH2 IH3 Hb) as (H1 & H2 & H3).
    auto.
Qed.

Lemma exit_junction_end (cur : Node) :
  let exit := exit_junction (set_dir cur (exit_dir cur)) (entry_junction cur) in
  exit = left cur \/ exit = right cur.
Proof.
  unfold exit_junction, entry_junction. simpl.
  destruct (negb (StrokeType_eqb (type cur) Bounce)).
  - destruct (ptr_eqb _ (right cur)); auto.
  - destruct (Dir_eqb (dir cur) fLeft || Dir_eqb (dir cur) bLeft); auto.
Qed.

Lemma inner_body_next (libm : Libm) (mem : Indeterminate) (js : JunctionMap)
    (s s' : Trace) :
  inner_body js s = Ok (true, s') ->
  mid (t_cur s') =
  FindNext (deref js (exit_junction (set_dir (t_cur s) (exit_dir (t_cur s)))
                                    (entry_junction (t_cur s))))
           (mid (t_cur s)) (is_clockwise (exit_dir (t_cur s))).
Proof.
  unfold inner_body. intro H. invert_bind H. invert_bind H. invert_bind H.
  destruct (sample js _ (t_up s)) as [[up' p] tg].
  match type of H with
  | match set_find ?n ?un with _ => _ end = _ =>
      destruct (set_find n un) as [it|] eqn:F1
  end.
  - apply set_find_some in F1. destruct F1 as [_ Hp]. injection Hp as Hm _.
    match type of H with
    | (if ?c then _ else _) = _ => destruct c
    end.
    + match type of H with
      | (if ?c then _ else _) = _ => destruct c
      end; [discriminate|]. injection H as <-. exact Hm.
    + injection H as <-. exact Hm.
  - match type of H with
    | match set_find ?n ?un with _ => _ end = _ =>
        destruct (set_find n un) as [it|] eqn:F2
    end; [|discriminate].
    apply set_find_some in F2. destruct F2 as [_ Hp]. injection Hp as Hm _.
    injection H as <-. exact Hm.
Qed.

Lemma inner_body_step (libm : Libm) (mem : Indeterminate) (js : JunctionMap)
    (s s' : Trace) (c : bool) :
  inner_body js s = Ok (c, s') ->
  let cur := t_cur s in
  let out := set_dir cur (exit_dir cur) in
  let exit := exit_junction out (entry_junction cur) in
  let clockwise := is_clockwise (dir out) in
  let next := FindNext (deref js exit) (mid cur) clockwise in
  let d := if clockwise then fRight else bRight in
  (t_unused s' = set_erase out (set_erase cur (t_unused s)) /\
   t_visits s' = t_visits s ++ [port cur; port out]) /\
  (c = true ->
   mid (t_cur s') = next /\ (dir (t_cur s') = d \/ dir (t_cur s') = CrossDir d) /\
   set_count (t_cur s') (t_unused s') = true) /\
  (c = false ->
   forall n : Node, port n = (next, CrossDir d) -> set_count n (t_unused s') = false).
Proof.
  unfold inner_body. intro H. invert_bind H. invert_bind H. invert_bind H.
  destruct (sample js _ (t_up s)) as [[up' p] tg].
  rewrite <- app_assoc in H. simpl app in H. cbv zeta.
  match type of H with
  | match set_find ?n ?un with _ => _ end = _ =>
      destruct (set_find n un) as [it|] eqn:F1
  end.
  - apply set_find_some in F1. destruct F1 as [Hin Hp]. injection Hp as Hm Hd.
    match type of H with
    | (if ?b then _ else _) = _ => destruct b
    end.
    + match type of H with
      | (if ?b then _ else _) = _ => destruct b eqn:Hc
      end; injection H as <- <-; cbn [t_unused t_visits t_cur];
        (split; [split; reflexivity|]).
      * split; [discriminate|]. intros _ n Hn. apply negb_true_iff in Hc. rewrite <- Hc.
        apply set_count_by_port. rewrite Hn, port_set_dir, Hm, Hd. reflexivity.
      * split; [|discriminate]. intros _. cbn [mid dir set_dir].
        split; [exact Hm|]. split; [right; now rewrite Hd|].
        now apply negb_false_iff in Hc.
    + injection H as <- <-. cbn [t_unused t_visits t_cur].
      split; [split; reflexivity|]. split; [|discriminate].
      intros _. split; [exact Hm|]. split; [now left | now apply set_count_In].
  - match type of H with
    | match set_find ?n ?un with _ => _ end = _ =>
        destruct (set_find n un) as [it|] eqn:F2
    end; injection H as <- <-; cbn [t_unused t_visits t_cur];
      (split; [split; reflexivity|]).
    + apply set_find_some in F2. destruct F2 as [Hin Hp]. injection Hp as Hm Hd.
      split; [|discriminate]. intros _. split; [exact Hm|].
      split; [now right | now apply set_count_In].
    + split; [discriminate|]. intros _ n Hn.
      match type of F2 with
      | set_find ?m ?un = None =>
          rewrite (set_count_by_port n m un) by (rewrite Hn; reflexivity);
          unfold set_count; now rewrite F2
      end.
Qed.

(** C7: at every turn of the inner loop the thread leaves a [Bounce] node
    through the junction it entered from, and a node of another type through
    the junction at the other end of the stroke.  The turn takes the entry
    port and the exit port of the current node out of the unused set, and
    looks for its next node at the midpoint that [FindNext] returns at the
    exit junction for the current midpoint, clockwise exactly when the exit
    direction is [fLeft] or [bRight]: when the loop goes on, the next node is
    an unused node of that midpoint, in the direction of the search ([fRight]
    when clockwise, [bRight] otherwise) or in the opposite direction; when the
    loop ends, the unused set has no node of that midpoint in the opposite
    direction.  [FindNext] steps from the first place of the
    midpoint in the list of the junction to the next place, cyclically, when
    clockwise, and to the previous place otherwise; the list of every
    junction of the graph is in ascending order of angle, and at every turn
    of a run the current midpoint is on the list of the exit junction. *)
Theorem inner_step_exit_and_next (libm : Libm) (mem : Indeterminate) (js : JunctionMap)
    (s s' : Trace) (c : bool) :
  inner_body js s = Ok (c, s') ->
  let cur := t_cur s in
  let entry := entry_junction cur in
  let out := set_dir cur (exit_dir cur) in
  let exit := exit_junction out entry in
  let clockwise := is_clockwise (dir out) in
  let next := FindNext (deref js exit) (mid cur) clockwise in
  let d := if clockwise then fRight else bRight in
  (entry = left cur \/ entry = right cur) /\
  (type cur = Bounce -> exit = entry) /\
  (type cur <> Bounce ->
   (entry = left cur -> exit = right cur) /\
   (entry = right cur -> exit = left cur) /\
   (left cur <> right cur -> exit <> entry)) /\
  (clockwise = true <-> dir out = fLeft \/ dir out = bRight) /\
  (t_unused s' = set_erase out (set_erase cur (t_unused s)) /\
   t_visits s' = t_visits s ++ [port cur; port out]) /\
  (c = true ->
   mid (t_cur s') = next /\
   (dir (t_cur s') = d \/ dir (t_cur s') = CrossDir d) /\
   set_count (t_cur s') (t_unused s') = true) /\
  (c = false ->
   forall n : Node, port n = (next, CrossDir d) -> set_count n (t_unused s') = false) /\
  (forall (j : Junction) (v : vec2) (i : nat),
     find_mid v (mids j) = Some i ->
     nth_error (mids j) i = Some v /\
     FindNext j v true = nth (S i mod length (mids j)) (mids j) v /\
     FindNext j v false
     = nth ((i + length (mids j) - 1) mod length (mids j)) (mids j) v) /\
  (forall (strokes : StrokeList) (p : JunctionPtr),
     angle_sorted (position (deref (junctions (Graph_ctor strokes)) p))
                  (mids (deref (junctions (Graph_ctor strokes)) p))) /\
  (forall (strokes : StrokeList) (t : Trace),
     at_inner_head strokes t ->
     exists i : nat,
       find_mid (mid (t_cur t))
         (mids (deref (junctions (Graph_ctor strokes))
                  (exit_junction (set_dir (t_cur t) (exit_dir (t_cur t)))
                                 (entry_junction (t_cur t)))))
       = Some i).
Proof.
  intros H cur entry out exit clockwise next d.
  assert (He : entry = left cur \/ entry = right cur).
  { unfold entry, entry_junction.
    destruct (Dir_eqb (dir cur) fLeft || Dir_eqb (dir cur) bLeft); auto. }
  destruct (inner_body_step libm mem js s s' c H) as (Hstep & Hgo & Hstop).
  split; [exact He|].
  split; [|split; [|split; [|split; [|split; [|split; [|split; [|split]]]]]]].
  - intro Ht. unfold exit, exit_junction. simpl. now rewrite Ht.
  - intro Ht. unfold exit, exit_junction. simpl type. simpl left. simpl right.
    replace (negb (StrokeType_eqb (type cur) Bounce)) with true
      by (now destruct (type cur)).
    unfold ptr_eqb. destruct (vec2_eqb entry (right cur)) eqn:E.
    + apply vec2_eqb_eq in E. repeat split; congruence.
    + apply vec2_eqb_neq in E. destruct He as [He | He]; [|congruence].
      repeat split; congruence.
  - unfold clockwise, is_clockwise. rewrite orb_true_iff, !Dir_eqb_eq. tauto.
  - exact Hstep.
  - exact Hgo.
  - exact Hstop.
  - intros j v i Hf. destruct (find_mid_nth _ _ _ Hf) as (Hn & _).
    destruct (FindNext_cyclic j v i Hf) as [H1 H2]. auto.
  - intros strokes p. apply Graph_junctions_sorted.
  - intros strokes t Ht.
    destruct (at_inner_head_anchored libm mem strokes t Ht) as (_ & _ & Hl & Hr).
    apply find_mid_In.
    destruct (exit_junction_end (t_cur t)) as [-> | ->]; assumption.
Qed.

Lemma turn_square_Ok :
  @inner_body rational_libm zeroed_memory
    (junctions (@Graph_ctor rational_libm mesh_square)) trace_square
  = Ok (true, snd turn_square).
Proof. vm_compute. reflexivity. Qed.

Lemma inner_step_exit_and_next_witness :
  let js := junctions (@Graph_ctor rational_libm mesh_square) in
  mid (t_cur trace_square) = pt 0 1 /\
  type (t_cur trace_square) = Glance /\
  exit_junction (set_dir (t_cur trace_square) (exit_dir (t_cur trace_square)))
                (entry_junction (t_cur trace_square)) = pt 0 2 /\
  mids (deref js (pt 0 2)) = [pt 0 1; pt 1 2] /\
  mid (t_cur (snd turn_square)) = FindNext (deref js (pt 0 2)) (pt 0 1) false /\
  mid (t_cur (snd turn_square)) = pt 1 2 /\
  set_count (t_cur (snd turn_square)) (t_unused (snd turn_square)) = true /\
  length (t_unused trace_square) = 16%nat /\
  length (t_unused (snd turn_square)) = 14%nat /\
  t_visits (snd turn_square) = [(pt 0 1, fLeft); (pt 0 1, fRight)].
Proof.
  intro js.
  destruct (inner_step_exit_and_next rational_libm zeroed_memory _ _ _ _ turn_square_Ok)
    as (_ & _ & Hexit & _ & (Hun & Hvs) & Hgo & _).
  destruct (Hgo eq_refl) as (Hnext & _ & Hin).
  assert (Ht : type (t_cur trace_square) <> Bounce) by (vm_compute; discriminate).
  assert (He : entry_junction (t_cur trace_square) = left (t_cur trace_square))
    by (vm_compute; reflexivity).
  destruct (Hexit Ht) as (Hl & _). specialize (Hl He).
  assert (Er : right (t_cur trace_square) = pt 0 2) by (vm_compute; reflexivity).
  assert (Em : mid (t_cur trace_square) = pt 0 1) by (vm_compute; reflexivity).
  assert (Ec : is_clockwise (dir (set_dir (t_cur trace_square)
                                          (exit_dir (t_cur trace_square)))) = false)
    by (vm_compute; reflexivity).
  rewrite Hl, Er, Em, Ec in Hnext.
  split; [exact Em|]. split; [vm_compute; reflexivity|].
  split; [now rewrite Hl|]. split; [vm_compute; reflexivity|].
  split; [exact Hnext|]. split; [rewrite Hnext; vm_compute; reflexivity|].
  split; [exact Hin|]. split; [vm_compute; reflexivity|].
  split; [rewrite Hun; vm_compute; reflexivity|].
  rewrite Hvs. vm_compute. reflexivity.
Defined.

(** ** Degenerate strokes *)

Lemma mesh_point_invalid : ~ valid_mesh mesh_point.
Proof. intro H. inversion H as [|it l Hit _]; subst. now apply Hit. Qed.

Lemma fits_mesh_point : fits mesh_point.
Proof. unfold fits. simpl. lia. Qed.

(** C4, as stated, fails: a mesh whose only stroke has coincident ends is
    not rejected; the constructor builds a graph of four ports for it, and
    [CreateThread], which constructs the graph first, returns an [Art] of
    one thread.  The same holds of a mesh that lists a stroke twice. *)
Lemma degenerate_stroke_accepted :
  ~ valid_mesh mesh_point /\
  length (unused (@Graph_ctor rational_libm mesh_point)) = 4%nat /\
  (exists art : Art,
     @CreateThread rational_libm zeroed_memory mesh_point = Ok art /\
     GetThreadCount art = 1%nat) /\
  (exists art : Art,
     @CreateThread rational_libm zeroed_memory mesh_twice = Ok art /\
     GetThreadCount art = 1%nat).
Proof.
  split; [exact mesh_point_invalid|]. split; [vm_compute; reflexivity|].
  split; eexists; (split; [vm_compute; reflexivity|]); vm_compute; reflexivity.
Qed.

(** C4, amended: the constructor of the graph rejects nothing.  For every
    stroke list, with or without strokes of coincident ends and with or
    without repeated strokes, it builds a graph whose unused set is a
    well-formed set that holds exactly the four ports of each distinct
    midpoint, and on a mesh that fits [CreateThread] returns an [Art]. *)
Theorem graph_built_for_every_mesh (libm : Libm) (mem : Indeterminate)
    (strokes : StrokeList) :
  set_ok (unused (Graph_ctor strokes)) /\
  Permutation (map port (unused (Graph_ctor strokes))) (ports_of (midpoints strokes)) /\
  (fits strokes -> exists art : Art, CreateThread strokes = Ok art).
Proof.
  split; [|split].
  - now destruct (Graph_ctor_inv strokes) as (H & _).
  - apply graph_ports.
  - apply CreateThread_ok.
Qed.

Lemma graph_built_for_every_mesh_witness :
  ~ valid_mesh mesh_point /\
  exists art : Art, @CreateThread rational_libm zeroed_memory mesh_point = Ok art.
Proof.
  split; [exact mesh_point_invalid|].
  destruct (graph_built_for_every_mesh rational_libm zeroed_memory mesh_point)
    as (_ & _ & H).
  exact (H fits_mesh_point).
Defined.

(** ** The fuel is enough *)

Lemma Spline_ctor_fuel {ST : Type} (xs : list double) (ys : list ST) (n : nat)
    (loop copy : bool) :
  Spline_ctor xs ys n loop copy <> OutOfFuel.
Proof.
  unfold Spline_ctor.
  destruct (1 <? Z.of_nat n mod 2 ^ 30)%Z; cbn [bind assert]; [|discriminate].
  destruct ((n <=? length xs)%nat && (n <=? length ys)%nat); cbn [bind assert];
    [|discriminate].
  match goal with
  | |- bind (assert ?c) _ <> _ => destruct c; cbn [bind assert]; discriminate
  end.
Qed.

Lemma package_fuel (s : Trace) : package s <> OutOfFuel.
Proof.
  unfold package, Hermite_ctor, Step_ctor.
  destruct (front (t_thread s)) as [p| |] eqn:E1; cbn [bind];
    [|discriminate | now destruct (t_thread s)].
  destruct (front (t_angles s)) as [tg| |] eqn:E2; cbn [bind];
    [|discriminate | now destruct (t_angles s)].
  destruct (front (t_zs s)) as [u| |] eqn:E3; cbn [bind];
    [|discriminate | now destruct (t_zs s)].
  match goal with
  | |- bind (bind ?r _) _ <> _ =>
      pose proof (Spline_ctor_fuel (knots (length (t_thread s))) (t_thread s ++ [p])
                    (length (t_thread s) + 1) true true) as F1;
      destruct r; cbn [bind]; [|discriminate | contradiction]
  end.
  match goal with
  | |- bind (bind (assert ?c) _) _ <> _ => destruct c; cbn [bind assert]; [|discriminate]
  end.
  pose proof (Spline_ctor_fuel (knots (length (t_thread s))) (t_zs s ++ [u])
                (length (t_thread s) + 1) true true) as F2.
  destruct (Spline_ctor (knots (length (t_thread s))) (t_zs s ++ [u])
              (length (t_thread s) + 1) true true); cbn [bind];
    [discriminate | discriminate | contradiction].
Qed.

Lemma outer_loop_fuel (libm : Libm) (mem : Indeterminate) (js : JunctionMap)
    (init : list Port) (fuel : nat) (o : Outer) :
  outer_inv init o -> (length (o_unused o) <= fuel)%nat ->
  outer_loop fuel js o <> OutOfFuel.
Proof.
  revert o. induction fuel as [|fuel IH]; intros o Hinv Hf; simpl;
    destruct (outer_cond o) eqn:Hc; try discriminate.
  - destruct Hinv as (Hs & _). rewrite (outer_cond_unused o Hs) in Hc.
    apply Nat.ltb_lt in Hc. unfold set_size in Hc. lia.
  - destruct (outer_body_step js init o Hinv Hc) as [Hstep _].
    destruct (outer_body js o) as [o1| |] eqn:E; cbn [bind]; [|discriminate|].
    + destruct (Hstep o1 eq_refl) as [Hinv1 Hlt]. apply IH; [exact Hinv1 | lia].
    + exfalso. pose proof Hinv as (Hs & _).
      rewrite (outer_cond_unused o Hs) in Hc. apply Nat.ltb_lt in Hc.
      destruct (thread_start_ok _ _ Hs Hc) as [st [Est Hk]].
      destruct (inner_loop_ok js (S (set_size (o_unused o))) (first_trace o st))
        as (s & k & Ei & _); [split; assumption | unfold set_size; simpl; lia |].
      unfold outer_body in E. rewrite Est in E. cbn [bind] in E.
      rewrite Ei in E. cbn [bind] in E.
      destruct (package s) as [tz| |] eqn:Ep; cbn [bind] in E; try discriminate.
      now apply (package_fuel s).
Qed.

(** The model of [CreateThread] never runs out of fuel: on every stroke
    list it returns an [Art] or stops at a failed assertion. *)
Lemma CreateThread_fuel (libm : Libm) (mem : Indeterminate) (strokes : StrokeList) :
  CreateThread strokes <> OutOfFuel.
Proof.
  unfold CreateThread.
  pose proof (outer_loop_fuel libm mem (junctions (Graph_ctor strokes)) _
                (set_size (unused (Graph_ctor strokes))) _
                (first_outer_inv strokes) (Nat.le_refl _)) as H.
  unfold CreateThread_run.
  destruct (outer_loop _ _ (first_outer (Graph_ctor strokes))); cbn [bind];
    [discriminate | discriminate | contradiction].
Qed.

(** * More properties of the code *)

(** ** The orders of cknot.cpp *)

(** X1: [vec2::operator<] is a strict total order, and [vec2::operator==]
    is its equivalence: no point is less than itself, the order is
    transitive, and two points are equal exactly when neither is less than
    the other. *)
Theorem vec2_order (u v w : vec2) :
  vec2_ltb u u = false /\
  (vec2_ltb u v = true -> vec2_ltb v w = true -> vec2_ltb u w = true) /\
  (vec2_ltb u v = true -> vec2_ltb v u = false) /\
  (vec2_eqb u v = true <-> vec2_ltb u v = false /\ vec2_ltb v u = false).
Proof.
  split; [apply vec2_ltb_irrefl|]. split; [apply vec2_ltb_trans|]. split.
  - intro H. destruct (vec2_ltb v u) eqn:E; [|reflexivity].
    pose proof (vec2_ltb_trans _ _ _ H E) as F. now rewrite vec2_ltb_irrefl in F.
  - split.
    + intro H. apply vec2_eqb_eq in H. subst v. now rewrite vec2_ltb_irrefl.
    + intros [H1 H2]. apply vec2_eqb_eq. now apply vec2_total.
Qed.

Lemma vec2_order_witness :
  vec2_ltb (pt 0 5) (pt 2 (-3)) = true /\ vec2_eqb (pt 0 5) (pt 0 5) = true.
Proof.
  destruct (vec2_order (pt 0 5) (pt 1 0) (pt 2 (-3))) as (_ & Ht & _ & _).
  destruct (vec2_order (pt 0 5) (pt 0 5) (pt 0 5)) as (Hi & _ & _ & He).
  split.
  - apply Ht; vm_compute; reflexivity.
  - apply He. split; exact Hi.
Defined.

(** X2: [Node::operator<] is a strict total order of the ports: it is
    irreflexive and transitive, and two nodes are equivalent for a
    [std::set<Node>] exactly when they have the same midpoint and the same
    direction, whatever their type, normal and junctions. *)
Theorem Node_order (l m r : Node) :
  Node_lt l l = false /\
  (Node_lt l m = true -> Node_lt m r = true -> Node_lt l r = true) /\
  (Node_lt l r = true -> Node_lt r l = false) /\
  (Node_equiv l r = true <-> mid l = mid r /\ dir l = dir r).
Proof.
  split; [apply Node_lt_irrefl|]. split; [apply Node_lt_trans|]. split.
  - intro H. destruct (Node_lt r l) eqn:E; [|reflexivity].
    pose proof (Node_lt_trans _ _ _ H E) as F. now rewrite Node_lt_irrefl in F.
  - rewrite Node_equiv_port. unfold port. split.
    + intro H. injection H. auto.
    + intros [-> ->]. reflexivity.
Qed.

Lemma Node_order_witness :
  Node_equiv (MkNode (pt 1 0) fLeft Cross (pt 0 2) (pt 0 0) (pt 2 0))
             (MkNode (pt 1 0) fLeft Bounce (pt 5 5) (pt 7 7) (pt 9 9)) = true.
Proof.
  destruct (Node_order (MkNode (pt 1 0) fLeft Cross (pt 0 2) (pt 0 0) (pt 2 0))
                       (MkNode (pt 1 0) fLeft Cross (pt 0 2) (pt 0 0) (pt 2 0))
                       (MkNode (pt 1 0) fLeft Bounce (pt 5 5) (pt 7 7) (pt 9 9)))
    as (_ & _ & _ & He).
  apply He. split; reflexivity.
Defined.

(** ** The direction algebra as a group *)

(** X3: the three direction functions commute and each is the composite of
    the other two (with the identity they form a Klein four-group).
    [BounceDir] changes front to back and keeps the side, [GlanceDir] changes
    the side and keeps front or back, [CrossDir] changes both. *)
Theorem direction_group (d : Dir) :
  CrossDir d = BounceDir (GlanceDir d) /\ CrossDir d = GlanceDir (BounceDir d) /\
  BounceDir d = CrossDir (GlanceDir d) /\ BounceDir d = GlanceDir (CrossDir d) /\
  GlanceDir d = BounceDir (CrossDir d) /\ GlanceDir d = CrossDir (BounceDir d) /\
  isFront (BounceDir d) = negb (isFront d) /\ isLeft (BounceDir d) = isLeft d /\
  isFront (GlanceDir d) = isFront d /\ isLeft (GlanceDir d) = negb (isLeft d) /\
  isFront (CrossDir d) = negb (isFront d) /\ isLeft (CrossDir d) = negb (isLeft d).
Proof. destruct d; repeat split. Qed.

(** ** FindNext *)

Lemma find_mid_None (v : vec2) (l : list vec2) : find_mid v l = None <-> ~ In v l.
Proof.
  split.
  - intros H Hin. destruct (find_mid_In v l Hin) as [i E]. congruence.
  - intro H. destruct (find_mid v l) as [i|] eqn:E; [|reflexivity].
    destruct (find_mid_nth _ _ _ E) as (Hn & _). apply nth_error_In in Hn. contradiction.
Qed.

Lemma find_mid_NoDup (l : list vec2) (k : nat) (v : vec2) :
  NoDup l -> nth_error l k = Some v -> find_mid v l = Some k.
Proof.
  intros Hnd Hk. destruct (find_mid_In v l (nth_error_In _ _ Hk)) as [i E].
  destruct (find_mid_nth _ _ _ E) as (Hi & _ & _).
  rewrite E. f_equal.
  apply (proj1 (NoDup_nth_error l) Hnd); [|congruence].
  apply nth_error_Some. congruence.
Qed.

(** X4: [Junction::FindNext] returns the midpoint it was given when that
    midpoint is not on the list of the junction, and an element of the list
    when it is; on a list of one midpoint it returns that midpoint. *)
Theorem FindNext_membership (j : Junction) (v : vec2) (clockwise : bool) :
  (~ In v (mids j) -> FindNext j v clockwise = v) /\
  (In v (mids j) -> In (FindNext j v clockwise) (mids j)) /\
  (mids j = [v] -> FindNext j v clockwise = v).
Proof.
  split; [|split].
  - intro H. apply find_mid_None in H. unfold FindNext. now rewrite H.
  - intro H. destruct (find_mid_In v (mids j) H) as [i E].
    destruct (find_mid_nth _ _ _ E) as (_ & Hi & _).
    destruct (FindNext_cyclic j v i E) as [H1 H2].
    destruct clockwise; [rewrite H1 | rewrite H2]; apply nth_In;
      apply Nat.mod_upper_bound; lia.
  - intro H. unfold FindNext. rewrite H. simpl. rewrite vec2_eqb_refl.
    now destruct clockwise.
Qed.

Lemma FindNext_membership_witness :
  FindNext (MkJunction (pt 0 0) [pt 1 0; pt 0 1]) (pt 5 5) true = pt 5 5 /\
  In (FindNext (MkJunction (pt 0 0) [pt 1 0; pt 0 1]) (pt 0 1) true) [pt 1 0; pt 0 1].
Proof.
  destruct (FindNext_membership (MkJunction (pt 0 0) [pt 1 0; pt 0 1]) (pt 5 5) true)
    as (H1 & _ & _).
  destruct (FindNext_membership (MkJunction (pt 0 0) [pt 1 0; pt 0 1]) (pt 0 1) true)
    as (_ & H2 & _).
  split.
  - apply H1. simpl. intros [H | [H | []]]; apply vec2_eqb_eq in H; discriminate.
  - apply H2. simpl. auto.
Defined.

(** X5: on a list without repeated midpoints, a step of [FindNext] one way
    and then a step the other way comes back to the midpoint it started
    from. *)
Theorem FindNext_round_trip (j : Junction) (v : vec2) (clockwise : bool) :
  NoDup (mids j) -> In v (mids j) ->
  FindNext j (FindNext j v clockwise) (negb clockwise) = v.
Proof.
  intros Hnd Hin. destruct (find_mid_In v (mids j) Hin) as [i E].
  destruct (find_mid_nth _ _ _ E) as (Hv & Hi & _).
  destruct (FindNext_cyclic j v i E) as [H1 H2].
  set (n := length (mids j)) in *.
  assert (Hback : forall k, (k < n)%nat ->
            find_mid (nth k (mids j) v) (mids j) = Some k).
  { intros k Hk. apply find_mid_NoDup; [exact Hnd|]. now apply nth_error_nth'. }
  assert (Hn : n <> 0%nat) by lia.
  destruct clockwise; simpl negb.
  - rewrite H1.
    destruct (FindNext_cyclic j _ _ (Hback (S i mod n)%nat
                (Nat.mod_upper_bound _ _ Hn))) as [_ H].
    rewrite H. fold n.
    replace ((S i mod n + n - 1) mod n)%nat with i.
    + now apply nth_error_nth.
    + destruct (Nat.eq_dec (S i) n) as [Ei | Ni].
      * rewrite Ei, Nat.Div0.mod_same. simpl.
        rewrite Nat.mod_small by lia. lia.
      * rewrite (Nat.mod_small (S i)) by lia.
        replace (S i + n - 1)%nat with (i + 1 * n)%nat by lia.
        rewrite Nat.Div0.mod_add, Nat.mod_small by lia. reflexivity.
  - rewrite H2.
    destruct (FindNext_cyclic j _ _ (Hback ((i + n - 1) mod n)%nat
                (Nat.mod_upper_bound _ _ Hn))) as [H _].
    rewrite H. fold n.
    replace (S ((i + n - 1) mod n) mod n)%nat with i.
    + now apply nth_error_nth.
    + destruct (Nat.eq_dec i 0) as [-> | Ni].
      * simpl Nat.add. rewrite (Nat.mod_small (n - 1)) by lia.
        replace (S (n - 1)) with n by lia. now rewrite Nat.Div0.mod_same.
      * replace (i + n - 1)%nat with ((i - 1) + 1 * n)%nat by lia.
        rewrite Nat.Div0.mod_add, (Nat.mod_small (i - 1)) by lia.
        replace (S (i - 1)) with i by lia. rewrite Nat.mod_small by lia. reflexivity.
Qed.

Lemma FindNext_round_trip_witness :
  FindNext (MkJunction (pt 0 0) [pt 1 0; pt 0 1; pt (-1) 0])
    (FindNext (MkJunction (pt 0 0) [pt 1 0; pt 0 1; pt (-1) 0]) (pt (-1) 0) true) false
  = pt (-1) 0.
Proof.
  apply (FindNext_round_trip (MkJunction (pt 0 0) [pt 1 0; pt 0 1; pt (-1) 0])
           (pt (-1) 0) true).
  - apply distinct_same_NoDup. vm_compute. reflexivity.
  - simpl. auto.
Defined.

(** ** The comparison of angles and the sort of the junctions *)

Section SortFacts.
Context {libm : Libm}.
Variable point : vec2.

Lemma VecAngleComp_irrefl (u : vec2) : VecAngleComp point u u = false.
Proof. apply dbl_ltb_irrefl. Qed.

Lemma VecAngleComp_trans (u v w : vec2) :
  VecAngleComp point u v = true -> VecAngleComp point v w = true ->
  VecAngleComp point u w = true.
Proof. apply dbl_ltb_trans. Qed.

Lemma VecAngleComp_between (u v w : vec2) :
  VecAngleComp point u w = true ->
  VecAngleComp point u v = true \/ VecAngleComp point v w = true.
Proof.
  unfold VecAngleComp.
  set (ku := Stroke_GetAngle (MkStroke point u Cross)).
  set (kv := Stroke_GetAngle (MkStroke point v Cross)).
  set (kw := Stroke_GetAngle (MkStroke point w Cross)).
  intro H. destruct (dbl_ltb ku kv) eqn:E1; [now left|]. right.
  destruct (dbl_ltb kv kw) eqn:E2; [reflexivity|].
  destruct (dbl_ltb kv ku) eqn:E3.
  - now rewrite (dbl_ltb_trans _ _ _ E3 H) in E2.
  - rewrite (dbl_total _ _ E1 E3) in H. congruence.
Qed.

Lemma sort_insert_snoc (v m : vec2) (l : list vec2) :
  sort_insert (VecAngleComp point) v (sort_snoc (VecAngleComp point) m l)
  = sort_snoc (VecAngleComp point) m (sort_insert (VecAngleComp point) v l).
Proof.
  induction l as [|w l IH]; simpl.
  - destruct (VecAngleComp point m v); reflexivity.
  - destruct (VecAngleComp point m w) eqn:Emw;
      destruct (VecAngleComp point w v) eqn:Ewv; simpl.
    + rewrite (VecAngleComp_trans _ _ _ Emw Ewv), Ewv, Emw. reflexivity.
    + rewrite Ewv. destruct (VecAngleComp point m v); simpl; rewrite ?Emw; reflexivity.
    + rewrite Ewv, Emw, IH. reflexivity.
    + rewrite Ewv.
      destruct (VecAngleComp point m v) eqn:Emv.
      * destruct (VecAngleComp_between m w v Emv); congruence.
      * simpl. rewrite Emw. reflexivity.
Qed.

Lemma list_sort_snoc (m : vec2) (l : list vec2) :
  list_sort (VecAngleComp point) (l ++ [m])
  = sort_snoc (VecAngleComp point) m (list_sort (VecAngleComp point) l).
Proof.
  induction l as [|v l IH]; simpl; [reflexivity|].
  now rewrite IH, sort_insert_snoc.
Qed.

Lemma sort_insert_head (v : vec2) (l : list vec2) :
  HdRel (fun v w => VecAngleComp point w v = false) v l ->
  sort_insert (VecAngleComp point) v l = v :: l.
Proof.
  intro H. destruct l as [|w l]; simpl; [reflexivity|].
  inversion H as [|? ? Hw]; subst. now rewrite Hw.
Qed.

Lemma list_sort_fixed (l : list vec2) :
  angle_sorted point l -> list_sort (VecAngleComp point) l = l.
Proof.
  unfold angle_sorted. induction 1 as [|v l Hl IH Hv]; simpl; [reflexivity|].
  rewrite IH. now apply sort_insert_head.
Qed.

Lemma list_sort_app_sorted (l e : list vec2) :
  list_sort (VecAngleComp point) (list_sort (VecAngleComp point) l ++ e)
  = list_sort (VecAngleComp point) (l ++ e).
Proof.
  induction e as [|m e IH] using rev_ind.
  - rewrite !app_nil_r. apply list_sort_fixed, list_sort_sorted.
  - rewrite !app_assoc, !list_sort_snoc. now rewrite IH.
Qed.

Lemma sort_insert_perm (v : vec2) (l : list vec2) :
  Permutation (sort_insert (VecAngleComp point) v l) (v :: l).
Proof.
  induction l as [|w l IH]; simpl; [reflexivity|].
  destruct (VecAngleComp point w v); [|reflexivity].
  rewrite IH. apply perm_swap.
Qed.

Lemma list_sort_perm (l : list vec2) :
  Permutation (list_sort (VecAngleComp point) l) l.
Proof.
  induction l as [|v l IH]; simpl; [reflexivity|].
  rewrite sort_insert_perm. now constructor.
Qed.

End SortFacts.

(** X6: [VecAngleComp] is a strict weak ordering, as [std::list::sort]
    requires of its comparison: it is irreflexive and transitive, and when
    [u] is before [w] any [v] is after [u] or before [w]. *)
Theorem VecAngleComp_strict_weak (libm : Libm) (point u v w : vec2) :
  VecAngleComp point u u = false /\
  (VecAngleComp point u v = true -> VecAngleComp point v w = true ->
   VecAngleComp point u w = true) /\
  (VecAngleComp point u w = true ->
   VecAngleComp point u v = true \/ VecAngleComp point v w = true).
Proof.
  split; [apply VecAngleComp_irrefl|]. split;
    [apply VecAngleComp_trans | apply VecAngleComp_between].
Qed.

Lemma VecAngleComp_strict_weak_witness :
  @VecAngleComp rational_libm (pt 0 0) (pt 1 0) (pt (-1) 0) = true.
Proof.
  destruct (VecAngleComp_strict_weak rational_libm (pt 0 0) (pt 1 0) (pt 0 1) (pt (-1) 0))
    as (_ & Ht & _).
  apply Ht; vm_compute; reflexivity.
Defined.

(** ** The junctions of the graph *)

Lemma deref_push (p m q : vec2) (js : JunctionMap) :
  deref (junction_push p m js) q
  = if vec2_eqb p q then MkJunction p (mids (deref js p) ++ [m]) else deref js q.
Proof.
  induction js as [|[k j] js IH]; simpl.
  - destruct (vec2_eqb p q); reflexivity.
  - destruct (vec2_eqb k p) eqn:Ekp; simpl.
    + apply vec2_eqb_eq in Ekp. subst k. destruct (vec2_eqb p q); reflexivity.
    + rewrite IH. destruct (vec2_eqb k q) eqn:Ekq; [|reflexivity].
      apply vec2_eqb_eq in Ekq. subst k.
      destruct (vec2_eqb p q) eqn:Epq; [|reflexivity].
      apply vec2_eqb_eq in Epq. subst q. now rewrite vec2_eqb_refl in Ekp.
Qed.

Lemma deref_sort (libm : Libm) (q : vec2) (js : JunctionMap) :
  deref (sort_junctions js) q
  = MkJunction (position (deref js q))
               (list_sort (VecAngleComp (position (deref js q))) (mids (deref js q))).
Proof.
  induction js as [|[k j] js IH]; simpl; [reflexivity|].
  destruct (vec2_eqb k q); [reflexivity | exact IH].
Qed.

Lemma incident_app (p : vec2) (l l' : StrokeList) :
  incident p (l ++ l') = incident p l ++ incident p l'.
Proof. unfold incident. apply flat_map_app. Qed.


Lemma incident_one (p : vec2) (it : Stroke) :
  incident p [it]
  = (if vec2_eqb (a it) p then [Stroke_GetMid it] else [])
    ++ (if vec2_eqb (b it) p then [Stroke_GetMid it] else []).
Proof. unfold incident. simpl. apply app_nil_r. Qed.

(** X7: the list of the junction at [p] that the constructor of [Graph]
    builds is the stable sort by angle around [p] of the midpoints pushed for
    [p], in the order of the strokes: sorting every junction after every
    stroke gives what one sort after the last stroke would give.  The junction
    at [p] has the position [p]; a point that is the end of no stroke has no
    junction, and its list is empty. *)
Theorem Graph_junction_lists (libm : Libm) (strokes : StrokeList) (p : vec2) :
  deref (junctions (Graph_ctor strokes)) p
  = MkJunction p (list_sort (VecAngleComp p) (incident p strokes)).
Proof.
  unfold Graph_ctor. revert p. induction strokes as [|it strokes IH] using rev_ind; intro p.
  - reflexivity.
  - rewrite fold_left_app. cbn [fold_left]. unfold Graph_add at 1. cbn [junctions].
    rewrite deref_sort, !deref_push, !IH, incident_app, incident_one.
    destruct (vec2_eqb (b it) p) eqn:Eb.
    + apply vec2_eqb_eq in Eb. subst p.
      destruct (vec2_eqb (a it) (b it)) eqn:Ea; cbn [position mids]; f_equal.
      * apply vec2_eqb_eq in Ea. rewrite Ea.
        rewrite <- app_assoc. apply list_sort_app_sorted.
      * apply list_sort_app_sorted.
    + destruct (vec2_eqb (a it) p) eqn:Ea; cbn [position mids].
      * apply vec2_eqb_eq in Ea. subst p. f_equal. rewrite app_nil_r.
        apply list_sort_app_sorted.
      * f_equal. rewrite app_nil_r. apply list_sort_fixed, list_sort_sorted.
Qed.

Lemma keys_push (p m q : vec2) (js : JunctionMap) :
  In q (map fst (junction_push p m js)) <-> q = p \/ In q (map fst js).
Proof.
  induction js as [|[k j] js IH]; simpl.
  - intuition.
  - destruct (vec2_eqb k p) eqn:E; simpl.
    + apply vec2_eqb_eq in E. subst k. intuition.
    + rewrite IH. intuition.
Qed.

Lemma keys_push_NoDup (p m : vec2) (js : JunctionMap) :
  NoDup (map fst js) -> NoDup (map fst (junction_push p m js)).
Proof.
  induction js as [|[k j] js IH]; simpl; intro H.
  - constructor; [intros []|constructor].
  - inversion H as [|? ? Hk Hjs]; subst.
    destruct (vec2_eqb k p) eqn:E; simpl; [exact H|].
    constructor; [|now apply IH].
    rewrite keys_push. intros [-> | Hin]; [|contradiction].
    now rewrite vec2_eqb_refl in E.
Qed.

Lemma keys_sort (libm : Libm) (js : JunctionMap) :
  map fst (sort_junctions js) = map fst js.
Proof. unfold sort_junctions. rewrite map_map. reflexivity. Qed.

Lemma entries_push (p m : vec2) (js : JunctionMap) :
  (forall k j, In (k, j) js -> position j = k /\ mids j <> []) ->
  forall k j, In (k, j) (junction_push p m js) -> position j = k /\ mids j <> [].
Proof.
  induction js as [|[k0 j0] js IH]; simpl; intros H k j Hin.
  - destruct Hin as [Hin | []]. injection Hin as <- <-. simpl. split; [reflexivity | discriminate].
  - destruct (vec2_eqb k0 p) eqn:E.
    + destruct Hin as [Hin | Hin]; [|apply H; now right].
      injection Hin as <- <-. apply vec2_eqb_eq in E. simpl. split; [now symmetry|].
      intro F. now apply app_eq_nil in F.
    + destruct Hin as [Hin | Hin]; [apply H; now left|].
      apply IH; [|exact Hin]. intros k' j' Hin'. apply H. now right.
Qed.

Lemma entries_sort (libm : Libm) (js : JunctionMap) :
  (forall k j, In (k, j) js -> position j = k /\ mids j <> []) ->
  forall k j, In (k, j) (sort_junctions js) -> position j = k /\ mids j <> [].
Proof.
  intros H k j Hin. unfold sort_junctions in Hin. apply in_map_iff in Hin.
  destruct Hin as [[k0 j0] [E Hin]]. injection E as <- <-. simpl.
  destruct (H k0 j0 Hin) as [Hp Hm]. split; [exact Hp|].
  intro F. apply Hm.
  apply Permutation_nil. rewrite <- F. apply list_sort_perm.
Qed.

Lemma endpoints_app (l l' : StrokeList) : endpoints (l ++ l') = endpoints l ++ endpoints l'.
Proof. unfold endpoints. apply flat_map_app. Qed.

Lemma Graph_add_junctions (libm : Libm) (g : Graph) (it : Stroke) :
  junctions (Graph_add g it)
  = sort_junctions (junction_push (b it) (Stroke_GetMid it)
                      (junction_push (a it) (Stroke_GetMid it) (junctions g))).
Proof. reflexivity. Qed.

(** X8: the constructor of [Graph] makes one junction for each distinct end
    of a stroke and none else; the junction stored under a key has that key
    for position, and its list of midpoints is not empty. *)
Theorem Graph_junction_map (libm : Libm) (strokes : StrokeList) :
  NoDup (map fst (junctions (Graph_ctor strokes))) /\
  (forall p : vec2,
     In p (map fst (junctions (Graph_ctor strokes))) <-> In p (endpoints strokes)) /\
  (forall (k : vec2) (j : Junction),
     In (k, j) (junctions (Graph_ctor strokes)) -> position j = k /\ mids j <> []).
Proof.
  unfold Graph_ctor. induction strokes as [|it strokes IH] using rev_ind.
  - simpl. split; [constructor|]. split; [tauto | intros k j []].
  - destruct IH as (Hnd & Hkeys & Hent).
    rewrite fold_left_app. cbn [fold_left]. rewrite !Graph_add_junctions.
    rewrite keys_sort. split; [|split].
    + now apply keys_push_NoDup, keys_push_NoDup.
    + intro p. rewrite !keys_push, Hkeys, endpoints_app, in_app_iff.
      unfold endpoints at 2. simpl. intuition.
    + apply entries_sort, entries_push, entries_push. exact Hent.
Qed.

Lemma Graph_junction_map_witness :
  In (pt 2 0) (map fst (junctions (@Graph_ctor rational_libm mesh_square))).
Proof.
  destruct (Graph_junction_map rational_libm mesh_square) as (_ & H & _).
  apply H. simpl. auto.
Defined.

Lemma find_app_first {A : Type} (f : A -> bool) (l l' : list A) :
  find f (l ++ l') = match find f l with Some e => Some e | None => find f l' end.
Proof.
  induction l as [|h l IH]; simpl; [reflexivity|]. now destruct (f h).
Qed.

Lemma first_stroke_at_None (m : vec2) (strokes : StrokeList) :
  ~ In m (map Stroke_GetMid strokes) -> first_stroke_at m strokes = None.
Proof.
  intro H. unfold first_stroke_at.
  destruct (find _ strokes) as [it|] eqn:E; [|reflexivity].
  apply find_some in E. destruct E as [Hin E]. apply vec2_eqb_eq in E.
  exfalso. apply H. rewrite <- E. now apply in_map.
Qed.

Lemma Graph_add_nodes (libm : Libm) (seen : list vec2) (g : Graph) (it : Stroke) (n : Node) :
  graph_inv seen (unused g) ->
  In n (unused (Graph_add g it)) ->
  In n (unused g) \/
  (~ In (Stroke_GetMid it) seen /\ n = stroke_node it (dir n)).
Proof.
  intros Hg Hn. rewrite Graph_add_unused in Hn.
  pose proof Hg as (Hok & _).
  set (s0 := unused g) in *.
  set (s1 := set_insert (stroke_node it fLeft) s0) in *.
  set (s2 := set_insert (stroke_node it fRight) s1) in *.
  set (s3 := set_insert (stroke_node it bLeft) s2) in *.
  assert (O1 : set_ok s1) by now apply set_ok_insert.
  assert (O2 : set_ok s2) by now apply set_ok_insert.
  assert (O3 : set_ok s3) by now apply set_ok_insert.
  assert (Hnew : forall d s, set_count (stroke_node it d) s = false ->
            (forall k, set_count k s0 = true -> set_count k s = true) ->
            ~ In (Stroke_GetMid it) seen).
  { intros d s Hc Hmono Hin.
    rewrite (Hmono (stroke_node it d)) in Hc; [discriminate|].
    now apply (graph_inv_count seen). }
  destruct (set_ok_insert_new _ _ _ O3 Hn) as [H3 | [-> Hc]].
  2:{ right. split; [|reflexivity]. apply (Hnew bRight s3 Hc).
      intros k Hk. now repeat apply set_count_insert_mono. }
  destruct (set_ok_insert_new _ _ _ O2 H3) as [H2 | [-> Hc]].
  2:{ right. split; [|reflexivity]. apply (Hnew bLeft s2 Hc).
      intros k Hk. now repeat apply set_count_insert_mono. }
  destruct (set_ok_insert_new _ _ _ O1 H2) as [H1 | [-> Hc]].
  2:{ right. split; [|reflexivity]. apply (Hnew fRight s1 Hc).
      intros k Hk. now repeat apply set_count_insert_mono. }
  destruct (set_ok_insert_new _ _ _ Hok H1) as [H0 | [-> Hc]]; [now left|].
  right. split; [|reflexivity]. apply (Hnew fLeft s0 Hc). auto.
Qed.

(** X9: every node of the unused set that the constructor of [Graph]
    builds carries the type, the normal and the two junctions of the first
    stroke of the list that has its midpoint: when several strokes share a
    midpoint, the later ones add no node and change none. *)
Theorem Graph_nodes_first_stroke (libm : Libm) (strokes : StrokeList) (n : Node) :
  In n (unused (Graph_ctor strokes)) ->
  exists it : Stroke,
    first_stroke_at (mid n) strokes = Some it /\ n = stroke_node it (dir n).
Proof.
  revert n. induction strokes as [|it strokes IH] using rev_ind; intros n Hn.
  - destruct Hn.
  - unfold Graph_ctor in Hn. rewrite fold_left_app in Hn. cbn [fold_left] in Hn.
    fold (Graph_ctor strokes) in Hn.
    unfold first_stroke_at. rewrite find_app_first. fold (first_stroke_at (mid n) strokes).
    destruct (Graph_add_nodes libm _ _ it n (Graph_ctor_inv strokes) Hn)
      as [Hold | [Hnew E]].
    + destruct (IH n Hold) as [it0 [F E]]. exists it0. now rewrite F.
    + exists it. rewrite first_stroke_at_None.
      * simpl. rewrite E at 1. cbn [mid stroke_node]. rewrite vec2_eqb_refl.
        split; [reflexivity | exact E].
      * rewrite E. exact Hnew.
Qed.

Lemma Graph_nodes_first_stroke_witness :
  exists it : Stroke,
    first_stroke_at (pt 1 1) mesh_x = Some it /\
    stroke_node (MkStroke (pt 0 0) (pt 2 2) Cross) bLeft = stroke_node it bLeft.
Proof.
  destruct (Graph_nodes_first_stroke rational_libm mesh_x
              (stroke_node (MkStroke (pt 0 0) (pt 2 2) Cross) bLeft)) as [it [F E]].
  - vm_compute. auto 10.
  - exists it. split; [|exact E].
    rewrite <- F. vm_compute. reflexivity.
Defined.

(** ** Invariants of the two loops *)

Lemma inner_loop_invariant (libm : Libm) (mem : Indeterminate) (J : Trace -> Prop)
    (js : JunctionMap) (fuel : nat) (s s' : Trace) :
  (forall s0 c s1, J s0 -> inner_body js s0 = Ok (c, s1) -> J s1) ->
  J s -> inner_loop fuel js s = Ok s' -> J s'.
Proof.
  intro Hstep. revert s. induction fuel as [|fuel IH]; intros s Hs H; simpl in H;
    [discriminate|].
  invert_bind H. destruct u as [c s1]. simpl in H.
  pose proof (Hstep s c s1 Hs E) as H1.
  destruct c; [now apply (IH s1) | now injection H as <-].
Qed.

Lemma outer_loop_invariant (libm : Libm) (mem : Indeterminate) (I : Outer -> Prop)
    (js : JunctionMap) (fuel : nat) (o o' : Outer) :
  (forall o0 o1, I o0 -> outer_cond o0 = true -> outer_body js o0 = Ok o1 -> I o1) ->
  I o -> outer_loop fuel js o = Ok o' -> I o'.
Proof.
  intro Hstep. revert o. induction fuel as [|fuel IH]; intros o Ho H; simpl in H;
    destruct (outer_cond o) eqn:Hc; try discriminate; try (now injection H as <-).
  invert_bind H. apply (IH u); [|exact H]. now apply (Hstep o).
Qed.

Lemma outer_body_inv (libm : Libm) (mem : Indeterminate) (js : JunctionMap) (o o' : Outer) :
  outer_body js o = Ok o' ->
  exists (st : Node * bool) (s : Trace) (tz : Thread * Step),
    thread_start (o_unused o) (o_unusedUp o) = Ok st /\
    inner_loop (S (set_size (o_unused o))) js (first_trace o st) = Ok s /\
    package s = Ok tz /\
    o' = MkOuter (t_unused s) (t_unusedUp s) (o_ret o ++ [fst tz])
                 (o_retZs o ++ [snd tz]) (o_log o ++ [t_visits s]).
Proof.
  unfold outer_body. intro H. invert_bind H. invert_bind H. invert_bind H.
  injection H as <-. eauto 10.
Qed.

Lemma inner_body_record (libm : Libm) (mem : Indeterminate) (js : JunctionMap)
    (s s' : Trace) (c : bool) :
  inner_body js s = Ok (c, s') ->
  t_zs s' = t_zs s ++ [if t_up s then dbl 1 1 else dbl 0 1] /\
  t_visits s' = t_visits s ++ [port (t_cur s); (mid (t_cur s), exit_dir (t_cur s))] /\
  t_up s' = (if StrokeType_eqb (type (t_cur s)) Cross then negb (t_up s) else t_up s) /\
  (exists p tg, t_thread s' = t_thread s ++ [p] /\ t_angles s' = t_angles s ++ [tg]).
Proof.
  unfold inner_body. intro H. invert_bind H. invert_bind H. invert_bind H.
  assert (Hup : fst (fst (sample js (set_dir (t_cur s) (exit_dir (t_cur s))) (t_up s)))
                = if StrokeType_eqb (type (t_cur s)) Cross then negb (t_up s) else t_up s).
  { unfold sample. simpl type. now destruct (type (t_cur s)). }
  destruct (sample js _ (t_up s)) as [[up' p] tg]. simpl in Hup. subst up'.
  rewrite <- app_assoc in H. simpl app in H.
  repeat match type of H with
         | match ?x with _ => _ end = _ => destruct x
         end;
    try discriminate; injection H as <- <-; cbn [t_zs t_visits t_up t_thread t_angles];
    repeat split; eauto.
Qed.

Lemma Spline_ctor_arrays {ST : Type} (xs : list double) (ys : list ST) (n : nat)
    (loop copy : bool) (sp : Spline ST) :
  Spline_ctor xs ys n loop copy = Ok sp ->
  mXs sp = firstn n xs /\ mYs sp = firstn n ys /\ mLoop sp = loop.
Proof.
  unfold Spline_ctor. intro H. invert_bind H. invert_bind H. invert_bind H.
  injection H as <-. auto.
Qed.

Lemma Forall_firstn_keep {A : Type} (P : A -> Prop) (n : nat) (l : list A) :
  Forall P l -> Forall P (firstn n l).
Proof.
  revert n. induction l as [|h l IH]; intros [|n] H; simpl; try constructor.
  - now inversion H.
  - apply IH. now inversion H.
Qed.

Lemma package_flags (s : Trace) (tz : Thread * Step) :
  package s = Ok tz -> Forall is_flag (t_zs s) -> Forall is_flag (mYs (snd tz)).
Proof.
  unfold package, Step_ctor. intros H Hf.
  invert_bind H. invert_bind H. invert_bind H. invert_bind H. invert_bind H.
  injection H as <-. simpl. apply Spline_ctor_arrays in E3. destruct E3 as (_ & -> & _).
  apply Forall_firstn_keep. apply Forall_app. split; [exact Hf|].
  constructor; [|constructor].
  destruct (t_zs s) as [|f zs]; [discriminate|]. injection E1 as <-. now inversion Hf.
Qed.

Lemma GetY_In {ST : Type} (s : Spline ST) (index : Z) (v : ST) :
  GetY s index = Ok v -> In v (mYs s).
Proof.
  unfold GetY, array_read. intro H. invert_bind H. invert_bind H.
  destruct (Imod index (mN s) <? 0)%Z; [discriminate|].
  destruct (nth_error (mYs s) _) as [w|] eqn:F; [|discriminate].
  injection H as <-. now apply nth_error_In in F.
Qed.

(** X10: every over/under flag that [CreateThread] stores in a step curve
    is [0.0] or [1.0], and so is every value that the step curve returns,
    at any parameter and whatever index it has cached. *)
Theorem flags_are_zero_or_one (libm : Libm) (mem : Indeterminate) (strokes : StrokeList)
    (art : Art) (z : Step) :
  CreateThread strokes = Ok art -> In z (mZs art) ->
  Forall is_flag (mYs z) /\
  forall (c : Z) (x v : double) (i : Z), Step_Y z c x = Ok (v, i) -> is_flag v.
Proof.
  intros H Hz. destruct (CreateThread_inv _ _ _ _ H) as [o [Ho ->]]. simpl in Hz.
  assert (Hall : Forall (fun z => Forall is_flag (mYs z)) (o_retZs o)).
  { unfold CreateThread_run in Ho.
    apply (outer_loop_invariant libm mem
             (fun o => Forall (fun z => Forall is_flag (mYs z)) (o_retZs o))
             _ _ _ _) in Ho; [exact Ho | | constructor].
    intros o0 o1 I0 _ Hb.
    destruct (outer_body_inv libm mem _ _ _ Hb) as (st & s & tz & _ & Hi & Hp & ->).
    simpl. apply Forall_app. split; [exact I0|]. constructor; [|constructor].
    apply (package_flags s tz Hp).
    apply (inner_loop_invariant libm mem (fun s => Forall is_flag (t_zs s)) _ _ _ _)
      in Hi; [exact Hi | | constructor].
    intros s0 c s1 J0 Hbody.
    destruct (inner_body_record libm mem _ _ _ _ Hbody) as (-> & _).
    apply Forall_app. split; [exact J0|]. constructor; [|constructor].
    destruct (t_up s0); [now right | now left]. }
  rewrite Forall_forall in Hall. pose proof (Hall z Hz) as Hf. split; [exact Hf|].
  intros c x v i HY. unfold Step_Y in HY.
  invert_bind HY. invert_bind HY. invert_bind HY. invert_bind HY.
  injection HY as <- _. rewrite Forall_forall in Hf.
  unfold NearestNeighbor. destruct (dbl_ltb u0 (dbl 1 2)); apply Hf; eapply GetY_In; eauto.
Qed.

Lemma flags_are_zero_or_one_witness :
  exists z : Step, In z (mZs art_one) /\ Forall is_flag (mYs z).
Proof.
  assert (Hz : exists z, In z (mZs art_one)) by (vm_compute; eauto).
  destruct Hz as [z Hz]. exists z. split; [exact Hz|].
  exact (proj1 (flags_are_zero_or_one rational_libm zeroed_memory mesh_one art_one z
                  art_one_Ok Hz)).
Defined.

(** ** Threads of crossings go over and under in turn *)

Lemma mark_above_nodes (P : Node -> Prop) (un uu uu' : NodeSet) (cur : Node) (up : bool) :
  (forall n d, P n -> P (set_dir n d)) ->
  P cur -> Forall P uu -> mark_above un uu cur up = Ok uu' -> Forall P uu'.
Proof.
  intros HP Hc Hu H. unfold mark_above in H.
  destruct (negb up && StrokeType_eqb (type cur) Cross); [|now injection H as <-].
  destruct (set_count (set_dir cur (GlanceDir (dir cur))) un);
    [|now injection H as <-].
  invert_bind H. injection H as <-.
  apply Forall_set_insert; [now apply HP, HP|].
  apply Forall_set_insert; [now apply HP | exact Hu].
Qed.

Lemma inner_body_nodes (libm : Libm) (mem : Indeterminate) (P : Node -> Prop)
    (js : JunctionMap) (s s' : Trace) (c : bool) :
  (forall n d, P n -> P (set_dir n d)) ->
  Forall P (t_unused s) -> Forall P (t_unusedUp s) -> P (t_cur s) ->
  inner_body js s = Ok (c, s') ->
  Forall P (t_unused s') /\ Forall P (t_unusedUp s') /\ P (t_cur s').
Proof.
  intros HP Hun Huu Hc H. unfold inner_body in H.
  invert_bind H. invert_bind H. invert_bind H.
  pose proof (mark_above_nodes P _ _ _ _ _ HP Hc Huu E) as Hu1.
  destruct (sample js _ (t_up s)) as [[up' p] tg].
  assert (Hun' : Forall P
            (set_erase (set_dir (t_cur s) (exit_dir (t_cur s)))
               (set_erase (t_cur s) (t_unused s))))
    by now apply Forall_set_erase, Forall_set_erase.
  assert (Huu' : Forall P
            (set_erase (set_dir (t_cur s) (exit_dir (t_cur s)))
               (set_erase (t_cur s) u)))
    by now apply Forall_set_erase, Forall_set_erase.
  assert (Hfind : forall n it, set_find n
            (set_erase (set_dir (t_cur s) (exit_dir (t_cur s)))
               (set_erase (t_cur s) (t_unused s))) = Some it -> P it).
  { intros n it F. apply set_find_some in F. destruct F as [F _].
    rewrite Forall_forall in Hun'. now apply Hun'. }
  pose proof (HP _ (exit_dir (t_cur s)) Hc) as Hc'.
  match type of H with
  | match set_find ?n ?un with _ => _ end = _ =>
      destruct (set_find n un) as [it|] eqn:F1
  end.
  - apply Hfind in F1. pose proof (HP _ (CrossDir (dir it)) F1) as F1'.
    match type of H with
    | (if ?c then _ else _) = _ => destruct c
    end.
    + match type of H with
      | (if ?c then _ else _) = _ => destruct c
      end; injection H as <- <-; cbn [t_unused t_unusedUp t_cur]; auto.
    + injection H as <- <-. cbn [t_unused t_unusedUp t_cur]. auto.
  - match type of H with
    | match set_find ?n ?un with _ => _ end = _ =>
        destruct (set_find n un) as [it|] eqn:F2
    end.
    + apply Hfind in F2. injection H as <- <-. cbn [t_unused t_unusedUp t_cur]. auto.
    + injection H as <- <-. cbn [t_unused t_unusedUp t_cur]. auto.
Qed.

Lemma thread_start_node (P : Node -> Prop) (un uu : NodeSet) (st : Node * bool) :
  Forall P un -> Forall P uu -> thread_start un uu = Ok st -> P (fst st).
Proof.
  intros Hun Huu H. unfold thread_start, set_size, set_begin in H.
  destruct uu as [|u uu]; simpl in H.
  - destruct un as [|n un]; simpl in H; [discriminate|]. injection H as <-.
    now inversion Hun.
  - injection H as <-. now inversion Huu.
Qed.

Lemma Graph_ctor_nodes_from (libm : Libm) (strokes : StrokeList) (n : Node) :
  In n (unused (Graph_ctor strokes)) ->
  exists (it : Stroke) (d : Dir), In it strokes /\ n = stroke_node it d.
Proof.
  unfold Graph_ctor. revert n. induction strokes as [|it strokes IH] using rev_ind;
    intros n Hn; [destruct Hn|].
  rewrite fold_left_app in Hn. cbn [fold_left] in Hn. rewrite Graph_add_unused in Hn.
  assert (Hit : In it (strokes ++ [it])) by (apply in_or_app; right; now left).
  destruct (In_set_insert _ _ _ Hn) as [-> | H3]; [eauto|].
  destruct (In_set_insert _ _ _ H3) as [-> | H2]; [eauto|].
  destruct (In_set_insert _ _ _ H2) as [-> | H1]; [eauto|].
  destruct (In_set_insert _ _ _ H1) as [-> | H0]; [eauto|].
  destruct (IH n H0) as (it0 & d & Hin & E). exists it0, d. split; [|exact E].
  apply in_or_app. now left.
Qed.

Lemma alternate_one (f : double) : alternate [f].
Proof. intros [|[|i]] a b Ha Hb; simpl in *; discriminate. Qed.

Lemma alternate_snoc (l : list double) (f g : double) :
  alternate (l ++ [f]) -> f <> g -> alternate ((l ++ [f]) ++ [g]).
Proof.
  intros Hl Hfg i a b Ha Hb.
  assert (Hlen : length (l ++ [f]) = S (length l)) by (rewrite length_app; simpl; lia).
  assert (Hi : (S i < length ((l ++ [f]) ++ [g]))%nat)
    by (apply nth_error_Some; congruence).
  rewrite length_app, Hlen in Hi. simpl in Hi.
  destruct (Nat.eq_dec (S i) (S (length l))) as [E | N].
  - injection E as E. subst i.
    rewrite nth_error_app1 in Ha by lia. rewrite nth_error_app2 in Ha by lia.
    rewrite Nat.sub_diag in Ha. simpl in Ha. injection Ha as <-.
    rewrite nth_error_app2 in Hb by lia. rewrite Hlen, Nat.sub_diag in Hb.
    simpl in Hb. injection Hb as <-. exact Hfg.
  - rewrite nth_error_app1 in Ha by lia. rewrite nth_error_app1 in Hb by lia.
    exact (Hl i a b Ha Hb).
Qed.

Lemma flag_negb (up : bool) : flag (negb up) <> flag up.
Proof.
  destruct up; simpl; intro H; apply dbl_eqb_eq in H; discriminate.
Qed.

(** X11: in a mesh whose strokes are all of type [Cross], every thread goes
    over and under in turn: no two consecutive flags recorded for a thread
    (the closing copy of the first flag set aside) are equal. *)
Theorem crossings_alternate (libm : Libm) (mem : Indeterminate) (strokes : StrokeList)
    (art : Art) (z : Step) :
  Forall (fun it : Stroke => stype it = Cross) strokes ->
  CreateThread strokes = Ok art -> In z (mZs art) ->
  alternate (removelast (mYs z)).
Proof.
  intros Hcross H Hz. destruct (CreateThread_inv _ _ _ _ H) as [o [Ho ->]]. simpl in Hz.
  set (C := fun n : Node => type n = Cross).
  assert (HC : forall n d, C n -> C (set_dir n d)) by (intros n d Hn; exact Hn).
  set (I := fun o : Outer =>
              Forall C (o_unused o) /\ Forall C (o_unusedUp o) /\
              Forall (fun z => alternate (removelast (mYs z))) (o_retZs o)).
  set (J := fun s : Trace =>
              Forall C (t_unused s) /\ Forall C (t_unusedUp s) /\ C (t_cur s) /\
              length (t_zs s) = length (t_thread s) /\
              alternate (t_zs s) /\
              (t_zs s = [] \/ exists l, t_zs s = l ++ [flag (negb (t_up s))])).
  assert (HI : I o).
  { unfold CreateThread_run in Ho.
    apply (outer_loop_invariant libm mem I _ _ _ _) in Ho; [exact Ho | |].
    - intros o0 o1 (I1 & I2 & I3) _ Hb.
      destruct (outer_body_inv libm mem _ _ _ Hb) as (st & s & tz & Hst & Hi & Hp & ->).
      assert (HJ : J s).
      { apply (inner_loop_invariant libm mem J _ _ _ _) in Hi; [exact Hi | |].
        - intros s0 c s1 (J1 & J2 & J3 & J4 & J5 & J6) Hbody.
          destruct (inner_body_nodes libm mem C _ _ _ _ HC J1 J2 J3 Hbody)
            as (K1 & K2 & K3).
          destruct (inner_body_record libm mem _ _ _ _ Hbody)
            as (Ez & _ & Eu & p & tg & Et & _).
          unfold C in J3. rewrite J3 in Eu. simpl in Eu.
          repeat split; auto.
          + rewrite Ez, Et, !length_app. simpl. lia.
          + rewrite Ez. fold (flag (t_up s0)). destruct J6 as [-> | [l El]].
            * apply alternate_one.
            * rewrite El. apply alternate_snoc; [now rewrite <- El|]. apply flag_negb.
          + right. exists (t_zs s0). rewrite Ez, Eu, negb_involutive. reflexivity.
        - unfold J, first_trace. simpl. repeat split; auto.
          + now apply (thread_start_node C _ _ _ I1 I2 Hst).
          + intros i f g Hf. destruct i; discriminate. }
      destruct HJ as (J1 & J2 & _ & J4 & J5 & _).
      unfold I. simpl. repeat split; auto.
      apply Forall_app. split; [exact I3|]. constructor; [|constructor].
      unfold package, Step_ctor in Hp.
      invert_bind Hp. invert_bind Hp. invert_bind Hp. invert_bind Hp. invert_bind Hp.
      injection Hp as <-. simpl. apply Spline_ctor_arrays in E3.
      destruct E3 as (_ & -> & _).
      rewrite firstn_all2 by (rewrite length_app; simpl; lia).
      now rewrite removelast_last.
    - unfold I, first_outer. simpl. repeat split; try constructor.
      rewrite Forall_forall. intros n Hn.
      destruct (Graph_ctor_nodes_from libm strokes n Hn) as (it & d & Hit & ->).
      unfold C. simpl. rewrite Forall_forall in Hcross. now apply Hcross. }
  destruct HI as (_ & _ & HI). rewrite Forall_forall in HI. now apply HI.
Qed.

Lemma crossings_alternate_witness :
  exists z : Step, In z (mZs art_one) /\ alternate (removelast (mYs z)).
Proof.
  assert (Hz : exists z, In z (mZs art_one)) by (vm_compute; eauto).
  destruct Hz as [z Hz]. exists z. split; [exact Hz|].
  apply (crossings_alternate rational_libm zeroed_memory mesh_one art_one z).
  - repeat constructor.
  - exact art_one_Ok.
  - exact Hz.
Defined.

(** ** Passes, samples and knots of a run *)

Lemma passes_app (l l' : list Port) : passes l -> passes l' -> passes (l ++ l').
Proof.
  assert (G : forall n l, (length l <= n)%nat -> passes l -> passes l' -> passes (l ++ l')).
  { induction n as [|n IH]; intros k Hk Hp Hp'.
    - destruct k; [exact Hp' | simpl in Hk; lia].
    - destruct k as [|e [|x k]]; [exact Hp' | destruct Hp |].
      destruct Hp as (H1 & H2 & H3). simpl. repeat split; auto.
      apply IH; auto. simpl in Hk. lia. }
  intros Hp Hp'. now apply (G (length l) l).
Qed.

Lemma entries_count (m : vec2) (l : list Port) :
  passes l ->
  count_occ vec2_eq_dec (map fst l) m
  = (2 * count_occ vec2_eq_dec (map fst (entries l)) m)%nat.
Proof.
  assert (G : forall n l, (length l <= n)%nat -> passes l ->
              count_occ vec2_eq_dec (map fst l) m
              = (2 * count_occ vec2_eq_dec (map fst (entries l)) m)%nat).
  { induction n as [|n IH]; intros k Hk Hp.
    - destruct k; [reflexivity | simpl in Hk; lia].
    - destruct k as [|e [|x k]]; [reflexivity | destruct Hp |].
      destruct Hp as (H1 & H2 & H3). cbn [map entries count_occ].
      rewrite <- H1. rewrite (IH k) by (simpl in Hk; auto; lia).
      destruct (vec2_eq_dec (fst e) m); lia. }
  intro Hp. now apply (G (length l) l).
Qed.

Lemma entries_count_concat (m : vec2) (ll : list (list Port)) :
  Forall passes ll ->
  count_occ vec2_eq_dec (map fst (concat ll)) m
  = (2 * count_occ vec2_eq_dec (map fst (concat (map entries ll))) m)%nat.
Proof.
  induction 1 as [|l ll Hl Hll IH]; [reflexivity|].
  change (concat (l :: ll)) with (l ++ concat ll).
  change (concat (map entries (l :: ll))) with (entries l ++ concat (map entries ll)).
  rewrite !map_app, !count_occ_app, Nat.mul_add_distr_l.
  exact (f_equal2 Nat.add (entries_count m l Hl) IH).
Qed.

Lemma ports_of_count (m : vec2) (ms : list vec2) :
  count_occ vec2_eq_dec (map fst (ports_of ms)) m
  = (4 * count_occ vec2_eq_dec ms m)%nat.
Proof.
  induction ms as [|w ms IH]; [reflexivity|].
  cbn [ports_of flat_map]. fold (ports_of ms).
  rewrite map_app, count_occ_app, IH. cbn [all_dirs map count_occ fst].
  destruct (vec2_eq_dec w m); lia.
Qed.

(** X12: the ports that a thread takes out of the unused set come in
    passes, an entry port and then an exit port of the same midpoint in
    another direction; and over a whole run every distinct midpoint of the
    mesh is entered exactly twice, once for each of its two passes. *)
Theorem midpoints_passed_twice (libm : Libm) (mem : Indeterminate) (strokes : StrokeList)
    (o : Outer) :
  CreateThread_run strokes = Ok o ->
  Forall passes (o_log o) /\
  forall m : vec2, In m (midpoints strokes) ->
    count_occ vec2_eq_dec (map fst (concat (map entries (o_log o)))) m = 2%nat.
Proof.
  intro H.
  assert (Hp : Forall passes (o_log o)).
  { unfold CreateThread_run in H.
    apply (outer_loop_invariant libm mem (fun o => Forall passes (o_log o)) _ _ _ _) in H;
      [exact H | | constructor].
    intros o0 o1 I0 _ Hb.
    destruct (outer_body_inv libm mem _ _ _ Hb) as (st & s & tz & _ & Hi & _ & ->).
    simpl. apply Forall_app. split; [exact I0|]. constructor; [|constructor].
    apply (inner_loop_invariant libm mem (fun s => passes (t_visits s)) _ _ _ _) in Hi;
      [exact Hi | | exact Logic.I].
    intros s0 c s1 J0 Hbody.
    destruct (inner_body_record libm mem _ _ _ _ Hbody) as (_ & -> & _).
    apply passes_app; [exact J0|]. simpl. repeat split; auto.
    intro E. symmetry in E. now apply exit_dir_changes in E. }
  split; [exact Hp|]. intros m Hm.
  destruct (CreateThread_run_spec strokes o H) as [Hperm _].
  pose proof (entries_count_concat m (o_log o) Hp) as Hc.
  assert (E : count_occ vec2_eq_dec (map fst (concat (o_log o))) m = 4%nat).
  { pose proof (Permutation_map fst Hperm) as Hperm'.
    pose proof (proj1 (Permutation_count_occ vec2_eq_dec _ _) Hperm' m) as E1.
    rewrite ports_of_count in E1.
    assert (E2 : count_occ vec2_eq_dec (midpoints strokes) m = 1%nat).
    { apply NoDup_count_occ'; [apply distinct_NoDup | exact Hm]. }
    rewrite E2 in E1. exact E1. }
  rewrite E in Hc.
  lia.
Qed.

Lemma midpoints_passed_twice_witness :
  count_occ vec2_eq_dec (map fst (concat (map entries (o_log run_one)))) (pt 1 0) = 2%nat.
Proof.
  destruct (midpoints_passed_twice rational_libm zeroed_memory mesh_one run_one run_one_Ok)
    as [_ H].
  apply H. vm_compute. left. reflexivity.
Defined.

Lemma produced_totals (ret : list Thread) (retZs : list Step) (log : list (list Port)) :
  Forall3 produced ret retZs log ->
  length (concat log) = (2 * list_sum (map sample_count ret))%nat /\
  (length ret <= list_sum (map sample_count ret))%nat.
Proof.
  induction 1 as [|th z vs ret retZs log Hp Hf [IH1 IH2]]; simpl; [auto|].
  destruct Hp as (p & pts & tg & tans & u & zs & _ & _ & Lv & Ey & _).
  assert (Es : sample_count th = S (length pts)).
  { unfold sample_count. rewrite Ey, length_app. simpl. lia. }
  split; [|rewrite Es; lia].
  transitivity (length vs + length (concat log))%nat; [apply length_app|].
  transitivity (2 * S (length pts) + 2 * list_sum (map sample_count ret))%nat;
    [exact (f_equal2 Nat.add Lv IH1) | rewrite Es; lia].
Qed.

(** X13: the threads that [CreateThread] returns hold in all twice as many
    samples as the mesh has distinct midpoints; there are no more threads
    than samples, and there is no thread at all exactly when the stroke list
    is empty. *)
Theorem sample_totals (libm : Libm) (mem : Indeterminate) (strokes : StrokeList) (art : Art) :
  CreateThread strokes = Ok art ->
  total_samples art = (2 * length (midpoints strokes))%nat /\
  (GetThreadCount art <= total_samples art)%nat /\
  (GetThreadCount art = 0%nat <-> strokes = []).
Proof.
  intro H. destruct (CreateThread_inv _ _ _ _ H) as [o [Ho ->]].
  destruct (CreateThread_run_spec strokes o Ho) as [Hperm Hf].
  destruct (produced_totals _ _ _ Hf) as [Hlen Hle].
  rewrite (Permutation_length Hperm), ports_of_length in Hlen.
  unfold total_samples, GetThreadCount. cbn [mThreads].
  split; [lia|]. split; [exact Hle|]. split.
  - intro E. assert (Hm : length (midpoints strokes) = 0%nat).
    { destruct (o_ret o) eqn:Er; [|discriminate]. simpl in Hlen. lia. }
    destruct strokes as [|it strokes]; [reflexivity|]. exfalso.
    assert (Hin : In (Stroke_GetMid it) (midpoints (it :: strokes))).
    { unfold midpoints. apply distinct_In. now left. }
    destruct (midpoints (it :: strokes)); [destruct Hin | discriminate].
  - intros ->. cbn [midpoints distinct map length] in Hlen. lia.
Qed.

Lemma sample_totals_witness :
  total_samples art_one = 2%nat /\ GetThreadCount art_one <> 0%nat.
Proof.
  destruct (sample_totals rational_libm zeroed_memory mesh_one art_one art_one_Ok)
    as (Ht & _ & Hz).
  split.
  - rewrite Ht. vm_compute. reflexivity.
  - intro E. apply Hz in E. discriminate.
Defined.

Lemma knots_ascending_all (frames : nat) : (0 < frames)%nat -> knots_ascend (knots frames).
Proof.
  intros Hf i j p q Hij Hi Hj.
  assert (Lj : (j < length (knots frames))%nat) by (apply nth_error_Some; congruence).
  rewrite knots_length in Lj.
  rewrite knots_nth in Hi by lia. rewrite knots_nth in Hj by lia.
  injection Hi as <-. injection Hj as <-. apply knot_lt; lia.
Qed.

(** X14: the thread and the step curve of a produced thread have the same
    knots, one more than the thread has samples: they increase strictly from
    0 to 1, and the knot of rank [i] is [i] divided by the number of
    samples. *)
Theorem knots_uniform (libm : Libm) (mem : Indeterminate) (strokes : StrokeList)
    (art : Art) (index : nat) (th : Thread) (z : Step) :
  CreateThread strokes = Ok art ->
  GetThread art index = Ok th -> GetZ art index = Ok z ->
  mXs (hermite_base th) = knots (sample_count th) /\
  mXs z = knots (sample_count th) /\
  length (knots (sample_count th)) = S (sample_count th) /\
  knots_ascend (knots (sample_count th)) /\
  nth_error (knots (sample_count th)) 0 = Some (dbl 0 1) /\
  nth_error (knots (sample_count th)) (sample_count th) = Some (dbl 1 1) /\
  forall i : nat, (i < sample_count th)%nat ->
    nth_error (knots (sample_count th)) i
    = Some (dbl_of_nat i / dbl_of_nat (sample_count th))%Qc.
Proof.
  intros H Hth Hz. destruct (CreateThread_inv _ _ _ _ H) as [o [Ho ->]].
  apply GetThread_inv in Hth. apply GetZ_inv in Hz. destruct Hz as [_ Hz].
  simpl in Hth, Hz.
  destruct (CreateThread_run_spec strokes o Ho) as [_ Hf].
  destruct (Forall3_nth _ _ _ _ index th z Hf Hth Hz) as [vs [_ Hp]].
  destruct Hp as (p & pts & tg & tans & u & zs & _ & _ & _ & Ey & _ & _ & Ex & Ex' & _).
  assert (Es : sample_count th = S (length pts)).
  { unfold sample_count. rewrite Ey, length_app. simpl. lia. }
  rewrite Es. split; [exact Ex|]. split; [exact Ex'|].
  split; [rewrite knots_length; lia|].
  split; [apply knots_ascending_all; lia|].
  split; [rewrite knots_nth by lia; now rewrite knot_zero|].
  split; [rewrite knots_nth by lia; now rewrite knot_last by lia|].
  intros i Hi. now rewrite knots_nth by lia.
Qed.

Lemma knots_uniform_witness :
  exists (th : Thread) (z : Step),
    GetThread art_one 0 = Ok th /\ GetZ art_one 0 = Ok z /\
    mXs (hermite_base th) = mXs z /\ knots_ascend (mXs z).
Proof.
  assert (Hth1 : exists th, GetThread art_one 0 = Ok th) by (vm_compute; eauto).
  assert (Hz1 : exists z, GetZ art_one 0 = Ok z) by (vm_compute; eauto).
  destruct Hth1 as [th Hth]. destruct Hz1 as [z Hz]. exists th, z.
  destruct (knots_uniform rational_libm zeroed_memory mesh_one art_one 0 th z
              art_one_Ok Hth Hz) as (E1 & E2 & _ & Ha & _).
  split; [exact Hth|]. split; [exact Hz|]. split; [congruence|].
  rewrite E2. exact Ha.
Defined.

(** ** Where the samples of a thread lie *)

Lemma Graph_deref_position (libm : Libm) (strokes : StrokeList) (p : vec2) :
  position (deref (junctions (Graph_ctor strokes)) p) = p.
Proof.
  unfold Graph_ctor. revert p. induction strokes as [|it strokes IH] using rev_ind; intro p.
  - reflexivity.
  - rewrite fold_left_app. cbn [fold_left]. unfold Graph_add at 1. cbn [junctions].
    rewrite deref_sort, !deref_push. cbn [position].
    destruct (vec2_eqb (b it) p) eqn:Eb; [now apply vec2_eqb_eq in Eb|].
    destruct (vec2_eqb (a it) p) eqn:Ea; [now apply vec2_eqb_eq in Ea|].
    apply IH.
Qed.

Lemma inner_body_point (libm : Libm) (mem : Indeterminate) (js : JunctionMap)
    (s s' : Trace) (c : bool) :
  inner_body js s = Ok (c, s') ->
  t_thread s'
  = t_thread s ++ [snd (fst (sample js (set_dir (t_cur s) (exit_dir (t_cur s))) (t_up s)))].
Proof.
  unfold inner_body. intro H. invert_bind H. invert_bind H. invert_bind H.
  destruct (sample js _ (t_up s)) as [[up' p] tg]. cbn [fst snd].
  repeat match type of H with
         | match ?x with _ => _ end = _ => destruct x
         end;
    try discriminate; injection H as <- <-; reflexivity.
Qed.

Lemma sample_of_stroke (libm : Libm) (strokes : StrokeList) (it : Stroke) (d : Dir)
    (up : bool) :
  sample_at it (snd (fst (sample (junctions (Graph_ctor strokes)) (stroke_node it d) up))).
Proof.
  unfold sample, sample_at, stroke_node. cbn [type mid dir normal left right].
  rewrite !Graph_deref_position.
  destruct (stype it); cbn [fst snd]; [reflexivity| |].
  - exists (Dir_eqb d fLeft || Dir_eqb d bLeft). reflexivity.
  - exists (Dir_eqb d fLeft || Dir_eqb d fRight). reflexivity.
Qed.

Lemma package_points (s : Trace) (tz : Thread * Step) (Q : vec2 -> Prop) :
  package s = Ok tz -> Forall Q (t_thread s) -> Forall Q (mYs (hermite_base (fst tz))).
Proof.
  unfold package, Hermite_ctor. intros H Hf.
  invert_bind H. invert_bind H. invert_bind H. invert_bind H. invert_bind H.
  injection H as <-. simpl. unfold bind in E2.
  destruct (Spline_ctor _ _ _ _ _) as [sp| |] eqn:Es; try discriminate.
  apply Spline_ctor_arrays in Es. destruct Es as (_ & Ey & _).
  destruct (assert _) in E2; try discriminate. injection E2 as <-. simpl. rewrite Ey.
  apply Forall_firstn_keep. apply Forall_app. split; [exact Hf|].
  constructor; [|constructor].
  destruct (t_thread s) as [|f l]; [discriminate|]. injection E as <-. now inversion Hf.
Qed.

(** X15: every sample of every thread is the sample of a stroke of the mesh:
    the midpoint of a [Cross] stroke, or the point a quarter of the normal
    to the side of the midpoint of a [Glance] stroke, or the point a quarter
    of the stroke along from the midpoint of a [Bounce] stroke. *)
Theorem samples_lie_on_strokes (libm : Libm) (mem : Indeterminate) (strokes : StrokeList)
    (art : Art) (th : Thread) (p : vec2) :
  CreateThread strokes = Ok art -> In th (mThreads art) ->
  In p (mYs (hermite_base th)) ->
  exists it : Stroke, In it strokes /\ sample_at it p.
Proof.
  intros H Hth Hp. destruct (CreateThread_inv _ _ _ _ H) as [o [Ho ->]]. simpl in Hth.
  set (P := fun n : Node => exists it d, In it strokes /\ n = stroke_node it d).
  set (Q := fun p : vec2 => exists it : Stroke, In it strokes /\ sample_at it p).
  assert (HP : forall n d, P n -> P (set_dir n d)).
  { intros n d (it & d0 & Hit & ->). exists it, d. split; [exact Hit | reflexivity]. }
  set (I := fun o : Outer =>
              Forall P (o_unused o) /\ Forall P (o_unusedUp o) /\
              Forall (fun th => Forall Q (mYs (hermite_base th))) (o_ret o)).
  set (J := fun s : Trace =>
              Forall P (t_unused s) /\ Forall P (t_unusedUp s) /\ P (t_cur s) /\
              Forall Q (t_thread s)).
  assert (HI : I o).
  { unfold CreateThread_run in Ho.
    apply (outer_loop_invariant libm mem I _ _ _ _) in Ho; [exact Ho | |].
    - intros o0 o1 (I1 & I2 & I3) _ Hb.
      destruct (outer_body_inv libm mem _ _ _ Hb) as (st & s & tz & Hst & Hi & Hpk & ->).
      assert (HJ : J s).
      { apply (inner_loop_invariant libm mem J _ _ _ _) in Hi; [exact Hi | |].
        - intros s0 c s1 (J1 & J2 & J3 & J4) Hbody.
          destruct (inner_body_nodes libm mem P _ _ _ _ HP J1 J2 J3 Hbody)
            as (K1 & K2 & K3).
          split; [exact K1|]. split; [exact K2|]. split; [exact K3|].
          rewrite (inner_body_point libm mem _ _ _ _ Hbody).
          apply Forall_app. split; [exact J4|]. constructor; [|constructor].
          destruct J3 as (it & d & Hit & ->). exists it. split; [exact Hit|].
          apply (sample_of_stroke libm strokes it (exit_dir (stroke_node it d))).
        - unfold J, first_trace. simpl. split; [exact I1|]. split; [exact I2|].
          split; [|constructor]. now apply (thread_start_node P _ _ _ I1 I2 Hst). }
      destruct HJ as (J1 & J2 & _ & J4).
      unfold I. simpl. split; [exact J1|]. split; [exact J2|].
      apply Forall_app. split; [exact I3|]. constructor; [|constructor].
      exact (package_points s tz Q Hpk J4).
    - unfold I, first_outer. simpl. split; [|split; constructor].
      rewrite Forall_forall. intros n Hn.
      exact (Graph_ctor_nodes_from libm strokes n Hn). }
  destruct HI as (_ & _ & HI). rewrite Forall_forall in HI.
  specialize (HI th Hth). rewrite Forall_forall in HI. exact (HI p Hp).
Qed.

Lemma samples_lie_on_strokes_witness :
  exists (th : Thread) (p : vec2),
    In th (mThreads art_one) /\ In p (mYs (hermite_base th)) /\
    exists it : Stroke, In it mesh_one /\ sample_at it p.
Proof.
  assert (Hw : exists th p, In th (mThreads art_one) /\ In p (mYs (hermite_base th))).
  { do 2 eexists. split.
    - vm_compute. left. reflexivity.
    - vm_compute. left. reflexivity. }
  destruct Hw as (th & p & Hth & Hp). exists th, p.
  split; [exact Hth|]. split; [exact Hp|].
  exact (samples_lie_on_strokes rational_libm zeroed_memory mesh_one art_one th p
           art_one_Ok Hth Hp).
Defined.

(** ** The interpolation functions of spline.hpp *)

Lemma dbl_0 : dbl 0 1 = 0%Qc.
Proof. apply Qc_is_canon. reflexivity. Qed.

Lemma dbl_1 : dbl 1 1 = 1%Qc.
Proof. apply Qc_is_canon. reflexivity. Qed.

Lemma dbl_2 : dbl 2 1 = (1 + 1)%Qc.
Proof. apply Qc_is_canon. reflexivity. Qed.

Lemma dbl_3 : dbl 3 1 = (1 + 1 + 1)%Qc.
Proof. apply Qc_is_canon. reflexivity. Qed.

Lemma dbl_4 : dbl 4 1 = (1 + 1 + 1 + 1)%Qc.
Proof. apply Qc_is_canon. reflexivity. Qed.

Lemma dbl_5 : dbl 5 1 = (1 + 1 + 1 + 1 + 1)%Qc.
Proof. apply Qc_is_canon. reflexivity. Qed.

Lemma dbl_6 : dbl 6 1 = (1 + 1 + 1 + 1 + 1 + 1)%Qc.
Proof. apply Qc_is_canon. reflexivity. Qed.

Lemma dbl_m1 : dbl (-1) 1 = (- (1))%Qc.
Proof. apply Qc_is_canon. reflexivity. Qed.

Lemma dbl_m2 : dbl (-2) 1 = (- (1 + 1))%Qc.
Proof. apply Qc_is_canon. reflexivity. Qed.

Lemma dbl_m3 : dbl (-3) 1 = (- (1 + 1 + 1))%Qc.
Proof. apply Qc_is_canon. reflexivity. Qed.

Lemma dbl_half : dbl 1 2 = (/ (1 + 1))%Qc.
Proof. apply Qc_is_canon. reflexivity. Qed.

Lemma dbl_third : dbl 1 3 = (/ (1 + 1 + 1))%Qc.
Proof. apply Qc_is_canon. reflexivity. Qed.

Lemma dbl_quarter : dbl 1 4 = (/ (1 + 1 + 1 + 1))%Qc.
Proof. apply Qc_is_canon. reflexivity. Qed.

Lemma two_nonzero : (1 + 1)%Qc <> 0%Qc.
Proof. intro H. discriminate. Qed.

Lemma three_nonzero : (1 + 1 + 1)%Qc <> 0%Qc.
Proof. intro H. discriminate. Qed.

Lemma four_nonzero : (1 + 1 + 1 + 1)%Qc <> 0%Qc.
Proof. intro H. discriminate. Qed.

Ltac numerals :=
  change (dbl_of_nat 1) with (dbl 1 1); change (dbl_of_nat 2) with (dbl 2 1);
  change (dbl_of_nat 3) with (dbl 3 1); change (dbl_of_nat 4) with (dbl 4 1);
  rewrite ?dbl_0, ?dbl_1, ?dbl_2, ?dbl_3, ?dbl_4, ?dbl_5, ?dbl_6,
          ?dbl_m1, ?dbl_m2, ?dbl_m3, ?dbl_half, ?dbl_third, ?dbl_quarter.

Ltac qc_ring := change double with Qc in *; numerals; ring.

Ltac qc_field := change double with Qc in *; numerals; field.

Ltac nonzero :=
  repeat split; first [exact two_nonzero | exact three_nonzero | exact four_nonzero].

(** X16: the functions of the namespace [Derivatives] are the derivatives of
    the Hermite basis, and the basis functions are the derivatives of the
    functions of the namespace [Antiderivatives], which all are 0 at 0: each
    function is the value of a polynomial, and the polynomials are formal
    derivatives of one another. *)
Theorem basis_derivatives (t : double) :
  let p1 : poly := [dbl 1 1; dbl 0 1; dbl (-3) 1; dbl 2 1] in
  let p2 : poly := [dbl 0 1; dbl 0 1; dbl 3 1; dbl (-2) 1] in
  let p3 : poly := [dbl 0 1; dbl 1 1; dbl (-2) 1; dbl 1 1] in
  let p4 : poly := [dbl 0 1; dbl 0 1; dbl (-1) 1; dbl 1 1] in
  let a1 : poly := [dbl 0 1; dbl 1 1; dbl 0 1; dbl (-1) 1; dbl 1 2] in
  let a2 : poly := [dbl 0 1; dbl 0 1; dbl 0 1; dbl 1 1; dbl (-1) 2] in
  let a3 : poly := [dbl 0 1; dbl 0 1; dbl 1 2; dbl (-2) 3; dbl 1 4] in
  let a4 : poly := [dbl 0 1; dbl 0 1; dbl 0 1; dbl (-1) 3; dbl 1 4] in
  (h1 t = eval p1 t /\ h2 t = eval p2 t /\ h3 t = eval p3 t /\ h4 t = eval p4 t) /\
  (Derivatives.h1 t = eval (derivative p1) t /\
   Derivatives.h2 t = eval (derivative p2) t /\
   Derivatives.h3 t = eval (derivative p3) t /\
   Derivatives.h4 t = eval (derivative p4) t) /\
  (Antiderivatives.h1 t = eval a1 t /\ Antiderivatives.h2 t = eval a2 t /\
   Antiderivatives.h3 t = eval a3 t /\ Antiderivatives.h4 t = eval a4 t) /\
  (derivative a1 = p1 /\ derivative a2 = p2 /\ derivative a3 = p3 /\ derivative a4 = p4).
Proof.
  cbv zeta. split; [|split; [|split]].
  - unfold h1, h2, h3, h4. cbn [eval]. split; [|split; [|split]]; qc_ring.
  - unfold Derivatives.h1, Derivatives.h2, Derivatives.h3, Derivatives.h4.
    cbn [eval derivative scale_from]. split; [|split; [|split]]; qc_ring.
  - unfold Antiderivatives.h1, Antiderivatives.h2, Antiderivatives.h3, Antiderivatives.h4.
    cbn [eval].
    replace (dbl (-1) 2) with (- / (1 + 1))%Qc by (apply Qc_is_canon; reflexivity).
    replace (dbl (-2) 3) with (- ((1 + 1) / (1 + 1 + 1)))%Qc
      by (apply Qc_is_canon; reflexivity).
    replace (dbl (-1) 3) with (- / (1 + 1 + 1))%Qc by (apply Qc_is_canon; reflexivity).
    split; [|split; [|split]]; qc_field; nonzero.
  - cbn [derivative scale_from].
    split; [|split; [|split]];
      repeat (apply (f_equal2 (@cons double)); [apply Qc_is_canon; reflexivity|]);
      reflexivity.
Qed.

Lemma vec2_ext (v w : vec2) : x v = x w -> y v = y w -> v = w.
Proof. destruct v, w. simpl. now intros -> ->. Qed.

Ltac vec2_ring :=
  apply vec2_ext; cbn [x y vec2_add vec2_sub vec2_scale vec2_neg]; qc_ring.

(** X17: a Hermite segment starts at [y0] with the tangent [m0] and ends at
    [y1] with the tangent [m1], for numbers and for points of the plane,
    the tangent being the value of [Derivatives::Hermite]. *)
Theorem Hermite_interpolates :
  (forall m0 y0 y1 m1 : double,
     Function_Hermite m0 y0 y1 m1 (dbl 0 1) = y0 /\
     Function_Hermite m0 y0 y1 m1 (dbl 1 1) = y1 /\
     Derivatives.Hermite m0 y0 y1 m1 (dbl 0 1) = m0 /\
     Derivatives.Hermite m0 y0 y1 m1 (dbl 1 1) = m1) /\
  (forall m0 y0 y1 m1 : vec2,
     Function_Hermite m0 y0 y1 m1 (dbl 0 1) = y0 /\
     Function_Hermite m0 y0 y1 m1 (dbl 1 1) = y1 /\
     Derivatives.Hermite m0 y0 y1 m1 (dbl 0 1) = m0 /\
     Derivatives.Hermite m0 y0 y1 m1 (dbl 1 1) = m1).
Proof.
  split; intros m0 y0 y1 m1;
    unfold Function_Hermite, Derivatives.Hermite, h1, h2, h3, h4,
      Derivatives.h1, Derivatives.h2, Derivatives.h3, Derivatives.h4;
    cbn [s_add s_scale Sample_double Sample_vec2].
  - split; [|split; [|split]]; qc_ring.
  - split; [|split; [|split]]; vec2_ring.
Qed.

(** X19: the expression of [Function::CatmullRom] and that of
    [Function::Cardinal] with the weight one half denote the same polynomial
    in [t], whose coefficients are given: as the comment of the source says,
    a Catmull-Rom segment is the cardinal segment of weight 0.5.  The
    polynomial has the value [y1] at 0 and [y2] at 1, and its derivative is
    there half the difference of the two neighbours.  This is a statement on
    the polynomials, in exact arithmetic: on doubles the two expressions are
    not rounded alike. *)
Theorem CatmullRom_is_Cardinal (y0 y1 y2 y3 t : double) :
  let p : poly :=
    [y1;
     (dbl 1 2 * (y2 - y0))%Qc;
     (dbl 1 2 * (dbl 2 1 * y0 - dbl 5 1 * y1 + dbl 4 1 * y2 - y3))%Qc;
     (dbl 1 2 * (- y0 + dbl 3 1 * y1 - dbl 3 1 * y2 + y3))%Qc] in
  Function_CatmullRom y0 y1 y2 y3 t = eval p t /\
  Function_Cardinal y0 y1 y2 y3 (dbl 1 2) t = eval p t /\
  eval p (dbl 0 1) = y1 /\ eval p (dbl 1 1) = y2 /\
  eval (derivative p) (dbl 0 1) = (dbl 1 2 * (y2 - y0))%Qc /\
  eval (derivative p) (dbl 1 1) = (dbl 1 2 * (y3 - y1))%Qc.
Proof.
  cbv zeta.
  unfold Function_CatmullRom, Function_Cardinal, Function_Hermite, h1, h2, h3, h4.
  cbn [s_add s_sub s_scale s_neg Sample_double eval derivative scale_from].
  split; [|split; [|split; [|split; [|split]]]]; qc_field; nonzero.
Qed.

Ltac qc_to_q :=
  unfold Qcminus in *; unfold Qcle, Qclt, Qcplus, Qcmult, Qcopp, Q2Qc in *;
  cbn [this] in *; rewrite ?Qred_correct in *.

(** ** The two moduli of spline.hpp *)

Lemma Imod_mod (i j : Z) : j <> 0%Z -> Imod i j = (i mod Z.abs j)%Z.
Proof.
  intro H. unfold Imod.
  pose proof (Z.quot_rem' i j) as Hq.
  pose proof (Z.rem_bound_abs i j H) as Hb.
  assert (Hs : (Z.rem i j < 0 -> i < 0)%Z).
  { intro Hn. destruct (Z.lt_ge_cases i 0) as [L | G]; [exact L|].
    pose proof (Z.rem_nonneg i j H G). lia. }
  assert (Hs' : (0 < Z.rem i j -> 0 < i)%Z).
  { intro Hn. destruct (Z.lt_ge_cases 0 i) as [L | G]; [exact L|].
    pose proof (Z.rem_nonpos i j H G). lia. }
  destruct (Z.ltb_spec (Z.rem i j) 0) as [Hr | Hr].
  - destruct (Z.ltb_spec j 0) as [Hj | Hj].
    + apply (Z.mod_unique_pos i (Z.abs j) (- (i ÷ j) - 1)); lia.
    + apply (Z.mod_unique_pos i (Z.abs j) (i ÷ j - 1)); lia.
  - destruct (Z.ltb_spec j 0) as [Hj | Hj].
    + apply (Z.mod_unique_pos i (Z.abs j) (- (i ÷ j))); lia.
    + apply (Z.mod_unique_pos i (Z.abs j) (i ÷ j)); lia.
Qed.


Lemma int_bounds (z : Z) : is_int z = true <-> (- 2 ^ 31 <= z <= 2 ^ 31 - 1)%Z.
Proof.
  unfold is_int, INT_MIN, INT_MAX. rewrite andb_true_iff, !Z.leb_le. reflexivity.
Qed.

Lemma int_rem_sign (i j : Z) :
  j <> 0%Z -> (Z.abs (Z.rem i j) < Z.abs j)%Z /\ (Z.rem i j < 0 -> i < 0)%Z /\
              (i = - Z.abs j -> Z.rem i j = 0)%Z /\
              (- Z.abs j < i < 0 -> Z.rem i j = i)%Z.
Proof.
  intro H. split; [now apply Z.rem_bound_abs|]. split; [|split].
  - intro Hn. destruct (Z.lt_ge_cases i 0) as [L | G]; [exact L|].
    pose proof (Z.rem_nonneg i j H G). lia.
  - intros ->. rewrite Z.rem_opp_l by exact H. rewrite Z.rem_abs_l by exact H.
    rewrite Z.rem_same by exact H. reflexivity.
  - intro Hi. apply Z.rem_small_iff; [exact H | lia].
Qed.

(** X21: on [int]s, [Function::Imod] is undefined for a null divisor, for
    [INT_MIN % -1], and for the divisor [INT_MIN] with a negative dividend
    other than [INT_MIN], where [-j] is not an [int].  Everywhere else it
    returns the remainder of the Euclidean division by the absolute value
    of the divisor, which is never negative; no intermediate value leaves
    the range of [int], and [Imod], on unbounded integers, has that value. *)
Theorem Imod_modulo (i j : Z) :
  is_int i = true -> is_int j = true ->
  let undefined :=
    j = 0%Z \/ (i = INT_MIN /\ j = (-1)%Z) \/ (j = INT_MIN /\ (INT_MIN < i < 0)%Z) in
  (undefined -> Function_Imod i j = Abort) /\
  (~ undefined ->
   Function_Imod i j = Ok (i mod Z.abs j)%Z /\ Imod i j = (i mod Z.abs j)%Z /\
   (0 <= i mod Z.abs j < Z.abs j)%Z /\ is_int (i mod Z.abs j) = true).
Proof.
  intros Hi Hj undefined. apply int_bounds in Hi. apply int_bounds in Hj.
  unfold undefined, INT_MIN. split.
  - intros [H | [[H1 H2] | [H1 H2]]].
    + subst j. reflexivity.
    + subst i j. reflexivity.
    + subst j. destruct (int_rem_sign i (- 2 ^ 31)) as (_ & _ & _ & Er); [lia|].
      rewrite Z.abs_neq in Er by lia. specialize (Er ltac:(lia)).
      unfold Function_Imod, int_rem, INT_MIN.
      replace (i =? - 2 ^ 31)%Z with false by (symmetry; apply Z.eqb_neq; lia).
      rewrite Er. change (- 2 ^ 31 =? 0)%Z with false.
      change (- 2 ^ 31 =? -1)%Z with false. change (- 2 ^ 31 <? 0)%Z with true.
      change (int_neg (- 2 ^ 31)) with (@Abort Z). rewrite andb_false_r.
      cbn [orb bind].
      replace (i <? 0)%Z with true by (symmetry; apply Z.ltb_lt; lia).
      reflexivity.
  - intro Hn.
    assert (H0 : j <> 0%Z) by tauto.
    destruct (int_rem_sign i j H0) as (Hb & Hs & Hz & Er).
    pose proof (Imod_mod i j H0) as EI.
    pose proof (Z.mod_pos_bound i (Z.abs j) ltac:(lia)) as Hm.
    assert (Eint : Function_Imod i j = Ok (Imod i j)).
    { unfold Function_Imod, int_rem, Imod, INT_MIN.
      replace ((j =? 0)%Z || ((i =? - 2 ^ 31)%Z && (j =? -1)%Z)) with false.
      - cbn [bind]. destruct (Z.ltb_spec (Z.rem i j) 0) as [L | G]; [|reflexivity].
        assert (Hj' : j <> (- 2 ^ 31)%Z).
        { intro E. subst j. specialize (Hs L).
          destruct (Z.eq_dec i (- 2 ^ 31)) as [E | N].
          - rewrite Z.abs_neq in Hz by lia. specialize (Hz ltac:(lia)). lia.
          - apply Hn. right. right. split; [reflexivity | lia]. }
        unfold int_neg, int_add.
        destruct (Z.ltb_spec j 0) as [Lj | Gj].
        + replace (is_int (- j)) with true by (symmetry; apply int_bounds; lia).
          cbn [bind].
          replace (is_int (Z.rem i j + - j)) with true
            by (symmetry; apply int_bounds; lia).
          reflexivity.
        + cbn [bind].
          replace (is_int (Z.rem i j + j)) with true
            by (symmetry; apply int_bounds; lia).
          reflexivity.
      - symmetry. apply orb_false_iff. split; [apply Z.eqb_neq; exact H0|].
        apply andb_false_iff.
        destruct (Z.eq_dec i (- 2 ^ 31)) as [E | N]; [right | left]; apply Z.eqb_neq.
        + intro E'. apply Hn. right. left. now split.
        + exact N. }
    rewrite Eint, EI. split; [reflexivity|]. split; [reflexivity|]. split; [exact Hm|].
    apply int_bounds. lia.
Qed.

Lemma Imod_modulo_witness :
  Function_Imod (-7) (-3) = Ok 2%Z /\ Function_Imod INT_MIN (-1) = Abort.
Proof.
  destruct (Imod_modulo (-7) (-3) eq_refl eq_refl) as [_ H].
  destruct (Imod_modulo INT_MIN (-1) eq_refl eq_refl) as [H' _].
  split.
  - apply H. unfold INT_MIN. intros [E | [[E _] | [E _]]]; discriminate.
  - apply H'. right. left. split; reflexivity.
Defined.

Lemma frac_bounds (d : double) : (0 <= d - floor d)%Qc /\ (d - floor d < 1)%Qc.
Proof.
  unfold floor, dbl_of_Z. change double with Qc in *. destruct d as [q Hq].
  qc_to_q. pose proof (Qfloor_le q) as H1. pose proof (Qlt_floor q) as H2.
  rewrite inject_Z_plus in H2. change (inject_Z 1) with 1%Q in H2. split; lra.
Qed.

Lemma floor_of_Z (k : Z) : floor (dbl_of_Z k) = dbl_of_Z k.
Proof.
  unfold floor, dbl_of_Z. f_equal. f_equal. unfold Q2Qc. cbn [this].
  rewrite (Qfloor_comp _ _ (Qred_correct (inject_Z k))). apply Qfloor_Z.
Qed.

Lemma dbl_of_Z_opp (k : Z) : dbl_of_Z (- k) = (- dbl_of_Z k)%Qc.
Proof. apply Qc_is_canon. unfold dbl_of_Z. qc_to_q. now rewrite inject_Z_opp. Qed.

Lemma dbl_of_Z_plus (k l : Z) : dbl_of_Z (k + l) = (dbl_of_Z k + dbl_of_Z l)%Qc.
Proof. apply Qc_is_canon. unfold dbl_of_Z. qc_to_q. now rewrite inject_Z_plus. Qed.

Lemma dbl_of_Z_pos (k : Z) : (0 < k)%Z -> (0 < dbl_of_Z k)%Qc.
Proof.
  intro H. unfold dbl_of_Z. qc_to_q. change 0%Q with (inject_Z 0).
  now rewrite <- Zlt_Qlt.
Qed.

Lemma range_nonzero (s e : double) : (s < e)%Qc -> (e - s)%Qc <> 0%Qc.
Proof.
  intros H E. apply (Qclt_not_eq _ _ H). symmetry.
  replace e with ((e - s) + s)%Qc by qc_ring. rewrite E. qc_ring.
Qed.

Lemma quotient_range (n s e : double) : (s < e)%Qc -> (n / (e - s) * (e - s))%Qc = n.
Proof. intro H. qc_field. now apply range_nonzero. Qed.

Lemma quotient_sign (n s e : double) :
  (s < e)%Qc -> (0 <= n)%Qc -> (0 <= n / (e - s))%Qc.
Proof.
  intros H Hn. unfold Qcdiv.
  assert (Hp : (0 < / (e - s))%Qc).
  { apply dbl_inv_pos. change double with Qc in *.
    destruct s as [a Ha], e as [b Hb]. qc_to_q. lra. }
  revert Hp. generalize (/ (e - s))%Qc. intros p Hp. change double with Qc in *.
  destruct n as [a Ha], p as [b Hb]. qc_to_q. nra.
Qed.

Lemma wrap_up (f s e : double) :
  (s < e)%Qc -> (0 <= f)%Qc -> (f < 1)%Qc ->
  (s <= f * (e - s) + s)%Qc /\ (f * (e - s) + s < e)%Qc.
Proof.
  change double with Qc in *. intros H H0 H1.
  destruct s as [a Ha], e as [b Hb], f as [c Hc]. qc_to_q. split; nra.
Qed.

Lemma wrap_down (f s e : double) :
  (s < e)%Qc -> (0 <= f)%Qc -> (f < 1)%Qc ->
  (s <= e - f * (e - s))%Qc /\ ((0 < f)%Qc -> (e - f * (e - s) < e)%Qc).
Proof.
  change double with Qc in *. intros H H0 H1.
  destruct s as [a Ha], e as [b Hb], f as [c Hc]. qc_to_q. split; [|intro]; nra.
Qed.

Lemma Mod_run (i s e d : double) :
  (s <= d)%Qc -> (d < e)%Qc ->
  (if dbl_leb s i
   then (fabs ((i - s) / (e - s)) - floor (fabs ((i - s) / (e - s)))) * (e - s) + s
   else e - (fabs ((i - s) / (e - s)) - floor (fabs ((i - s) / (e - s)))) * (e - s))%Qc
  = d ->
  Mod i s e = Ok d.
Proof.
  intros H1 H2 E. unfold Mod. rewrite E.
  apply dbl_leb_le in H1. apply dbl_ltb_lt in H2. rewrite H1, H2. reflexivity.
Qed.

Lemma dbl_leb_gt (p q : double) : dbl_leb p q = false <-> (q < p)%Qc.
Proof.
  split; intro H.
  - destruct (Qclt_le_dec q p) as [L | L]; [exact L|].
    apply dbl_leb_le in L. congruence.
  - destruct (dbl_leb p q) eqn:E; [|reflexivity].
    apply dbl_leb_le in E. exfalso. revert E. now apply Qclt_not_le.
Qed.

Lemma Mod_in_range (i start end_ : double) :
  (start < end_)%Qc ->
  ((start <= i)%Qc \/
   forall k : Z, (start - i)%Qc <> (dbl_of_Z k * (end_ - start))%Qc) ->
  exists (d : double) (k : Z),
    Mod i start end_ = Ok d /\ (start <= d)%Qc /\ (d < end_)%Qc /\
    d = (i + dbl_of_Z k * (end_ - start))%Qc.
Proof.
  intros Hr Hi.
  destruct (Qclt_le_dec i start) as [Hlt | Hle].
    - (* below the range *)
      destruct Hi as [Hi | Hi]; [exfalso; revert Hi; now apply Qclt_not_le|].
      set (q := ((start - i) / (end_ - start))%Qc).
      assert (Eq : fabs ((i - start) / (end_ - start))%Qc = q).
      { unfold fabs. replace ((i - start) / (end_ - start))%Qc with (- q)%Qc
          by (unfold q; qc_field; now apply range_nonzero).
        rewrite Qcabs_opp. apply Qcabs_pos. apply quotient_sign; [exact Hr|].
        change double with Qc in *. destruct i as [a Ha], start as [b Hb].
        qc_to_q. lra. }
      destruct (frac_bounds q) as [F0 F1].
      assert (Fpos : (0 < q - floor q)%Qc).
      { destruct (Qcle_lt_or_eq _ _ F0) as [L | E]; [exact L|]. exfalso.
        apply (Hi (Qfloor q)). fold (floor q).
        replace (floor q) with q by (replace q with ((q - floor q) + floor q)%Qc at 1
          by qc_ring; rewrite <- E; qc_ring).
        unfold q. now rewrite quotient_range. }
      destruct (wrap_down _ _ _ Hr F0 F1) as [W1 W2]. specialize (W2 Fpos).
      exists (end_ - (q - floor q) * (end_ - start))%Qc, (1 + Qfloor q)%Z.
      split; [|split; [exact W1|split; [exact W2|]]].
      + apply Mod_run; [exact W1 | exact W2 |].
        rewrite Eq. now rewrite (proj2 (dbl_leb_gt start i) Hlt).
      + rewrite dbl_of_Z_plus. fold (floor q).
        transitivity (end_ - q * (end_ - start) + floor q * (end_ - start))%Qc; [qc_ring|].
        unfold q. rewrite quotient_range by exact Hr.
        change (dbl_of_Z 1) with 1%Qc. qc_ring.
    - (* at or above the start of the range *)
      set (q := ((i - start) / (end_ - start))%Qc).
      assert (Eq : fabs q = q).
      { apply Qcabs_pos. apply quotient_sign; [exact Hr|].
        change double with Qc in *. destruct i as [a Ha], start as [b Hb].
        qc_to_q. lra. }
      destruct (frac_bounds q) as [F0 F1].
      destruct (wrap_up _ _ _ Hr F0 F1) as [W1 W2].
      exists ((q - floor q) * (end_ - start) + start)%Qc, (- Qfloor q)%Z.
      split; [|split; [exact W1|split; [exact W2|]]].
      + apply Mod_run; [exact W1 | exact W2 |].
        fold q. rewrite Eq. now rewrite (proj2 (dbl_leb_le start i) Hle).
      + rewrite dbl_of_Z_opp. fold (floor q).
        transitivity (q * (end_ - start) - floor q * (end_ - start) + start)%Qc; [qc_ring|].
        unfold q at 1. rewrite quotient_range by exact Hr. qc_ring.
Qed.

Lemma Mod_fixed (i start end_ : double) :
  (start <= i)%Qc -> (i < end_)%Qc -> Mod i start end_ = Ok i.
Proof.
  intros Hs He.
  assert (Hr : (start < end_)%Qc) by (now apply Qcle_lt_trans with i).
  destruct (Mod_in_range i start end_ Hr (or_introl Hs)) as (d & k & HM & H1 & H2 & Ed).
  rewrite HM. f_equal.
  assert (Ek : k = 0%Z).
  { subst d. change double with Qc in *. unfold dbl_of_Z in *.
    destruct i as [a Ha], start as [b Hb], end_ as [c Hc]. qc_to_q.
    destruct (Z.lt_trichotomy k 0) as [L | [E | G]]; [exfalso | exact E | exfalso].
    - assert (Hk : (inject_Z k <= -1)%Q).
      { change (-1)%Q with (inject_Z (-1)). rewrite <- Zle_Qle. lia. }
      nra.
    - assert (Hk : (1 <= inject_Z k)%Q).
      { change 1%Q with (inject_Z 1). rewrite <- Zle_Qle. lia. }
      nra. }
  subst k d. change (dbl_of_Z 0) with 0%Qc. qc_ring.
Qed.


Lemma Mod_Ok_range (i start end_ d : double) :
  Mod i start end_ = Ok d -> (start <= d)%Qc /\ (d < end_)%Qc.
Proof.
  unfold Mod. intro H. invert_bind H. invert_bind H. injection H as <-.
  split; [now apply dbl_leb_le | now apply dbl_ltb_lt].
Qed.

Lemma Mod_result (i start end_ : double) :
  Mod i start end_ = Abort \/ exists d : double, Mod i start end_ = Ok d.
Proof.
  unfold Mod.
  destruct (dbl_leb start _); [|now left].
  destruct (dbl_ltb _ end_); [right; eexists; reflexivity | now left].
Qed.

Lemma Mod_unit (x : double) :
  (dbl 0 1 <= x)%Qc ->
  Mod x (dbl 0 1) (dbl 1 1) = Ok (x - floor x)%Qc /\
  (dbl 0 1 <= x - floor x)%Qc /\ (x - floor x < dbl 1 1)%Qc.
Proof.
  intro Hx. destruct (frac_bounds x) as [F0 F1].
  assert (B0 : (dbl 0 1 <= x - floor x)%Qc) by (now rewrite dbl_0).
  assert (B1 : (x - floor x < dbl 1 1)%Qc) by (now rewrite dbl_1).
  split; [|split; assumption].
  apply Mod_run; [exact B0 | exact B1 |].
  rewrite (proj2 (dbl_leb_le (dbl 0 1) x) Hx).
  replace ((x - dbl 0 1) / (dbl 1 1 - dbl 0 1))%Qc with x by (qc_field; discriminate).
  unfold fabs. rewrite Qcabs_pos by (now rewrite dbl_0 in Hx). qc_ring.
Qed.

(** X22: on the range from 0 to 1, that of the knots of the curves of
    [CreateThread], [Mod] returns the fractional part of every number that
    is not negative: [x - floor x], which is at least 0 and less than 1, and
    [x] itself when [x] is less than 1.  There the division and the product
    of [Mod] are by 1 and its sum adds 0, so that rounding changes nothing.
    On every range, a number that [Mod] returns is in the range: its two
    assertions see to it. *)
Theorem Mod_unit_range (x : double) :
  (dbl 0 1 <= x)%Qc ->
  Mod x (dbl 0 1) (dbl 1 1) = Ok (x - floor x)%Qc /\
  (dbl 0 1 <= x - floor x)%Qc /\ (x - floor x < dbl 1 1)%Qc /\
  ((x < dbl 1 1)%Qc -> Mod x (dbl 0 1) (dbl 1 1) = Ok x) /\
  (forall (i start end_ d : double),
     Mod i start end_ = Ok d -> (start <= d)%Qc /\ (d < end_)%Qc).
Proof.
  intro Hx. destruct (Mod_unit x Hx) as (E & B0 & B1).
  split; [exact E|]. split; [exact B0|]. split; [exact B1|]. split.
  - intro H1. now apply Mod_fixed.
  - intros i start end_ d. apply Mod_Ok_range.
Qed.

Lemma Mod_unit_range_witness :
  Mod (dbl 5 2) (dbl 0 1) (dbl 1 1) = Ok (dbl 1 2) /\
  Mod (dbl 1 2) (dbl 0 1) (dbl 1 1) = Ok (dbl 1 2).
Proof.
  destruct (Mod_unit_range (dbl 5 2)) as (E & _); [discriminate|].
  destruct (Mod_unit_range (dbl 1 2)) as (_ & _ & _ & E' & _); [discriminate|].
  split; [|apply E'; reflexivity].
  rewrite E. apply f_equal. apply Qc_is_canon. reflexivity.
Defined.

(** X23: a number that is below [start] by a whole number of ranges makes
    [Mod] fail its second assertion: its computation ends on [end], which is
    not in the range. *)
Theorem Mod_aborts_on_multiples (start end_ : double) (k : Z) :
  (start < end_)%Qc -> (0 < k)%Z ->
  Mod (start - dbl_of_Z k * (end_ - start))%Qc start end_ = Abort.
Proof.
  intros Hr Hk. unfold Mod.
  set (i := (start - dbl_of_Z k * (end_ - start))%Qc).
  assert (Hlt : (i < start)%Qc).
  { pose proof (dbl_of_Z_pos k Hk) as Hp. unfold i. clearbody i.
    generalize dependent (dbl_of_Z k). intros c Hc. change double with Qc in *.
    destruct start as [a Ha], end_ as [b Hb], c as [q Hq]. qc_to_q. nra. }
  rewrite (proj2 (dbl_leb_gt start i) Hlt).
  assert (Eq : fabs ((i - start) / (end_ - start))%Qc = dbl_of_Z k).
  { unfold fabs. replace ((i - start) / (end_ - start))%Qc with (- dbl_of_Z k)%Qc
      by (unfold i; qc_field; now apply range_nonzero).
    rewrite Qcabs_opp. apply Qcabs_pos, Qclt_le_weak, dbl_of_Z_pos, Hk. }
  rewrite Eq, floor_of_Z.
  replace (end_ - (dbl_of_Z k - dbl_of_Z k) * (end_ - start))%Qc with end_ by qc_ring.
  rewrite (proj2 (dbl_leb_le start end_) (Qclt_le_weak _ _ Hr)).
  rewrite dbl_ltb_irrefl. reflexivity.
Qed.

Lemma Mod_aborts_on_multiples_witness :
  Mod (dbl (-1) 1) (dbl 0 1) (dbl 1 1) = Abort.
Proof.
  exact (Mod_aborts_on_multiples (dbl 0 1) (dbl 1 1) 1 eq_refl eq_refl).
Defined.

(** ** The constructor and the arrays of a spline *)

Lemma ascending_knots (v : double) (l : list double) :
  ascending v l = true <-> knots_ascend (v :: l).
Proof.
  revert v. induction l as [|w l IH]; intro v; simpl.
  - split; [|reflexivity]. intros _ [|i] [|j] p q Hij Hp Hq; simpl in *;
      try lia; try discriminate; destruct j; discriminate.
  - rewrite andb_true_iff, dbl_ltb_lt, IH. split.
    + intros [Hvw Hl] [|i] [|j] p q Hij Hp Hq; try lia.
      * simpl in Hp. injection Hp as <-. destruct j as [|j].
        -- simpl in Hq. now injection Hq as <-.
        -- apply Qclt_trans with w; [exact Hvw|].
           apply (Hl 0%nat (S j) w q); [lia | reflexivity | exact Hq].
      * apply (Hl i j p q); [lia | exact Hp | exact Hq].
    + intro H. split.
      * apply (H 0%nat 1%nat v w); [lia | reflexivity | reflexivity].
      * intros i j p q Hij Hp Hq. apply (H (S i) (S j) p q); [lia | exact Hp | exact Hq].
Qed.

Lemma knots_ascend_nil : knots_ascend [].
Proof. intros [|i] j p q _ Hp; discriminate. Qed.

Lemma small_count (n : nat) : (Z.of_nat n < 2 ^ 30)%Z -> (Z.of_nat n mod 2 ^ 30)%Z = Z.of_nat n.
Proof. intro H. apply Z.mod_small. lia. Qed.

Lemma Spline_ctor_Ok {ST : Type} (xs : list double) (ys : list ST) (n : nat)
    (loop copy : bool) :
  (Z.of_nat n < 2 ^ 30)%Z -> (n <= length xs)%nat -> (n <= length ys)%nat ->
  (1 < n)%nat -> knots_ascend (firstn n xs) ->
  Spline_ctor xs ys n loop copy
  = Ok (MkSpline (Z.of_nat n) loop copy (firstn n xs) (firstn n ys)) /\
  spline_ok (MkSpline (Z.of_nat n) loop copy (firstn n xs) (firstn n ys)).
Proof.
  intros Hn Hx Hy H1 Ha. split.
  - unfold Spline_ctor. rewrite small_count by exact Hn.
    replace (1 <? Z.of_nat n)%Z with true by (symmetry; apply Z.ltb_lt; lia).
    replace ((n <=? length xs)%nat && (n <=? length ys)%nat) with true
      by (symmetry; apply andb_true_iff; split; now apply Nat.leb_le).
    cbn [bind assert]. rewrite Nat2Z.id.
    rewrite (firstn_all2 (n := n) (firstn n xs)) by (rewrite length_firstn; lia).
    destruct (firstn n xs) as [|last l] eqn:E; [reflexivity|].
    rewrite (proj2 (ascending_knots last l) Ha). reflexivity.
  - unfold spline_ok. cbn [mN mXs mYs]. rewrite !length_firstn.
    split; [lia|]. split; [lia|]. split; [lia | exact Ha].
Qed.

Lemma Spline_ctor_Abort {ST : Type} (xs : list double) (ys : list ST) (n : nat)
    (loop copy : bool) :
  (Z.of_nat n < 2 ^ 30)%Z -> (n <= length xs)%nat -> (n <= length ys)%nat ->
  ((n <= 1)%nat \/ ~ knots_ascend (firstn n xs)) ->
  Spline_ctor xs ys n loop copy = Abort.
Proof.
  intros Hn Hx Hy H. unfold Spline_ctor. rewrite small_count by exact Hn.
  destruct (Z.ltb_spec 1 (Z.of_nat n)) as [L | L]; [|reflexivity].
  destruct H as [H | H]; [lia|].
  replace ((n <=? length xs)%nat && (n <=? length ys)%nat) with true
    by (symmetry; apply andb_true_iff; split; now apply Nat.leb_le).
  cbn [bind assert]. rewrite Nat2Z.id.
  rewrite (firstn_all2 (n := n) (firstn n xs)) by (rewrite length_firstn; lia).
  destruct (firstn n xs) as [|last l] eqn:E; [exfalso; apply H, knots_ascend_nil|].
  destruct (ascending last l) eqn:Ea; [|reflexivity].
  exfalso. apply H. now apply ascending_knots.
Qed.

(** X24: for a number of knots that the 30 bits of [mN] can hold and that
    the two arrays have, the constructor of [Spline] accepts its arguments
    when there are at least two knots and the knots increase strictly, and
    the spline it makes then has these knots and values; it refuses the
    others by a failed assertion. *)
Theorem Spline_ctor_accepts {ST : Type} (xs : list double) (ys : list ST) (n : nat)
    (loop copy : bool) :
  (Z.of_nat n < 2 ^ 30)%Z -> (n <= length xs)%nat -> (n <= length ys)%nat ->
  ((1 < n)%nat /\ knots_ascend (firstn n xs) ->
   Spline_ctor xs ys n loop copy
   = Ok (MkSpline (Z.of_nat n) loop copy (firstn n xs) (firstn n ys)) /\
   spline_ok (MkSpline (Z.of_nat n) loop copy (firstn n xs) (firstn n ys))) /\
  ((n <= 1)%nat \/ ~ knots_ascend (firstn n xs) ->
   Spline_ctor xs ys n loop copy = Abort).
Proof.
  intros Hn Hx Hy. split.
  - intros [H1 Ha]. now apply Spline_ctor_Ok.
  - now apply Spline_ctor_Abort.
Qed.

Lemma Spline_ctor_accepts_witness :
  (exists s : Spline double,
     Spline_ctor [dbl 0 1; dbl 1 2; dbl 1 1] [dbl 5 1; dbl 7 1; dbl 5 1] 3 true true
     = Ok s /\ spline_ok s) /\
  Spline_ctor [dbl 0 1; dbl 1 1; dbl 1 1] [dbl 5 1; dbl 7 1; dbl 5 1] 3 true true = Abort.
Proof.
  split.
  - eexists.
    apply (Spline_ctor_accepts [dbl 0 1; dbl 1 2; dbl 1 1] [dbl 5 1; dbl 7 1; dbl 5 1]
             3 true true); [reflexivity | simpl; lia | simpl; lia |].
    split; [lia|]. apply ascending_knots. reflexivity.
  - apply (Spline_ctor_accepts [dbl 0 1; dbl 1 1; dbl 1 1] [dbl 5 1; dbl 7 1; dbl 5 1]
             3 true true); [reflexivity | simpl; lia | simpl; lia |].
    right. intro H. apply ascending_knots in H. discriminate.
Defined.

(** ** Reading a spline *)

Lemma array_read_index {A : Type} (l : list A) (k : nat) (v : A) :
  nth_error l k = Some v -> array_read l (Z.of_nat k) = Ok v.
Proof.
  intro H. unfold array_read.
  destruct (Z.ltb_spec (Z.of_nat k) 0) as [L | _]; [lia|]. now rewrite Nat2Z.id, H.
Qed.

Section Reading.
Context {ST : Type}.
Variable s : Spline ST.
Hypothesis Hok : spline_ok s.

Variable N : nat.
Hypothesis EN : N = length (mXs s).

Local Notation "'X' k" := (knot_at s k) (at level 9, k at level 9).

Lemma count_knots : mN s = Z.of_nat N /\ (2 <= N)%nat /\ length (mYs s) = N.
Proof. destruct Hok as (H1 & H2 & H3 & _). rewrite EN. repeat split; [exact H2 | lia | exact H3]. Qed.

Lemma Imod_index (i : Z) :
  exists k : nat, (k < N)%nat /\ Imod i (mN s) = Z.of_nat k /\
                  Z.of_nat k = (i mod mN s)%Z.
Proof.
  destruct count_knots as (En & HN & _).
  assert (Hn : mN s <> 0%Z) by lia.
  pose proof (Imod_mod i (mN s) Hn) as E. rewrite Z.abs_eq in E by lia.
  pose proof (Z.mod_pos_bound i (mN s) ltac:(lia)) as Hb.
  exists (Z.to_nat (i mod mN s)). rewrite E. split; [lia|]. split; lia.
Qed.

Lemma Imod_of_index (k : nat) : (k < N)%nat -> Imod (Z.of_nat k) (mN s) = Z.of_nat k.
Proof. intro H. destruct count_knots as (En & _). apply Imod_small. lia. Qed.

Lemma Imod_succ (k : nat) :
  (k + 1 < N)%nat -> Imod (Z.of_nat k + 1) (mN s) = Z.of_nat (k + 1).
Proof.
  intro H. replace (Z.of_nat k + 1)%Z with (Z.of_nat (k + 1)) by lia.
  now apply Imod_of_index.
Qed.

Lemma Imod_last : Imod (Z.of_nat (N - 1) + 1) (mN s) = 0%Z.
Proof.
  destruct count_knots as (En & HN & _).
  replace (Z.of_nat (N - 1) + 1)%Z with (mN s) by lia. apply Imod_same. lia.
Qed.

Lemma GetX_at (i : Z) (k : nat) :
  (k < N)%nat -> Imod i (mN s) = Z.of_nat k -> GetX s i = Ok (X k).
Proof.
  intros Hk E. destruct count_knots as (En & _). unfold GetX. rewrite E.
  replace (0 <=? Z.of_nat k)%Z with true by (symmetry; apply Z.leb_le; lia).
  replace (Z.of_nat k <? mN s)%Z with true by (symmetry; apply Z.ltb_lt; lia).
  cbn [bind assert]. apply array_read_index. apply nth_error_nth'. now rewrite <- EN.
Qed.

Lemma GetY_at (i : Z) (k : nat) :
  (k < N)%nat -> Imod i (mN s) = Z.of_nat k ->
  exists v : ST, nth_error (mYs s) k = Some v /\ GetY s i = Ok v.
Proof.
  intros Hk E. destruct count_knots as (En & _ & Ly). unfold GetY. rewrite E.
  replace (0 <=? Z.of_nat k)%Z with true by (symmetry; apply Z.leb_le; lia).
  replace (Z.of_nat k <? mN s)%Z with true by (symmetry; apply Z.ltb_lt; lia).
  cbn [bind assert].
  destruct (nth_error (mYs s) k) as [v|] eqn:Ev.
  - exists v. split; [reflexivity|]. now apply array_read_index.
  - apply nth_error_None in Ev. lia.
Qed.

Lemma ascend (i j : nat) : (i < j)%nat -> (j < N)%nat -> (X i < X j)%Qc.
Proof.
  intros Hij Hj. destruct Hok as (_ & _ & _ & Ha).
  apply (Ha i j); [exact Hij | |]; apply nth_error_nth'; lia.
Qed.

Lemma ascend_le (i j : nat) : (i <= j)%nat -> (j < N)%nat -> (X i <= X j)%Qc.
Proof.
  intros Hij Hj. destruct (Nat.eq_dec i j) as [-> | Hne]; [apply Qcle_refl|].
  apply Qclt_le_weak, ascend; lia.
Qed.

Lemma bracket_N (b : nat) (x : double) :
  bracket s b x <->
  (b + 2 <= N)%nat /\ (b = 0%nat \/ (X b <= x)%Qc) /\
  ((b + 2)%nat = N \/ (x < X (b + 1))%Qc).
Proof. unfold bracket. rewrite <- EN. reflexivity. Qed.

Lemma bracket_exists (x : double) : exists b : nat, bracket s b x.
Proof.
  destruct count_knots as (_ & HN & _).
  assert (G : forall m : nat, (m + 2 <= N)%nat ->
                ((m + 2)%nat = N \/ (x < X (m + 1))%Qc) -> exists b, bracket s b x).
  { induction m as [|m IH]; intros Hm Hx.
    - exists 0%nat. apply bracket_N. split; [exact Hm|]. split; [now left | exact Hx].
    - destruct (Qclt_le_dec x (X (S m))) as [L | L].
      + apply IH; [lia|]. right. now replace (m + 1)%nat with (S m) by lia.
      + exists (S m). apply bracket_N. split; [exact Hm|]. split; [now right | exact Hx]. }
  apply (G (N - 2)%nat); [lia|]. left. lia.
Qed.

Lemma bracket_unique (b b' : nat) (x : double) :
  bracket s b x -> bracket s b' x -> b = b'.
Proof.
  assert (G : forall b b', bracket s b x -> bracket s b' x -> (b < b')%nat -> False).
  { intros c c' Hc Hc' Hlt. apply bracket_N in Hc, Hc'.
    destruct Hc as (H1 & _ & H3). destruct Hc' as (H1' & H2' & _).
    destruct H3 as [E | H3]; [lia|]. destruct H2' as [E | H2']; [lia|].
    apply (Qclt_not_le _ _ H3). apply Qcle_trans with (X c'); [|exact H2'].
    apply ascend_le; lia. }
  intros H H'. destruct (Nat.lt_trichotomy b b') as [L | [E | L]];
    [exfalso; now apply (G b b') | exact E | exfalso; now apply (G b' b)].
Qed.

Section Search.
Variables (x : double) (b : nat).
Hypothesis Hb : bracket s b x.
Hypothesis Hloop : mLoop s = true -> (X 0 <= x)%Qc /\ (x < X (N - 1))%Qc.

Lemma search_found (fuel : nat) (i : Z) :
  Imod i (mN s) = Z.of_nat b -> GetIndex_loop (S fuel) s x i = Ok (Z.of_nat b).
Proof.
  intro E. destruct count_knots as (En & HN & _). destruct (proj1 (bracket_N _ _) Hb) as (H1 & H2 & H3).
  cbn [GetIndex_loop]. rewrite E.
  rewrite (GetX_at _ b) by (try apply Imod_of_index; lia).
  rewrite (GetX_at _ (b + 1)) by (try apply Imod_succ; lia).
  cbn [bind].
  destruct (dbl_leb (X b) x) eqn:Ec.
  - destruct (dbl_ltb x (X (b + 1))) eqn:En'; [reflexivity|].
    destruct H3 as [H3 | H3]; [|apply dbl_ltb_lt in H3; congruence].
    destruct (mLoop s) eqn:El.
    + exfalso. destruct (Hloop eq_refl) as [_ Hl].
      replace (N - 1)%nat with (b + 1)%nat in Hl by lia.
      apply dbl_ltb_lt in Hl. congruence.
    + replace (Z.of_nat b =? mN s - 2)%Z with true by (symmetry; apply Z.eqb_eq; lia).
      reflexivity.
  - destruct H2 as [H2 | H2]; [|apply dbl_leb_le in H2; congruence].
    destruct (mLoop s) eqn:El.
    + exfalso. destruct (Hloop eq_refl) as [Hl _]. subst b.
      apply dbl_leb_le in Hl. congruence.
    + subst b. reflexivity.
Qed.

Lemma search_up (d fuel k : nat) (i : Z) :
  Imod i (mN s) = Z.of_nat k -> (k + d)%nat = b -> (d < fuel)%nat ->
  GetIndex_loop fuel s x i = Ok (Z.of_nat b).
Proof.
  destruct count_knots as (En & HN & _).
  revert fuel k i. induction d as [|d IH]; intros fuel k i E Hk Hf;
    (destruct fuel as [|fuel]; [lia|]).
  - apply search_found. rewrite E. f_equal. lia.
  - destruct (proj1 (bracket_N _ _) Hb) as (H1 & H2 & H3).
    cbn [GetIndex_loop]. rewrite E.
    rewrite (GetX_at _ k) by (try apply Imod_of_index; lia).
    rewrite (GetX_at _ (k + 1)) by (try apply Imod_succ; lia).
    cbn [bind].
    assert (Hbx : (X b <= x)%Qc) by (destruct H2 as [H2 | H2]; [lia | exact H2]).
    assert (Hc : dbl_leb (X k) x = true).
    { apply dbl_leb_le. apply Qcle_trans with (X b); [|exact Hbx]. apply ascend_le; lia. }
    assert (Hn : dbl_ltb x (X (k + 1)) = false).
    { destruct (dbl_ltb x (X (k + 1))) eqn:E1; [|reflexivity]. exfalso.
      apply dbl_ltb_lt in E1. apply (Qclt_not_le _ _ E1).
      apply Qcle_trans with (X b); [|exact Hbx]. apply ascend_le; lia. }
    rewrite Hc, Hn.
    replace (Z.of_nat k =? mN s - 2)%Z with false by (symmetry; apply Z.eqb_neq; lia).
    cbn [andb]. apply (IH fuel (S k)); [|lia|lia].
    replace (Z.of_nat k + 1)%Z with (Z.of_nat (S k)) by lia. apply Imod_of_index. lia.
Qed.

Lemma search_down (d fuel k : nat) (i : Z) :
  Imod i (mN s) = Z.of_nat k -> k = (b + d)%nat -> (k < N)%nat ->
  ~ ((k + 1)%nat = N /\ (X k <= x)%Qc) -> (d < fuel)%nat ->
  GetIndex_loop fuel s x i = Ok (Z.of_nat b).
Proof.
  destruct count_knots as (En & HN & _).
  revert fuel k i. induction d as [|d IH]; intros fuel k i E Hk HkN Hlast Hf;
    (destruct fuel as [|fuel]; [lia|]).
  - apply search_found. rewrite E. f_equal. lia.
  - destruct (proj1 (bracket_N _ _) Hb) as (H1 & H2 & H3).
    cbn [GetIndex_loop]. rewrite E.
    rewrite (GetX_at _ k) by (try apply Imod_of_index; lia).
    assert (Hnext : exists v, GetX s (Z.of_nat k + 1) = Ok v).
    { destruct (Imod_index (Z.of_nat k + 1)) as (k' & Hk' & Ek' & _).
      exists (X k'). now apply GetX_at. }
    destruct Hnext as [v ->]. cbn [bind].
    assert (Hc : dbl_leb (X k) x = false).
    { apply dbl_leb_gt. destruct H3 as [H3 | H3].
      - assert (Ek : (k + 1)%nat = N) by lia.
        destruct (Qclt_le_dec x (X k)) as [L | L]; [exact L|]. exfalso. now apply Hlast.
      - apply Qclt_le_trans with (X (b + 1)); [exact H3|]. apply ascend_le; lia. }
    rewrite Hc.
    replace (Z.of_nat k =? 0)%Z with false by (symmetry; apply Z.eqb_neq; lia).
    cbn [andb]. apply (IH fuel (k - 1)%nat); try lia.
    replace (Z.of_nat k - 1)%Z with (Z.of_nat (k - 1)) by lia. apply Imod_of_index. lia.
Qed.

Lemma search_wrap (fuel : nat) (i : Z) :
  Imod i (mN s) = Z.of_nat (N - 1) -> (X (N - 1) <= x)%Qc -> (N <= fuel)%nat ->
  GetIndex_loop fuel s x i = Ok (Z.of_nat b).
Proof.
  intros E Hx Hf. destruct count_knots as (En & HN & _).
  destruct fuel as [|fuel]; [lia|].
  assert (El : mLoop s = false).
  { destruct (mLoop s); [|reflexivity]. exfalso. destruct (Hloop eq_refl) as [_ Hl].
    now apply (Qclt_not_le _ _ Hl). }
  assert (Eb : (b + 2)%nat = N).
  { destruct (proj1 (bracket_N _ _) Hb) as (H1 & _ & [H3 | H3]); [exact H3|]. exfalso.
    apply (Qclt_not_le _ _ H3). apply Qcle_trans with (X (N - 1)); [|exact Hx].
    apply ascend_le; lia. }
  cbn [GetIndex_loop]. rewrite E.
  rewrite (GetX_at _ (N - 1)) by (try apply Imod_of_index; lia).
  rewrite (GetX_at _ 0) by (try apply Imod_last; lia).
  cbn [bind]. rewrite (proj2 (dbl_leb_le _ _) Hx).
  assert (Hn : dbl_ltb x (X 0) = false).
  { destruct (dbl_ltb x (X 0)) eqn:E1; [|reflexivity]. exfalso.
    apply dbl_ltb_lt in E1. apply (Qclt_not_le _ _ E1).
    apply Qcle_trans with (X (N - 1)); [|exact Hx]. apply ascend_le; lia. }
  rewrite Hn.
  replace (Z.of_nat (N - 1) =? mN s - 2)%Z with false by (symmetry; apply Z.eqb_neq; lia).
  cbn [andb]. apply (search_up b fuel 0%nat); [apply Imod_last | lia | lia].
Qed.

Lemma search_any (i : Z) : GetIndex_loop (S N) s x i = Ok (Z.of_nat b).
Proof.
  destruct count_knots as (En & HN & _). destruct (proj1 (bracket_N _ _) Hb) as (H1 & _).
  destruct (Imod_index i) as (k & Hk & Ek & _).
  destruct (Nat.le_gt_cases k b) as [L | G].
  - apply (search_up (b - k) (S N) k i Ek); lia.
  - destruct (Nat.eq_dec (k + 1) N) as [Ekn | Nkn].
    + destruct (Qclt_le_dec x (X k)) as [Lx | Lx].
      * apply (search_down (k - b) (S N) k i Ek); [lia | lia | | lia].
        intros [_ Hx]. now apply (Qclt_not_le _ _ Lx).
      * replace k with (N - 1)%nat in * by lia.
        apply search_wrap; [exact Ek | exact Lx | lia].
    + apply (search_down (k - b) (S N) k i Ek); [lia | lia | | lia]. intros [Hx _]. lia.
Qed.

End Search.

End Reading.

Lemma LoopInRange_Mod {ST : Type} (s : Spline ST) (x : double) :
  spline_ok s ->
  LoopInRange s x = Mod x (knot_at s 0) (knot_at s (length (mXs s) - 1)).
Proof.
  intro Hok. destruct (count_knots s Hok _ eq_refl) as (En & HN & _).
  unfold LoopInRange.
  replace (array_read (mXs s) 0) with (Ok (knot_at s 0))
    by (symmetry; apply (array_read_index (mXs s) 0%nat), nth_error_nth'; lia).
  replace (mN s - 1)%Z with (Z.of_nat (length (mXs s) - 1)) by lia.
  rewrite (array_read_index (mXs s) _ (knot_at s (length (mXs s) - 1)))
    by (apply nth_error_nth'; lia).
  reflexivity.
Qed.

Lemma GetIndex_at {ST : Type} (s : Spline ST) (c : Z) (x x' : double) (b : nat) :
  spline_ok s ->
  (if mLoop s then LoopInRange s x = Ok x' else x' = x) ->
  bracket s b x' ->
  GetIndex s c x = Ok (Z.of_nat b) /\
  (mLoop s = true -> (knot_at s b <= x')%Qc /\ (x' < knot_at s (b + 1))%Qc).
Proof.
  intros Hok Hx Hb. destruct (count_knots s Hok _ eq_refl) as (En & HN & _).
  assert (Hloop : mLoop s = true ->
            (knot_at s 0 <= x')%Qc /\ (x' < knot_at s (length (mXs s) - 1))%Qc).
  { intro El. rewrite El in Hx. rewrite LoopInRange_Mod in Hx by exact Hok.
    now apply Mod_Ok_range in Hx. }
  split.
  - unfold GetIndex.
    replace (if mLoop s then LoopInRange s x else Ok x) with (Ok x')
      by (destruct (mLoop s); congruence).
    cbn [bind]. rewrite En, Nat2Z.id.
    exact (search_any s Hok _ eq_refl x' b Hb Hloop c).
  - intro El. destruct (Hloop El) as [H0 H1]. destruct Hb as (B1 & B2 & B3). split.
    + destruct B2 as [-> | B2]; [exact H0 | exact B2].
    + destruct B3 as [B3 | B3]; [|exact B3].
      now replace (b + 1)%nat with (length (mXs s) - 1)%nat by lia.
Qed.

Lemma GetSubRange_at {ST : Type} (s : Spline ST) (x x' : double) (b : nat) :
  spline_ok s ->
  (if mLoop s then LoopInRange s x = Ok x' else x' = x) ->
  (b + 2 <= length (mXs s))%nat ->
  GetSubRange s (Z.of_nat b) x
  = Ok ((x' - knot_at s b) / (knot_at s (b + 1) - knot_at s b))%Qc.
Proof.
  intros Hok Hx Hb. unfold GetSubRange.
  replace (if mLoop s then LoopInRange s x else Ok x) with (Ok x')
    by (destruct (mLoop s); congruence).
  cbn [bind].
  rewrite (GetX_at s Hok _ eq_refl _ b) by (try apply (Imod_of_index s Hok _ eq_refl); lia).
  rewrite (GetX_at s Hok _ eq_refl _ (b + 1))
    by (try apply (Imod_succ s Hok _ eq_refl); lia).
  reflexivity.
Qed.

Lemma scaled_below (q r : double) : (0 < r)%Qc -> (q * r < r)%Qc -> (q < 1)%Qc.
Proof.
  change double with Qc in *. intros Hp Hv. destruct q as [a Ha], r as [b Hb]. qc_to_q.
  destruct (Qlt_le_dec a 1) as [L | L]; [exact L | exfalso; nra].
Qed.

Lemma unit_quotient (lo hi v : double) :
  (lo <= v)%Qc -> (v < hi)%Qc ->
  (0 <= (v - lo) / (hi - lo))%Qc /\ ((v - lo) / (hi - lo) < 1)%Qc.
Proof.
  intros H0 H1.
  assert (Hr : (lo < hi)%Qc) by (now apply Qcle_lt_trans with v).
  assert (Hn : (0 <= v - lo)%Qc).
  { clear H1 Hr. change double with Qc in *. destruct lo as [a Ha], v as [b Hb].
    qc_to_q. lra. }
  assert (Hp : (0 < hi - lo)%Qc).
  { clear H0 H1 Hn. change double with Qc in *. destruct lo as [a Ha], hi as [b Hb].
    qc_to_q. lra. }
  assert (Hv : (v - lo < hi - lo)%Qc).
  { clear H0 Hr Hn Hp. change double with Qc in *.
    destruct lo as [a Ha], hi as [b Hb], v as [c Hc]. qc_to_q. lra. }
  split; [now apply quotient_sign|].
  apply (scaled_below _ (hi - lo)%Qc Hp). now rewrite quotient_range.
Qed.

(** ** Evaluation of a spline *)

Lemma LoopInRange_unit {ST : Type} (s : Spline ST) (x : double) :
  spline_ok s -> unit_range s -> LoopInRange s x = Mod x (dbl 0 1) (dbl 1 1).
Proof.
  intros Hok [E0 E1]. rewrite LoopInRange_Mod by exact Hok. now rewrite E0, E1.
Qed.

(** X25: on a spline that its constructor accepted and whose knots go from
    0 to 1, [LoopInRange] returns the fractional part of every parameter
    that is not negative, and a parameter from 0 to 1, 1 apart, as it is. *)
Theorem LoopInRange_wraps {ST : Type} (s : Spline ST) (x : double) :
  spline_ok s -> unit_range s -> (dbl 0 1 <= x)%Qc ->
  LoopInRange s x = Ok (x - floor x)%Qc /\
  (dbl 0 1 <= x - floor x)%Qc /\ (x - floor x < dbl 1 1)%Qc /\
  ((x < dbl 1 1)%Qc -> LoopInRange s x = Ok x).
Proof.
  intros Hok Hu Hx. rewrite (LoopInRange_unit s x Hok Hu).
  destruct (Mod_unit x Hx) as (E & B0 & B1).
  split; [exact E|]. split; [exact B0|]. split; [exact B1|].
  intro H1. now apply Mod_fixed.
Qed.

Lemma LoopInRange_wraps_witness :
  LoopInRange (MkSpline 3 true true [dbl 0 1; dbl 1 2; dbl 1 1]
                        [dbl 5 1; dbl 7 1; dbl 5 1]) (dbl 9 4)
  = Ok (dbl 1 4).
Proof.
  destruct (LoopInRange_wraps
              (MkSpline 3 true true [dbl 0 1; dbl 1 2; dbl 1 1]
                        [dbl 5 1; dbl 7 1; dbl 5 1]) (dbl 9 4)) as (E & _).
  - repeat split; try reflexivity. apply ascending_knots. reflexivity.
  - split; reflexivity.
  - discriminate.
  - rewrite E. apply f_equal. apply Qc_is_canon. reflexivity.
Defined.

Lemma LoopInRange_result {ST : Type} (s : Spline ST) (x : double) :
  spline_ok s ->
  LoopInRange s x = Abort \/ exists x' : double, LoopInRange s x = Ok x'.
Proof. intro Hok. rewrite LoopInRange_Mod by exact Hok. apply Mod_result. Qed.

Lemma wrapped {ST : Type} (s : Spline ST) (x : double) :
  spline_ok s ->
  (mLoop s = true /\ LoopInRange s x = Abort) \/
  exists x' : double, if mLoop s then LoopInRange s x = Ok x' else x' = x.
Proof.
  intro Hok. destruct (mLoop s) eqn:El.
  - destruct (LoopInRange_result s x Hok) as [E | [x' E]]; [left; now split|].
    right. now exists x'.
  - right. now exists x.
Qed.

(** X26: on a spline that its constructor accepted, the search of
    [GetIndex] ends from every value of the cached index [mLastIndex], which
    the constructor leaves uninitialised, and its outcome does not depend on
    that value.  On a spline that loops, [GetIndex] fails where
    [LoopInRange] fails, on an assertion of [Mod] (at the parameter -1 for
    knots from 0 to 1).  Everywhere else it returns the interval that holds
    the parameter, wrapped by [LoopInRange] when the spline loops: the only
    interval whose knots have it between them, or the first interval for a
    parameter before all the knots and the last for one after them. *)
Theorem GetIndex_finds {ST : Type} (s : Spline ST) (x : double) :
  spline_ok s ->
  (mLoop s = true /\ LoopInRange s x = Abort /\
   forall mLastIndex : Z, GetIndex s mLastIndex x = Abort) \/
  (exists (x' : double) (b : nat),
     (if mLoop s then LoopInRange s x = Ok x' else x' = x) /\
     (forall mLastIndex : Z, GetIndex s mLastIndex x = Ok (Z.of_nat b)) /\
     bracket s b x' /\
     (forall b' : nat, bracket s b' x' -> b' = b) /\
     (mLoop s = true -> (knot_at s b <= x')%Qc /\ (x' < knot_at s (b + 1))%Qc)).
Proof.
  intro Hok. destruct (wrapped s x Hok) as [[El E] | [x' Hx]].
  - left. split; [exact El|]. split; [exact E|]. intro c.
    unfold GetIndex. now rewrite El, E.
  - right. destruct (bracket_exists s Hok _ eq_refl x') as [b Hb].
    exists x', b. split; [exact Hx|]. split; [|split; [exact Hb|split]].
    + intro c. exact (proj1 (GetIndex_at s c x x' b Hok Hx Hb)).
    + intros b' Hb'. exact (bracket_unique s Hok _ eq_refl b' b x' Hb' Hb).
    + exact (proj2 (GetIndex_at s 0 x x' b Hok Hx Hb)).
Qed.

Lemma GetIndex_finds_witness :
  let s := MkSpline 3 true true [dbl 0 1; dbl 1 2; dbl 1 1] [dbl 5 1; dbl 7 1; dbl 5 1] in
  (forall mLastIndex : Z, GetIndex s mLastIndex (dbl (-1) 1) = Abort) /\
  (exists b : nat, forall mLastIndex : Z, GetIndex s mLastIndex (dbl 3 4) = Ok (Z.of_nat b)).
Proof.
  intro s.
  assert (Hok : spline_ok s).
  { repeat split; try reflexivity. apply ascending_knots. reflexivity. }
  split.
  - destruct (GetIndex_finds s (dbl (-1) 1) Hok) as [(_ & _ & H) | (x' & b & Hx & _)];
      [exact H|].
    exfalso. change (mLoop s) with true in Hx. cbv iota in Hx.
    assert (E : LoopInRange s (dbl (-1) 1) = Abort) by (vm_compute; reflexivity).
    rewrite E in Hx. discriminate.
  - destruct (GetIndex_finds s (dbl 3 4) Hok) as [(_ & E & _) | (x' & b & _ & H & _)].
    + exfalso.
      assert (E' : LoopInRange s (dbl 3 4) = Ok (dbl 3 4)) by (vm_compute; reflexivity).
      rewrite E' in E. discriminate.
    + exists b. exact H.
Defined.

Lemma GetM_at {ST : Type} (h : Hermite ST) (i : Z) (k : nat) :
  spline_ok (hermite_base h) -> length (mMs h) = length (mXs (hermite_base h)) ->
  (k < length (mXs (hermite_base h)))%nat ->
  Imod i (mN (hermite_base h)) = Z.of_nat k ->
  exists v : ST, nth_error (mMs h) k = Some v /\ GetM h i = Ok v.
Proof.
  intros Hok Lm Hk E. destruct (count_knots _ Hok _ eq_refl) as (En & _).
  unfold GetM. rewrite E.
  replace (0 <=? Z.of_nat k)%Z with true by (symmetry; apply Z.leb_le; lia).
  replace (Z.of_nat k <? mN (hermite_base h))%Z with true
    by (symmetry; apply Z.ltb_lt; lia).
  cbn [bind assert].
  destruct (nth_error (mMs h) k) as [v|] eqn:Ev.
  - exists v. split; [reflexivity|]. now apply array_read_index.
  - apply nth_error_None in Ev. lia.
Qed.

Lemma LocalSpline_Y_at {ST : Type} (T : ST -> ST -> double -> ST) (s : Spline ST)
    (c : Z) (x x' : double) (b : nat) :
  spline_ok s ->
  (if mLoop s then LoopInRange s x = Ok x' else x' = x) ->
  bracket s b x' ->
  exists y0 y1 : ST,
    nth_error (mYs s) b = Some y0 /\ nth_error (mYs s) (b + 1) = Some y1 /\
    LocalSpline_Y T s c x
    = Ok (T y0 y1 ((x' - knot_at s b) / (knot_at s (b + 1) - knot_at s b))%Qc,
          Z.of_nat b).
Proof.
  intros Hok Hx Hb. pose proof Hb as (B1 & _).
  destruct (GetY_at s Hok _ eq_refl (Z.of_nat b) b) as (y0 & E0 & G0);
    [lia | apply (Imod_of_index s Hok _ eq_refl); lia |].
  destruct (GetY_at s Hok _ eq_refl (Z.of_nat b + 1) (b + 1)) as (y1 & E1 & G1);
    [lia | apply (Imod_succ s Hok _ eq_refl); lia |].
  exists y0, y1. split; [exact E0|]. split; [exact E1|].
  unfold LocalSpline_Y.
  rewrite (proj1 (GetIndex_at s c x x' b Hok Hx Hb)). cbn [bind].
  rewrite (GetSubRange_at s x x' b Hok Hx B1). cbn [bind].
  rewrite G0, G1. reflexivity.
Qed.

Lemma Hermite_Y_at {ST : Type} {S : Sample ST} (h : Hermite ST)
    (c : Z) (x x' : double) (b : nat) :
  spline_ok (hermite_base h) -> length (mMs h) = length (mXs (hermite_base h)) ->
  (if mLoop (hermite_base h) then LoopInRange (hermite_base h) x = Ok x' else x' = x) ->
  bracket (hermite_base h) b x' ->
  exists y0 y1 m0 m1 : ST,
    nth_error (mYs (hermite_base h)) b = Some y0 /\
    nth_error (mYs (hermite_base h)) (b + 1) = Some y1 /\
    nth_error (mMs h) b = Some m0 /\ nth_error (mMs h) (b + 1) = Some m1 /\
    Hermite_Y h c x
    = Ok (Function_Hermite m0 y0 y1 m1
            ((x' - knot_at (hermite_base h) b)
             / (knot_at (hermite_base h) (b + 1) - knot_at (hermite_base h) b))%Qc,
          Z.of_nat b).
Proof.
  intros Hok Lm Hx Hb. pose proof Hb as (B1 & _).
  set (s := hermite_base h) in *.
  destruct (GetY_at s Hok _ eq_refl (Z.of_nat b) b) as (y0 & E0 & G0);
    [lia | apply (Imod_of_index s Hok _ eq_refl); lia |].
  destruct (GetY_at s Hok _ eq_refl (Z.of_nat b + 1) (b + 1)) as (y1 & E1 & G1);
    [lia | apply (Imod_succ s Hok _ eq_refl); lia |].
  destruct (GetM_at h (Z.of_nat b) b Hok Lm) as (m0 & F0 & M0);
    [fold s; lia | apply (Imod_of_index s Hok _ eq_refl); lia |].
  destruct (GetM_at h (Z.of_nat b + 1) (b + 1) Hok Lm) as (m1 & F1 & M1);
    [fold s; lia | apply (Imod_succ s Hok _ eq_refl); lia |].
  exists y0, y1, m0, m1. repeat (split; [assumption|]).
  unfold Hermite_Y. fold s.
  rewrite (proj1 (GetIndex_at s c x x' b Hok Hx Hb)). cbn [bind].
  rewrite (GetSubRange_at s x x' b Hok Hx B1). cbn [bind].
  rewrite G0, G1. cbn [bind]. rewrite M0, M1. reflexivity.
Qed.

Lemma bracket_of_knot {ST : Type} (s : Spline ST) (k : nat) :
  spline_ok s -> (k + 2 <= length (mXs s))%nat -> bracket s k (knot_at s k).
Proof.
  intros Hok Hk. split; [exact Hk|]. split; [right; apply Qcle_refl|].
  right. apply (ascend s Hok _ eq_refl); lia.
Qed.

Lemma LoopInRange_of_knot {ST : Type} (s : Spline ST) (k : nat) :
  spline_ok s -> (k + 2 <= length (mXs s))%nat ->
  if mLoop s then LoopInRange s (knot_at s k) = Ok (knot_at s k)
  else knot_at s k = knot_at s k.
Proof.
  intros Hok Hk. destruct (mLoop s); [|reflexivity].
  rewrite LoopInRange_Mod by exact Hok. apply Mod_fixed.
  - apply (ascend_le s Hok _ eq_refl); lia.
  - apply (ascend s Hok _ eq_refl); lia.
Qed.

Lemma quotient_zero (v w : double) : ((v - v) / w)%Qc = dbl 0 1.
Proof.
  unfold Qcdiv. replace (v - v)%Qc with 0%Qc by qc_ring.
  rewrite Qcmult_0_l. symmetry. exact dbl_0.
Qed.

Lemma unit_quotient_le (lo hi v : double) :
  (lo <= v)%Qc -> (v < hi)%Qc ->
  (0 <= (v - lo) / (hi - lo))%Qc /\ ((v - lo) / (hi - lo) <= 1)%Qc.
Proof.
  intros H0 H1. destruct (unit_quotient lo hi v H0 H1) as [A B].
  split; [exact A | now apply Qclt_le_weak].
Qed.

(** X27: on a curve made by an accepted constructor (with as many tangents
    as knots), [LocalSpline::Y] and [Hermite::Y] fail only where
    [LoopInRange] fails, on a spline that loops.  Everywhere else, and
    whatever index is cached, they return the interpolation between the two
    samples (and the two tangents) of the interval that [GetIndex] finds, at
    the quotient of the distance from the first knot of the interval by the
    length of the interval, and leave the interval as the cached index; on
    a spline that loops this quotient is at least 0 and at most 1. *)
Theorem curves_evaluate {ST : Type} {S : Sample ST} (T : ST -> ST -> double -> ST)
    (h : Hermite ST) (x : double) :
  let s := hermite_base h in
  spline_ok s -> length (mMs h) = length (mXs s) ->
  (mLoop s = true /\ LoopInRange s x = Abort /\
   forall mLastIndex : Z,
     LocalSpline_Y T s mLastIndex x = Abort /\ Hermite_Y h mLastIndex x = Abort) \/
  (exists (x' : double) (b : nat) (y0 y1 m0 m1 : ST),
     let t := ((x' - knot_at s b) / (knot_at s (b + 1) - knot_at s b))%Qc in
     (if mLoop s then LoopInRange s x = Ok x' else x' = x) /\
     bracket s b x' /\
     nth_error (mYs s) b = Some y0 /\ nth_error (mYs s) (b + 1) = Some y1 /\
     nth_error (mMs h) b = Some m0 /\ nth_error (mMs h) (b + 1) = Some m1 /\
     (forall mLastIndex : Z,
        LocalSpline_Y T s mLastIndex x = Ok (T y0 y1 t, Z.of_nat b)) /\
     (forall mLastIndex : Z,
        Hermite_Y h mLastIndex x = Ok (Function_Hermite m0 y0 y1 m1 t, Z.of_nat b)) /\
     (mLoop s = true -> (0 <= t)%Qc /\ (t <= 1)%Qc)).
Proof.
  intros s Hok Lm. subst s.
  destruct (wrapped (hermite_base h) x Hok) as [[El E] | [x' Hx]].
  - left. split; [exact El|]. split; [exact E|]. intro c.
    unfold LocalSpline_Y, Hermite_Y, GetIndex. now rewrite El, E.
  - right. destruct (bracket_exists (hermite_base h) Hok _ eq_refl x') as [b Hb].
    destruct (Hermite_Y_at h 0 x x' b Hok Lm Hx Hb)
      as (y0 & y1 & m0 & m1 & E0 & E1 & F0 & F1 & _).
    exists x', b, y0, y1, m0, m1. cbv zeta.
    split; [exact Hx|]. split; [exact Hb|]. do 4 (split; [assumption|]).
    split; [|split].
    + intro c.
      destruct (LocalSpline_Y_at T (hermite_base h) c x x' b Hok Hx Hb)
        as (z0 & z1 & Z0 & Z1 & HY).
      rewrite HY. congruence.
    + intro c.
      destruct (Hermite_Y_at h c x x' b Hok Lm Hx Hb)
        as (z0 & z1 & n0 & n1 & Z0 & Z1 & N0 & N1 & HY).
      rewrite HY. congruence.
    + intro El.
      destruct (proj2 (GetIndex_at (hermite_base h) 0 x x' b Hok Hx Hb) El) as [H0 H1].
      now apply unit_quotient_le.
Qed.

Lemma curves_evaluate_witness :
  let h := MkHermite (MkSpline 3 true true [dbl 0 1; dbl 1 2; dbl 1 1]
                               [dbl 5 1; dbl 7 1; dbl 5 1])
                     [dbl 0 1; dbl 0 1; dbl 0 1] in
  (forall mLastIndex : Z, Hermite_Y h mLastIndex (dbl (-1) 1) = Abort) /\
  (exists (v : double) (i : Z), forall mLastIndex : Z,
     Hermite_Y h mLastIndex (dbl 3 4) = Ok (v, i)).
Proof.
  intro h.
  assert (Hok : spline_ok (hermite_base h)).
  { repeat split; try reflexivity. apply ascending_knots. reflexivity. }
  split.
  - destruct (@curves_evaluate double Sample_double NearestNeighbor h (dbl (-1) 1)
                Hok eq_refl) as [(_ & _ & H) | (x' & b & y0 & y1 & m0 & m1 & Hx & _)].
    + intro c. exact (proj2 (H c)).
    + exfalso. change (mLoop (hermite_base h)) with true in Hx. cbv iota in Hx.
      assert (E : LoopInRange (hermite_base h) (dbl (-1) 1) = Abort)
        by (vm_compute; reflexivity).
      rewrite E in Hx. discriminate.
  - destruct (@curves_evaluate double Sample_double NearestNeighbor h (dbl 3 4)
                Hok eq_refl)
      as [(_ & E & _) | (x' & b & y0 & y1 & m0 & m1 & _ & _ & _ & _ & _ & _ & _ & HY & _)].
    + exfalso.
      assert (E' : LoopInRange (hermite_base h) (dbl 3 4) = Ok (dbl 3 4))
        by (vm_compute; reflexivity).
      rewrite E' in E. discriminate.
    + do 2 eexists. exact HY.
Defined.

Lemma Hermite_start (m0 y0 y1 m1 : vec2) :
  Function_Hermite m0 y0 y1 m1 (dbl 0 1) = y0.
Proof.
  unfold Function_Hermite, h1, h2, h3, h4. cbn [s_add s_scale Sample_vec2]. vec2_ring.
Qed.

Lemma LoopInRange_of_knot_exact {ST : Type} (s : Spline ST) (k : nat) :
  spline_ok s -> wraps_exactly s -> (k + 2 <= length (mXs s))%nat ->
  if mLoop s then LoopInRange s (knot_at s k) = Ok (knot_at s k)
  else knot_at s k = knot_at s k.
Proof.
  intros Hok Hw Hk. destruct (mLoop s) eqn:El; [|reflexivity].
  destruct Hw as [Hw | Hu]; [congruence|].
  rewrite (LoopInRange_unit s _ Hok Hu). destruct Hu as [E0 E1].
  apply Mod_fixed.
  - rewrite <- E0. apply (ascend_le s Hok _ eq_refl); lia.
  - rewrite <- E1. apply (ascend s Hok _ eq_refl); lia.
Qed.

(** X28: a curve passes through its samples at its knots, on the splines
    where [LoopInRange] leaves a knot as it is whatever the rounding: those
    that do not loop, and those whose knots go from 0 to 1.  At its knot of
    rank [k], the last one apart, a Hermite curve of points is at its sample
    of rank [k], a step curve has its value of rank [k], and so has every
    [LocalSpline] whose interpolation function returns its first argument at
    0; the cached index becomes [k], whatever it was. *)
Theorem curves_pass_through_samples (th : Hermite vec2) (z : Step) (k : nat)
    (p : vec2) (f : double) (T : double -> double -> double -> double) :
  spline_ok (hermite_base th) -> length (mMs th) = length (mXs (hermite_base th)) ->
  spline_ok z ->
  wraps_exactly (hermite_base th) -> wraps_exactly z ->
  (forall y0 y1 : double, T y0 y1 (dbl 0 1) = y0) ->
  (k + 2 <= length (mXs (hermite_base th)))%nat -> (k + 2 <= length (mXs z))%nat ->
  nth_error (mYs (hermite_base th)) k = Some p -> nth_error (mYs z) k = Some f ->
  forall mLastIndex : Z,
    Hermite_Y th mLastIndex (knot_at (hermite_base th) k) = Ok (p, Z.of_nat k) /\
    Step_Y z mLastIndex (knot_at z k) = Ok (f, Z.of_nat k) /\
    LocalSpline_Y T z mLastIndex (knot_at z k) = Ok (f, Z.of_nat k).
Proof.
  intros Hok Lm Hokz Hw Hwz HT Hk Hkz Ep Ef c.
  assert (HS : forall U : double -> double -> double -> double,
             (forall y0 y1 : double, U y0 y1 (dbl 0 1) = y0) ->
             LocalSpline_Y U z c (knot_at z k) = Ok (f, Z.of_nat k)).
  { intros U HU.
    destruct (LocalSpline_Y_at U z c _ _ k Hokz
                (LoopInRange_of_knot_exact z k Hokz Hwz Hkz)
                (bracket_of_knot z k Hokz Hkz)) as (y0 & y1 & E0 & _ & HY).
    rewrite HY, quotient_zero, HU. congruence. }
  split; [|split].
  - destruct (Hermite_Y_at th c _ _ k Hok Lm
                (LoopInRange_of_knot_exact _ k Hok Hw Hk) (bracket_of_knot _ k Hok Hk))
      as (y0 & y1 & m0 & m1 & E0 & _ & _ & _ & HY).
    rewrite HY, quotient_zero.
    rewrite Hermite_start. congruence.
  - apply (HS NearestNeighbor). reflexivity.
  - apply (HS T HT).
Qed.

Lemma curves_pass_through_samples_witness :
  Step_Y (MkSpline 3 true true [dbl 0 1; dbl 1 2; dbl 1 1] [dbl 1 1; dbl 0 1; dbl 1 1])
         7 (dbl 1 2)
  = Ok (dbl 0 1, 1%Z).
Proof.
  set (z := MkSpline 3 true true [dbl 0 1; dbl 1 2; dbl 1 1] [dbl 1 1; dbl 0 1; dbl 1 1]).
  set (th := MkHermite (MkSpline 3 false true [dbl 0 1; dbl 1 2; dbl 1 1]
                                 [pt 0 0; pt 1 0; pt 0 0])
                       [pt 1 1; pt 1 1; pt 1 1]).
  assert (Hz : spline_ok z).
  { repeat split; try reflexivity. apply ascending_knots. reflexivity. }
  assert (Hth : spline_ok (hermite_base th)).
  { repeat split; try reflexivity. apply ascending_knots. reflexivity. }
  assert (Hw : wraps_exactly (hermite_base th)) by (left; reflexivity).
  assert (Hwz : wraps_exactly z) by (right; split; reflexivity).
  refine (proj1 (proj2 (curves_pass_through_samples th z 1 (pt 1 0) (dbl 0 1)
                          NearestNeighbor Hth eq_refl Hz Hw Hwz (fun _ _ => eq_refl)
                          _ _ eq_refl eq_refl 7))); simpl; lia.
Defined.

(** ** Evaluation of the curves of a run *)

Lemma knot_at_knots {ST : Type} (s : Spline ST) (frames k : nat) :
  mXs s = knots frames -> (0 < frames)%nat -> (k <= frames)%nat ->
  knot_at s k = knot frames k.
Proof.
  intros Ex Hf Hk. unfold knot_at. rewrite Ex.
  apply nth_error_nth. now apply knots_nth.
Qed.

Lemma produced_splines (th : Thread) (z : Step) (vs : list Port) :
  produced th z vs -> (Z.of_nat (length vs) + 2 < 2 ^ 30)%Z ->
  spline_ok (hermite_base th) /\ spline_ok z /\
  length (mMs th) = length (mXs (hermite_base th)) /\
  mXs (hermite_base th) = knots (sample_count th) /\ mXs z = knots (sample_count th) /\
  mLoop (hermite_base th) = true /\ mLoop z = true /\ (0 < sample_count th)%nat.
Proof.
  intros (p & pts & tg & tans & u & zs & La & Lz & Lv & Ey & Em & Ez & Ex & Ex' & En & En'
          & _ & Hl & Hl') Hb.
  simpl in Lv. rewrite Z.mod_small in En, En' by lia.
  assert (Es : sample_count th = S (length pts)).
  { unfold sample_count. rewrite Ey, length_app. simpl. lia. }
  rewrite Es.
  assert (Ha : knots_ascend (knots (S (length pts)))) by (apply knots_ascending_all; lia).
  split; [|split; [|split; [|split; [|split; [|split; [|split]]]]]];
    try assumption; try lia.
  - unfold spline_ok. rewrite En, Ex, Ey, knots_length, length_app. simpl.
    split; [lia|]. split; [lia|]. split; [lia | exact Ha].
  - unfold spline_ok. rewrite En', Ex', Ez, knots_length, length_app. simpl.
    split; [lia|]. split; [lia|]. split; [lia | exact Ha].
  - rewrite Em, Ex, knots_length, length_app. simpl. lia.
Qed.

(** X29: on a mesh that fits, the two curves of every thread of a run can be
    evaluated at every parameter that is not negative, as the animation
    does: the evaluation does not fail, whatever the index the curve has
    cached, and both curves find the same interval.  At the knot of rank
    [k], [k] divided by the number of samples, the thread is at its sample of
    rank [k] and its step curve has the flag of rank [k]. *)
Theorem threads_evaluate (libm : Libm) (mem : Indeterminate) (strokes : StrokeList)
    (art : Art) (index : nat) (th : Thread) (z : Step) :
  fits strokes -> CreateThread strokes = Ok art ->
  GetThread art index = Ok th -> GetZ art index = Ok z ->
  (forall (x : double) (c c' : Z), (dbl 0 1 <= x)%Qc ->
     exists (p : vec2) (f : double) (i : nat),
       Hermite_Y th c x = Ok (p, Z.of_nat i) /\ Step_Y z c' x = Ok (f, Z.of_nat i) /\
       (i < sample_count th)%nat) /\
  (forall (k : nat) (c c' : Z) (p : vec2) (f : double),
     (k < sample_count th)%nat ->
     nth_error (mYs (hermite_base th)) k = Some p -> nth_error (mYs z) k = Some f ->
     Hermite_Y th c (knot (sample_count th) k) = Ok (p, Z.of_nat k) /\
     Step_Y z c' (knot (sample_count th) k) = Ok (f, Z.of_nat k)).
Proof.
  intros Hfit H Hth Hz. destruct (CreateThread_inv _ _ _ _ H) as [o [Ho ->]].
  apply GetThread_inv in Hth. apply GetZ_inv in Hz. destruct Hz as [_ Hz].
  simpl in Hth, Hz.
  destruct (CreateThread_run_spec strokes o Ho) as [_ Hf].
  destruct (Forall3_nth _ _ _ _ index th z Hf Hth Hz) as [vs [Hvs Hp]].
  pose proof (produced_fits libm mem strokes o th z vs Hfit Ho (nth_error_In _ _ Hvs)) as Hb.
  destruct (produced_splines th z vs Hp Hb)
    as (Hok & Hokz & Lm & Ex & Ex' & Hl & Hl' & Hs).
  assert (Lx : length (mXs (hermite_base th)) = (sample_count th + 1)%nat)
    by (now rewrite Ex, knots_length).
  assert (Lx' : length (mXs z) = (sample_count th + 1)%nat)
    by (now rewrite Ex', knots_length).
  assert (Ek : forall k, knot_at z k = knot_at (hermite_base th) k).
  { intro k. unfold knot_at. now rewrite Ex, Ex'. }
  split.
  - intros x c c' Hx.
    assert (H0 : (knot_at (hermite_base th) 0 <= x)%Qc).
    { rewrite (knot_at_knots _ (sample_count th) 0 Ex Hs) by lia. now rewrite knot_zero. }
    assert (Hr : (knot_at (hermite_base th) 0
                  < knot_at (hermite_base th) (length (mXs (hermite_base th)) - 1))%Qc).
    { apply (ascend _ Hok _ eq_refl); lia. }
    destruct (Mod_in_range x _ _ Hr (or_introl H0)) as (x' & q & HM & _).
    assert (Hx1 : if mLoop (hermite_base th)
                  then LoopInRange (hermite_base th) x = Ok x' else x' = x).
    { rewrite Hl. now rewrite LoopInRange_Mod. }
    assert (Hx2 : if mLoop z then LoopInRange z x = Ok x' else x' = x).
    { rewrite Hl'. rewrite LoopInRange_Mod by exact Hokz. rewrite !Ek.
      now replace (length (mXs z)) with (length (mXs (hermite_base th))) by lia. }
    destruct (bracket_exists _ Hok _ eq_refl x') as [b Hb1].
    assert (Hb2 : bracket z b x').
    { unfold bracket in *. now rewrite !Ek, Lx', <- Lx. }
    destruct (Hermite_Y_at th c x x' b Hok Lm Hx1 Hb1)
      as (y0 & y1 & m0 & m1 & _ & _ & _ & _ & HY).
    destruct (LocalSpline_Y_at NearestNeighbor z c' x x' b Hokz Hx2 Hb2)
      as (f0 & f1 & _ & _ & HZ).
    do 2 eexists. exists b. split; [exact HY|]. split; [exact HZ|].
    destruct Hb1 as (B1 & _). lia.
  - intros k c c' p f Hk Ep Ef.
    rewrite <- (knot_at_knots (hermite_base th) (sample_count th) k Ex Hs) by lia.
    split.
    + destruct (Hermite_Y_at th c _ _ k Hok Lm
                  (LoopInRange_of_knot _ k Hok ltac:(lia)) (bracket_of_knot _ k Hok ltac:(lia)))
        as (y0 & y1 & m0 & m1 & E0 & _ & _ & _ & HY).
      rewrite HY, quotient_zero, Hermite_start. congruence.
    + rewrite <- Ek.
      destruct (LocalSpline_Y_at NearestNeighbor z c' _ _ k Hokz
                  (LoopInRange_of_knot z k Hokz ltac:(lia)) (bracket_of_knot z k Hokz ltac:(lia)))
        as (y0 & y1 & E0 & _ & HY).
      change (Step_Y z c' (knot_at z k)) with (LocalSpline_Y NearestNeighbor z c' (knot_at z k)).
      rewrite HY, quotient_zero. change (NearestNeighbor y0 y1 (dbl 0 1)) with y0. congruence.
Qed.

Lemma threads_evaluate_witness :
  exists (th : Thread) (z : Step) (p : vec2) (f : double) (i : nat),
    GetThread art_one 0 = Ok th /\ GetZ art_one 0 = Ok z /\
    Hermite_Y th 3 (dbl 5 4) = Ok (p, Z.of_nat i) /\
    Step_Y z (-2) (dbl 5 4) = Ok (f, Z.of_nat i).
Proof.
  assert (Hth1 : exists th, GetThread art_one 0 = Ok th) by (vm_compute; eauto).
  assert (Hz1 : exists z, GetZ art_one 0 = Ok z) by (vm_compute; eauto).
  destruct Hth1 as [th Hth]. destruct Hz1 as [z Hz].
  destruct (threads_evaluate rational_libm zeroed_memory mesh_one art_one 0 th z
              fits_mesh_one art_one_Ok Hth Hz) as [Hev _].
  destruct (Hev (dbl 5 4) 3%Z (-2)%Z) as (p & f & i & HY & HZ & _); [discriminate|].
  exists th, z, p, f, i. auto.
Defined.

(** ** The strokes that the animation removes *)

Lemma vec2_equiv_eq (k p : vec2) : vec2_equiv k p = true <-> k = p.
Proof.
  unfold vec2_equiv. rewrite andb_true_iff, !negb_true_iff. split.
  - intros [H1 H2]. now apply vec2_total.
  - intros ->. now rewrite vec2_ltb_irrefl.
Qed.

Lemma vec2_equiv_dec (k p : vec2) :
  vec2_equiv k p = if vec2_eq_dec k p then true else false.
Proof.
  destruct (vec2_eq_dec k p) as [E | N].
  - now apply vec2_equiv_eq.
  - destruct (vec2_equiv k p) eqn:E; [|reflexivity]. now apply vec2_equiv_eq in E.
Qed.

Lemma map_at_absent (m : CountMap) (k : vec2) : map_count m k = false -> map_at m k = 0%nat.
Proof.
  induction m as [|[k' n] m IH]; simpl; [reflexivity|].
  intro H. apply orb_false_iff in H. destruct H as [-> H]. now apply IH.
Qed.

Lemma map_at_assign (m : CountMap) (k p : vec2) (n : nat) :
  map_at (map_assign m k n) p = if vec2_eq_dec k p then n else map_at m p.
Proof.
  induction m as [|[k' n'] m IH]; simpl.
  - rewrite vec2_equiv_dec. now destruct (vec2_eq_dec k p).
  - rewrite (vec2_equiv_dec k' k). destruct (vec2_eq_dec k' k) as [-> | N]; simpl.
    + rewrite vec2_equiv_dec. now destruct (vec2_eq_dec k p).
    + rewrite IH, vec2_equiv_dec. destruct (vec2_eq_dec k' p) as [-> | N'].
      * destruct (vec2_eq_dec k p) as [-> | _]; [now elim N | reflexivity].
      * reflexivity.
Qed.

Lemma map_at_count_end (m : CountMap) (q p : vec2) :
  map_at (count_end m q) p
  = (map_at m p + if vec2_eq_dec q p then 1 else 0)%nat.
Proof.
  unfold count_end. destruct (map_count m q) eqn:E; rewrite map_at_assign.
  - destruct (vec2_eq_dec q p) as [-> | _]; lia.
  - apply map_at_absent in E. destruct (vec2_eq_dec q p) as [<- | _]; lia.
Qed.

Lemma map_at_fold (sl : StrokeList) (m : CountMap) (p : vec2) :
  map_at (fold_left (fun sCount it => count_end (count_end sCount (a it)) (b it)) sl m) p
  = (map_at m p + count_occ vec2_eq_dec (endpoints sl) p)%nat.
Proof.
  revert m. induction sl as [|it sl IH]; intro m; simpl; [lia|].
  rewrite IH, !map_at_count_end. fold (endpoints sl).
  destruct (vec2_eq_dec (a it) p), (vec2_eq_dec (b it) p); lia.
Qed.

Lemma delete_some_subsequence (delThres : Z) (rand : nat -> Z) (k : nat) (sl : StrokeList) :
  subsequence (delete_some delThres rand k sl) sl.
Proof.
  revert k. induction sl as [|it sl IH]; intro k; simpl; [constructor|].
  destruct (rand k <? delThres)%Z; constructor; apply IH.
Qed.

Lemma purge_subsequence (m : CountMap) (sl : StrokeList) : subsequence (purge m sl) sl.
Proof.
  induction sl as [|it sl IH]; simpl; [constructor|].
  destruct ((map_at m (a it) =? 1)%nat || (map_at m (b it) =? 1)%nat);
    constructor; exact IH.
Qed.

Lemma purge_In (m : CountMap) (sl : StrokeList) (it : Stroke) :
  In it (purge m sl) <->
  In it sl /\ map_at m (a it) <> 1%nat /\ map_at m (b it) <> 1%nat.
Proof.
  induction sl as [|v sl IH]; simpl; [tauto|].
  destruct ((map_at m (a v) =? 1)%nat || (map_at m (b v) =? 1)%nat) eqn:E.
  - rewrite IH. apply orb_true_iff in E. rewrite !Nat.eqb_eq in E.
    split; [tauto|]. intros [[-> | H] [Ha Hb]]; [lia | tauto].
  - simpl. rewrite IH. apply orb_false_iff in E. rewrite !Nat.eqb_neq in E.
    split; [|tauto]. intros [-> | H]; tauto.
Qed.

Lemma subsequence_trans {A : Type} (l1 l2 l3 : list A) :
  subsequence l1 l2 -> subsequence l2 l3 -> subsequence l1 l3.
Proof.
  intros H12 H23. revert l1 H12. induction H23 as [|v l l' H IH|v l l' H IH]; intros l1 H12.
  - exact H12.
  - constructor. now apply IH.
  - inversion H12; subst; constructor; now apply IH.
Qed.

Lemma ends_counted (sl : StrokeList) (it : Stroke) :
  In it sl ->
  (1 <= count_occ vec2_eq_dec (endpoints sl) (a it))%nat /\
  (1 <= count_occ vec2_eq_dec (endpoints sl) (b it))%nat.
Proof.
  intro H. split; apply count_occ_In; unfold endpoints; apply in_flat_map;
    exists it; (split; [exact H|]); simpl; auto.
Qed.

(** X30: [RemoveStrokes] returns strokes of the list it was given, in the
    order they had there.  Its map counts, for each point, the ends of the
    strokes that the random deletion has left; the strokes that it returns
    are those of them neither of whose ends is alone at its point, ends
    counted before the purge. *)
Theorem RemoveStrokes_purges (RAND_MAX : Z) (rand : nat -> Z) (strokes : StrokeList) :
  let delThres := (RAND_MAX ÷ (3 + Z.rem (rand 0%nat) 20))%Z in
  let left_ := delete_some delThres rand 1 strokes in
  let out := RemoveStrokes RAND_MAX rand strokes in
  subsequence out strokes /\ subsequence out left_ /\ subsequence left_ strokes /\
  (forall p : vec2,
     map_at (count_ends left_) p = count_occ vec2_eq_dec (endpoints left_) p) /\
  (forall it : Stroke,
     In it out <->
     In it left_ /\
     (2 <= count_occ vec2_eq_dec (endpoints left_) (a it))%nat /\
     (2 <= count_occ vec2_eq_dec (endpoints left_) (b it))%nat).
Proof.
  intros delThres left_ out.
  assert (H1 : subsequence left_ strokes) by apply delete_some_subsequence.
  assert (H2 : subsequence out left_) by apply purge_subsequence.
  assert (H3 : forall p, map_at (count_ends left_) p
                         = count_occ vec2_eq_dec (endpoints left_) p).
  { intro p. unfold count_ends. now rewrite map_at_fold. }
  split; [now apply subsequence_trans with left_|]. split; [exact H2|].
  split; [exact H1|]. split; [exact H3|].
  intro it. unfold out, RemoveStrokes. fold delThres. fold left_.
  rewrite purge_In, !H3. split.
  - intros (Hin & Ha & Hb). destruct (ends_counted left_ it Hin). repeat split; [exact Hin | lia | lia].
  - intros (Hin & Ha & Hb). repeat split; [exact Hin | lia | lia].
Qed.
